(** * boltdbui: bucket-path resolution, the bucket tree and its detail
      view, value classification, hex dump, key search, timestamp decoding
      and the request handlers of the metadata viewer (main.go).

    Go strings and byte slices are both finite byte sequences; the
    conversions [string(b)] and [[]byte(s)] copy the bytes unchanged.  Both
    are modelled by [string], whose characters ([ascii]) are the bytes, so
    [length] is Go's [len] and a slice [s[:n]] is [substring 0 n s].

    The file first embeds the program, with the functions of Go's standard
    library and of bbolt that it calls, then names the notions the
    statements need, then proves the properties. *)

From Stdlib Require Import String Ascii List Bool Arith ZArith Lia.
From Stdlib Require Import DecimalString HexadecimalString.
From Equations Require Import Equations.
Import ListNotations.
Open Scope string_scope.
Open Scope nat_scope.

(** ** Bytes *)

Definition byteval (c : ascii) : nat := nat_of_ascii c.

Definition slash : ascii := "/"%char.
Definition newline : string := String (ascii_of_nat 10) EmptyString.
Definition dquote : ascii := ascii_of_nat 34.

(** ** The parts of Go's standard library [strings] that the program calls *)

Module strings.

(** [strings.Trim(s, cutset)] for a cutset of one ASCII byte: the library
    takes [trimLeftByte(trimRightByte(s, c), c)]. *)
Fixpoint trimLeftByte (s : string) (c : ascii) : string :=
  match s with
  | EmptyString => EmptyString
  | String a s' => if Ascii.eqb a c then trimLeftByte s' c else s
  end.

Fixpoint trimRightByte (s : string) (c : ascii) : string :=
  match s with
  | EmptyString => EmptyString
  | String a s' =>
      match trimRightByte s' c with
      | EmptyString => if Ascii.eqb a c then EmptyString else String a EmptyString
      | t => String a t
      end
  end.

Definition Trim (s : string) (c : ascii) : string :=
  trimLeftByte (trimRightByte s c) c.

(** [strings.Split(s, sep)] for a separator of one byte: the pieces between
    the occurrences of the separator, [Count(s, sep) + 1] of them. *)
Fixpoint Split (s : string) (sep : ascii) : list string :=
  match s with
  | EmptyString => [EmptyString]
  | String a s' =>
      if Ascii.eqb a sep then EmptyString :: Split s' sep
      else match Split s' sep with
           | [] => [String a EmptyString]
           | seg :: segs => String a seg :: segs
           end
  end.

(** [strings.Join(elems, sep)]. *)
Fixpoint Join (elems : list string) (sep : string) : string :=
  match elems with
  | [] => EmptyString
  | [x] => x
  | x :: rest => x ++ sep ++ Join rest sep
  end.

(** [strings.Contains(s, substr)]. *)
Fixpoint Contains (s substr : string) : bool :=
  if prefix substr s then true
  else match s with
       | EmptyString => false
       | String _ s' => Contains s' substr
       end.

End strings.

(** ** The store: bbolt buckets as the program reads them

    A bucket maps each key to a value or to a nested bucket; [ForEach]
    enumerates the entries in the store's key order, which the list keeps.
    A transaction gives access to the top-level buckets of the root, which
    holds buckets only. *)

Inductive Entry (B : Type) : Type :=
| Val (v : string)
| Sub (b : B).
Arguments Val {B} v.
Arguments Sub {B} b.

#[warnings="-register-all"]
Inductive Bucket : Type :=
| MkBucket (entries : list (string * Entry Bucket)).

Definition entries (b : Bucket) : list (string * Entry Bucket) :=
  match b with MkBucket es => es end.

Definition Tx : Type := list (string * Bucket).

Fixpoint seek {A : Type} (key : string) (es : list (string * A)) : option A :=
  match es with
  | [] => None
  | (k, e) :: es' => if String.eqb k key then Some e else seek key es'
  end.

(** [Bucket.Bucket(name)]: the nested bucket stored under [name], nil when
    the key is absent or holds a value. *)
Definition Bucket_Bucket (b : Bucket) (name : string) : option Bucket :=
  match seek name (entries b) with
  | Some (Sub c) => Some c
  | _ => None
  end.

(** [Bucket.Get(key)]: the value stored under [key], nil when the key is
    absent or holds a nested bucket. *)
Definition Bucket_Get (b : Bucket) (key : string) : option string :=
  match seek key (entries b) with
  | Some (Val v) => Some v
  | _ => None
  end.

(** [Tx.Bucket(name)]. *)
Definition Tx_Bucket (tx : Tx) (name : string) : option Bucket := seek name tx.

(** ** findBucket (main.go, lines 1576-1651) *)

(** [parts[i:j]]. *)
Definition slice {A : Type} (l : list A) (i j : nat) : list A :=
  firstn (j - i) (skipn i l).

(** The filter loop of lines 1585-1590. *)
Definition nonEmpty (p : string) : bool := negb (String.eqb p EmptyString).

Definition pathParts (path : string) : list string :=
  filter nonEmpty (strings.Split path slash).

(** The inner loop of lines 1618-1627: [j] runs from [len(parts)] down while
    [j > i+1]; the first candidate [parts[i:j]] that names a child wins. *)
Fixpoint mergeSegments (parts : list string) (bucket : Bucket) (i j : nat)
  : option (Bucket * nat) :=
  match j with
  | O => None
  | S j' =>
      if i + 1 <? j then
        match Bucket_Bucket bucket (strings.Join (slice parts i j) "/") with
        | Some cand => Some (cand, j)
        | None => mergeSegments parts bucket i j'
        end
      else None
  end.

(** The loop of lines 1604-1648, one iteration per unit of [fuel]; after a
    merge the source sets [i = j - 1] and [continue] runs [i++].  The outer
    [option] is [None] only when the fuel runs out before the loop ends; the
    inner one is the function's result ([None] is Go's nil). *)
Fixpoint findLoop (fuel : nat) (parts : list string) (bucket : Bucket) (i : nat)
  : option (option Bucket) :=
  if i <? length parts then
    match fuel with
    | O => None
    | S fuel' =>
        let name := nth i parts EmptyString in
        match Bucket_Bucket bucket name with
        | Some next => findLoop fuel' parts next (i + 1)
        | None =>
            let remainder := strings.Join (skipn i parts) "/" in
            match Bucket_Bucket bucket remainder with
            | Some try => Some (Some try)
            | None =>
                match mergeSegments parts bucket i (length parts) with
                | Some (cand, j) => findLoop fuel' parts cand (j - 1 + 1)
                | None => Some None
                end
            end
        end
    end
  else Some (Some bucket).

(** Lines 1593-1650 on the filtered [parts]: none gives nil; else the
    top-level bucket [parts[0]], then the loop from [i = 1], which
    [len(parts)] iterations always exhaust
    ([findParts_loop_completes]). *)
Definition findParts (tx : Tx) (parts : list string) : option Bucket :=
  match parts with
  | [] => None
  | top :: _ =>
      match Tx_Bucket tx top with
      | None => None
      | Some bucket =>
          match findLoop (length parts) parts bucket 1 with
          | Some r => r
          | None => None
          end
      end
  end.

(** Lines 1578-1591: trim the slashes, return nil on an empty path, split
    on ["/"] and drop the empty pieces. *)
Definition findBucket (tx : Tx) (path : string) : option Bucket :=
  let path := strings.Trim path slash in
  if String.eqb path EmptyString then None
  else findParts tx (pathParts path).

(** *** Concrete stores used by the examples *)

Definition emptyBucket : Bucket := MkBucket [].

Definition tx_ABC : Tx :=
  [("A", MkBucket [("B", Sub (MkBucket [("C", Sub (MkBucket [("k", Val "v")]))]))])].

Definition tx_xy : Tx := [("x/y", emptyBucket)].

Definition tx_A_xy : Tx :=
  [("A", MkBucket [("x/y", Sub (MkBucket [("k", Val "v")]))])].

Definition tx_deep : Tx :=
  [("v1", MkBucket [("docker.io/library", Sub (MkBucket [("nginx", Sub emptyBucket)]))])].

(** ** The verbs of [fmt.Sprintf] that the program uses *)

Module fmt.

(** [%d] of a non-negative int. *)
Definition d (n : nat) : string :=
  DecimalString.NilZero.string_of_uint (Nat.to_uint n).

Fixpoint zeros (n : nat) : string :=
  match n with
  | O => EmptyString
  | S n' => String "0"%char (zeros n')
  end.

(** [%0wx] of a non-negative int: lowercase hexadecimal digits, padded with
    zeros on the left up to the width [w]. *)
Definition x (w n : nat) : string :=
  let digits := HexadecimalString.NilZero.string_of_uint (Nat.to_hex_uint n) in
  zeros (w - String.length digits) ++ digits.

End fmt.

(** ** The hex dump (formatBinaryPreview, lines 1711-1753, and the copy of
    its loop in getFullKeyData, lines 1851-1872) *)

Fixpoint spaces (n : nat) : string :=
  match n with
  | O => EmptyString
  | S n' => String " "%char (spaces n')
  end.

(** The test [data[j] >= 32 && data[j] <= 126] and the column it feeds. *)
Definition printable (b : ascii) : bool :=
  (32 <=? byteval b) && (byteval b <=? 126).

Definition asciiCell (b : ascii) : string :=
  if printable b then String b EmptyString else ".".

(** The loop over [j] from [i] up to [end] (lines 1731-1738), [count] bytes
    from index [j] on.  Indexing past the data panics in Go; the callers keep
    [end <= len(data)], so the [None] branch is never taken by them. *)
Fixpoint hexBytes (data : string) (j count : nat) (hex ascii : string)
  : string * string :=
  match count with
  | O => (hex, ascii)
  | S count' =>
      match get j data with
      | Some b =>
          hexBytes data (j + 1) count'
                   (hex ++ fmt.x 2 (byteval b) ++ " ") (ascii ++ asciiCell b)
      | None => (hex, ascii)
      end
  end.

(** [for len(hex) < 48 { hex += " " }]. *)
Definition padHex (hex : string) : string := hex ++ spaces (48 - String.length hex).

Definition hexColumn (data : string) (i e : nat) : string :=
  fst (hexBytes data i (e - i) EmptyString EmptyString).

Definition asciiColumn (data : string) (i e : nat) : string :=
  snd (hexBytes data i (e - i) EmptyString EmptyString).

(** One record: [fmt.Sprintf("%04x: %s |%s|\n", i, hex, ascii)]. *)
Definition hexRecord (data : string) (i e : nat) : string :=
  fmt.x 4 i ++ ": " ++ padHex (hexColumn data i e) ++ " |"
        ++ asciiColumn data i e ++ "|" ++ newline.

(** [for i := 0; i < maxBytes; i += 16 { ... preview += record }]. *)
Equations? hexLoop (data : string) (maxBytes i : nat) (preview : string)
  : string by wf (maxBytes - i) lt :=
  hexLoop data maxBytes i preview with lt_dec i maxBytes => {
    | left _ :=
        hexLoop data maxBytes (i + 16)
                (preview ++ hexRecord data i (Nat.min (i + 16) maxBytes))
    | right _ := preview }.
Proof. lia. Qed.

Definition hexHeader : string := "Hexadecimal preview:" ++ newline.

Definition formatBinaryPreview (data : string) : string :=
  if String.length data =? 0 then "(empty data)"
  else
    let maxBytes := if String.length data <? 256 then String.length data else 256 in
    let preview := hexLoop data maxBytes 0 hexHeader in
    if maxBytes <? String.length data
    then preview ++ "... " ++ fmt.d (String.length data - maxBytes) ++ " more bytes"
    else preview.

(** The dump that getFullKeyData builds in place for a binary value (lines
    1851-1872): the same loop, bounded by [len(value)], with no marker. *)
Definition fullHexPreview (value : string) : string :=
  hexLoop value (String.length value) 0 hexHeader.

(** ** [unicode/utf8]: ValidString

    The library walks the string rune by rune: an ASCII byte stands alone; a
    lead byte fixes the size of the sequence and the range accepted for its
    second byte (the tables [first] and [acceptRanges]); the remaining bytes
    are continuation bytes 0x80-0xBF. *)

Module utf8.

(** [first[b]] with its accept range: size, and the bounds of the second
    byte; [None] is the table's [xx] (an invalid lead byte). *)
Definition first (b : nat) : option (nat * nat * nat) :=
  if (194 <=? b) && (b <=? 223) then Some (2, 128, 191)
  else if b =? 224 then Some (3, 160, 191)
  else if (225 <=? b) && (b <=? 236) then Some (3, 128, 191)
  else if b =? 237 then Some (3, 128, 159)
  else if (238 <=? b) && (b <=? 239) then Some (3, 128, 191)
  else if b =? 240 then Some (4, 144, 191)
  else if (241 <=? b) && (b <=? 243) then Some (4, 128, 191)
  else if b =? 244 then Some (4, 128, 143)
  else None.

Definition continuation (c : ascii) : bool :=
  (128 <=? byteval c) && (byteval c <=? 191).

Fixpoint ValidString (s : string) : bool :=
  match s with
  | EmptyString => true
  | String b rest =>
      if byteval b <? 128 then ValidString rest
      else
        match first (byteval b) with
        | None => false
        | Some (size, lo, hi) =>
            match rest with
            | EmptyString => false
            | String c1 r1 =>
                if (lo <=? byteval c1) && (byteval c1 <=? hi) then
                  if size =? 2 then ValidString r1
                  else
                    match r1 with
                    | EmptyString => false
                    | String c2 r2 =>
                        if continuation c2 then
                          if size =? 3 then ValidString r2
                          else
                            match r2 with
                            | EmptyString => false
                            | String c3 r3 =>
                                if continuation c3 then ValidString r3 else false
                            end
                        else false
                    end
                else false
            end
        end
  end.

End utf8.

Definition bytes (l : list nat) : string :=
  string_of_list_ascii (map ascii_of_nat l).

(** ** isUTF8 (lines 1694-1708) *)

(** The loop [for _, b := range data { if b == 0 { return false } }]. *)
Fixpoint hasNul (data : string) : bool :=
  match data with
  | EmptyString => false
  | String b rest => if byteval b =? 0 then true else hasNul rest
  end.

Definition isUTF8 (data : string) : bool :=
  if (String.length data =? 0) || (1024 * 1024 <? String.length data) then false
  else if hasNul data then false
  else utf8.ValidString data.

(** ** [encoding/json]: what decides whether [json.Unmarshal(value, &v)]
    returns nil for [v interface{}]

    Unmarshal first runs [checkValid], the scanner of scanner.go, over the
    whole input, then decodes.  The scanner is a state machine: [step] is the
    transition function in force, [parseState] the stack of open objects and
    arrays (its top is the list's head), [err] whether an error was recorded,
    [endTop] whether the top-level value has ended. *)

Module json.

Inductive stepFn : Type :=
| stateBeginValueOrEmpty | stateBeginValue | stateBeginStringOrEmpty
| stateBeginString | stateEndValue | stateEndTop
| stateInString | stateInStringEsc | stateInStringEscU | stateInStringEscU1
| stateInStringEscU12 | stateInStringEscU123
| stateNeg | state1 | state0 | stateDot | stateDot0 | stateE | stateESign | stateE0
| stateT | stateTr | stateTru | stateF | stateFa | stateFal | stateFals
| stateN | stateNu | stateNul
| stateError.

Inductive parseKind : Type := parseObjectKey | parseObjectValue | parseArrayValue.

Inductive opcode : Type :=
| scanContinue | scanBeginLiteral | scanBeginObject | scanObjectKey
| scanObjectValue | scanEndObject | scanBeginArray | scanArrayValue
| scanEndArray | scanSkipSpace | scanEnd | scanError.

Record scanner : Type := mkScanner {
  step : stepFn;
  parseState : list parseKind;
  err : bool;
  endTop : bool
}.

Definition maxNestingDepth : nat := 100 * 100.

Definition isByte (c : ascii) (lit : string) : bool :=
  match lit with
  | String a EmptyString => Ascii.eqb c a
  | _ => false
  end.

Definition within (lo hi : string) (c : ascii) : bool :=
  match lo, hi with
  | String a EmptyString, String b EmptyString =>
      (byteval a <=? byteval c) && (byteval c <=? byteval b)
  | _, _ => false
  end.

Definition isDigit (c : ascii) : bool := within "0" "9" c.
Definition isDigit19 (c : ascii) : bool := within "1" "9" c.
Definition isHex (c : ascii) : bool :=
  within "0" "9" c || within "a" "f" c || within "A" "F" c.

Definition isSpace (c : ascii) : bool :=
  (byteval c <=? 32)
  && ((byteval c =? 32) || (byteval c =? 9) || (byteval c =? 13) || (byteval c =? 10)).

Definition setStep (s : scanner) (f : stepFn) : scanner :=
  mkScanner f (parseState s) (err s) (endTop s).

(** [s.error(c, context)]. *)
Definition error (s : scanner) : scanner * opcode :=
  (mkScanner stateError (parseState s) true (endTop s), scanError).

(** [s.pushParseState(c, newParseState, successState)]. *)
Definition pushParseState (s : scanner) (newParseState : parseKind)
           (successState : opcode) : scanner * opcode :=
  let s' := mkScanner (step s) (newParseState :: parseState s) (err s) (endTop s) in
  if length (parseState s') <=? maxNestingDepth then (s', successState)
  else error s'.

(** [s.popParseState()]. *)
Definition popParseState (s : scanner) : scanner :=
  let rest := tl (parseState s) in
  match rest with
  | [] => mkScanner stateEndTop rest (err s) true
  | _ => mkScanner stateEndValue rest (err s) (endTop s)
  end.

Definition setTop (s : scanner) (k : parseKind) : scanner :=
  mkScanner (step s) (k :: tl (parseState s)) (err s) (endTop s).

Definition doStateEndTop (s : scanner) (c : ascii) : scanner * opcode :=
  if isSpace c then (s, scanEnd) else (fst (error s), scanEnd).

Definition doStateEndValue (s : scanner) (c : ascii) : scanner * opcode :=
  match parseState s with
  | [] => doStateEndTop (mkScanner stateEndTop [] (err s) true) c
  | ps :: _ =>
      if isSpace c then (setStep s stateEndValue, scanSkipSpace)
      else
        match ps with
        | parseObjectKey =>
            if isByte c ":" then
              (setStep (setTop s parseObjectValue) stateBeginValue, scanObjectKey)
            else error s
        | parseObjectValue =>
            if isByte c "," then
              (setStep (setTop s parseObjectKey) stateBeginString, scanObjectValue)
            else if isByte c "}" then (popParseState s, scanEndObject)
            else error s
        | parseArrayValue =>
            if isByte c "," then (setStep s stateBeginValue, scanArrayValue)
            else if isByte c "]" then (popParseState s, scanEndArray)
            else error s
        end
  end.

Definition doStateBeginValue (s : scanner) (c : ascii) : scanner * opcode :=
  if isSpace c then (s, scanSkipSpace)
  else if isByte c "{" then
    pushParseState (setStep s stateBeginStringOrEmpty) parseObjectKey scanBeginObject
  else if isByte c "[" then
    pushParseState (setStep s stateBeginValueOrEmpty) parseArrayValue scanBeginArray
  else if Ascii.eqb c dquote then (setStep s stateInString, scanBeginLiteral)
  else if isByte c "-" then (setStep s stateNeg, scanBeginLiteral)
  else if isByte c "0" then (setStep s state0, scanBeginLiteral)
  else if isByte c "t" then (setStep s stateT, scanBeginLiteral)
  else if isByte c "f" then (setStep s stateF, scanBeginLiteral)
  else if isByte c "n" then (setStep s stateN, scanBeginLiteral)
  else if isDigit19 c then (setStep s state1, scanBeginLiteral)
  else error s.

Definition doStateBeginValueOrEmpty (s : scanner) (c : ascii) : scanner * opcode :=
  if isSpace c then (s, scanSkipSpace)
  else if isByte c "]" then doStateEndValue s c
  else doStateBeginValue s c.

Definition doStateBeginString (s : scanner) (c : ascii) : scanner * opcode :=
  if isSpace c then (s, scanSkipSpace)
  else if Ascii.eqb c dquote then (setStep s stateInString, scanBeginLiteral)
  else error s.

Definition doStateBeginStringOrEmpty (s : scanner) (c : ascii) : scanner * opcode :=
  if isSpace c then (s, scanSkipSpace)
  else if isByte c "}" then doStateEndValue (setTop s parseObjectValue) c
  else doStateBeginString s c.

Definition doStateInString (s : scanner) (c : ascii) : scanner * opcode :=
  if Ascii.eqb c dquote then (setStep s stateEndValue, scanContinue)
  else if isByte c "\" then (setStep s stateInStringEsc, scanContinue)
  else if byteval c <? 32 then error s
  else (s, scanContinue).

Definition doStateInStringEsc (s : scanner) (c : ascii) : scanner * opcode :=
  if isByte c "b" || isByte c "f" || isByte c "n" || isByte c "r" || isByte c "t" || isByte c "\"
     || isByte c "/" || Ascii.eqb c dquote
  then (setStep s stateInString, scanContinue)
  else if isByte c "u" then (setStep s stateInStringEscU, scanContinue)
  else error s.

(** The four states of a [\u] escape: a hexadecimal digit moves on. *)
Definition doHexDigit (s : scanner) (c : ascii) (next : stepFn) : scanner * opcode :=
  if isHex c then (setStep s next, scanContinue) else error s.

Definition doState0 (s : scanner) (c : ascii) : scanner * opcode :=
  if isByte c "." then (setStep s stateDot, scanContinue)
  else if isByte c "e" || isByte c "E" then (setStep s stateE, scanContinue)
  else doStateEndValue s c.

Definition doState1 (s : scanner) (c : ascii) : scanner * opcode :=
  if isDigit c then (setStep s state1, scanContinue) else doState0 s c.

Definition doStateNeg (s : scanner) (c : ascii) : scanner * opcode :=
  if isByte c "0" then (setStep s state0, scanContinue)
  else if isDigit19 c then (setStep s state1, scanContinue)
  else error s.

Definition doStateDot (s : scanner) (c : ascii) : scanner * opcode :=
  if isDigit c then (setStep s stateDot0, scanContinue) else error s.

Definition doStateDot0 (s : scanner) (c : ascii) : scanner * opcode :=
  if isDigit c then (s, scanContinue)
  else if isByte c "e" || isByte c "E" then (setStep s stateE, scanContinue)
  else doStateEndValue s c.

Definition doStateESign (s : scanner) (c : ascii) : scanner * opcode :=
  if isDigit c then (setStep s stateE0, scanContinue) else error s.

Definition doStateE (s : scanner) (c : ascii) : scanner * opcode :=
  if isByte c "+" || isByte c "-" then (setStep s stateESign, scanContinue)
  else doStateESign s c.

Definition doStateE0 (s : scanner) (c : ascii) : scanner * opcode :=
  if isDigit c then (s, scanContinue) else doStateEndValue s c.

(** The states inside [true], [false] and [null]: the expected letter moves
    on, to [stateEndValue] after the last one. *)
Definition doLetter (s : scanner) (c : ascii) (want : string) (next : stepFn)
  : scanner * opcode :=
  if isByte c want then (setStep s next, scanContinue) else error s.

(** [s.step(s, c)]. *)
Definition runStep (s : scanner) (c : ascii) : scanner * opcode :=
  match step s with
  | stateBeginValueOrEmpty => doStateBeginValueOrEmpty s c
  | stateBeginValue => doStateBeginValue s c
  | stateBeginStringOrEmpty => doStateBeginStringOrEmpty s c
  | stateBeginString => doStateBeginString s c
  | stateEndValue => doStateEndValue s c
  | stateEndTop => doStateEndTop s c
  | stateInString => doStateInString s c
  | stateInStringEsc => doStateInStringEsc s c
  | stateInStringEscU => doHexDigit s c stateInStringEscU1
  | stateInStringEscU1 => doHexDigit s c stateInStringEscU12
  | stateInStringEscU12 => doHexDigit s c stateInStringEscU123
  | stateInStringEscU123 => doHexDigit s c stateInString
  | stateNeg => doStateNeg s c
  | state1 => doState1 s c
  | state0 => doState0 s c
  | stateDot => doStateDot s c
  | stateDot0 => doStateDot0 s c
  | stateE => doStateE s c
  | stateESign => doStateESign s c
  | stateE0 => doStateE0 s c
  | stateT => doLetter s c "r" stateTr
  | stateTr => doLetter s c "u" stateTru
  | stateTru => doLetter s c "e" stateEndValue
  | stateF => doLetter s c "a" stateFa
  | stateFa => doLetter s c "l" stateFal
  | stateFal => doLetter s c "s" stateFals
  | stateFals => doLetter s c "e" stateEndValue
  | stateN => doLetter s c "u" stateNu
  | stateNu => doLetter s c "l" stateNul
  | stateNul => doLetter s c "l" stateEndValue
  | stateError => (s, scanError)
  end.

(** [s.reset()]. *)
Definition reset : scanner := mkScanner stateBeginValue [] false false.

(** [s.eof()]. *)
Definition eof (s : scanner) : opcode :=
  if err s then scanError
  else if endTop s then scanEnd
  else
    let s' := fst (runStep s " "%char) in
    if endTop s' then scanEnd else scanError.

Definition isScanError (o : opcode) : bool :=
  match o with scanError => true | _ => false end.

(** The loop of [checkValid], from the scanner state [s] on: [true] when it
    returns nil. *)
Fixpoint scanFrom (s : scanner) (data : string) : bool :=
  match data with
  | EmptyString => negb (isScanError (eof s))
  | String c rest =>
      let (s', op) := runStep s c in
      if isScanError op then false else scanFrom s' rest
  end.

Definition checkValid (data : string) : bool := scanFrom reset data.

End json.

(** ** [strconv.ParseFloat(s, 64)] on a number literal the scanner accepted

    The decoder stores a JSON number in an [interface{}] as a float64, and
    records an error when ParseFloat reports one.  For a well-formed literal
    the only error is the range error, raised when the decimal value rounds
    (to nearest, ties to even) past the largest float64, that is when it
    reaches [2^1024 - 2^970]; a value too small for a float64 becomes zero
    without an error.  Only that test is modelled, in exact arithmetic. *)

Module strconv.

Definition digitValue (c : ascii) : Z := Z.of_nat (byteval c - 48).

(** The mantissa digits: value so far, number of digits read, rest. *)
Fixpoint readDigits (s : string) (mant : Z) (n : nat) : Z * nat * string :=
  match s with
  | EmptyString => (mant, n, EmptyString)
  | String c rest =>
      if json.isDigit c then readDigits rest (10 * mant + digitValue c)%Z (S n)
      else (mant, n, s)
  end.

(** The exponent digits: [if e < 10000 { e = e*10 + digit }]. *)
Fixpoint readExponent (s : string) (e : Z) : Z :=
  match s with
  | EmptyString => e
  | String c rest =>
      if json.isDigit c
      then readExponent rest (if (e <? 10000)%Z then e * 10 + digitValue c else e)%Z
      else e
  end.

Definition float64Limit : Z := (2 ^ 1024 - 2 ^ 970)%Z.

Definition rangeError (lit : string) : bool :=
  let unsigned :=
    match lit with
    | String c rest => if json.isByte c "-" then rest else lit
    | EmptyString => lit
    end in
  let '(m1, _, s1) := readDigits unsigned 0%Z 0 in
  let '(mant, nfrac, s2) :=
    match s1 with
    | String c rest => if json.isByte c "." then readDigits rest m1 0 else (m1, 0, s1)
    | EmptyString => (m1, 0, s1)
    end in
  let e :=
    match s2 with
    | String c rest =>
        if json.isByte c "e" || json.isByte c "E" then
          match rest with
          | String sign digits =>
              if json.isByte sign "+" then readExponent digits 0%Z
              else if json.isByte sign "-" then (- readExponent digits 0)%Z
              else readExponent rest 0%Z
          | EmptyString => 0%Z
          end
        else 0%Z
    | EmptyString => 0%Z
    end in
  let exp10 := (e - Z.of_nat nfrac)%Z in
  if (0 <=? exp10)%Z then (float64Limit <=? mant * 10 ^ exp10)%Z
  else (float64Limit * 10 ^ (- exp10) <=? mant)%Z.

End strconv.

(** The number literals of a document the scanner accepted, in order: the
    decoder converts each one ([convertNumber]).  Outside a string a literal
    starts at [-] or a digit and runs over digits, [.], [e], [E], [+], [-]. *)
Inductive lexMode : Type :=
| Outside | InString | InStringEsc | InNumber (lit : string).

Definition startsNumber (c : ascii) : bool :=
  json.isByte c "-" || json.isDigit c.

Definition inNumber (c : ascii) : bool :=
  json.isDigit c || json.isByte c "." || json.isByte c "e" || json.isByte c "E"
  || json.isByte c "+" || json.isByte c "-".

Fixpoint numberLiterals (data : string) (m : lexMode) : list string :=
  match data with
  | EmptyString => match m with InNumber lit => [lit] | _ => [] end
  | String c rest =>
      match m with
      | Outside =>
          if Ascii.eqb c dquote then numberLiterals rest InString
          else if startsNumber c then numberLiterals rest (InNumber (String c EmptyString))
          else numberLiterals rest Outside
      | InString =>
          if json.isByte c "\" then numberLiterals rest InStringEsc
          else if Ascii.eqb c dquote then numberLiterals rest Outside
          else numberLiterals rest InString
      | InStringEsc => numberLiterals rest InString
      | InNumber lit =>
          if inNumber c then numberLiterals rest (InNumber (lit ++ String c EmptyString))
          else lit :: numberLiterals rest Outside
      end
  end.

(** [json.Unmarshal(data, &v) == nil] for [v interface{}]: the document is
    valid and every number fits a float64.  Nothing else fails when the
    target is an empty interface. *)
Definition json_accepts (data : string) : bool :=
  json.checkValid data
  && forallb (fun lit => negb (strconv.rangeError lit)) (numberLiterals data Outside).

(** [Bucket.ForEach(fn)]: [fn] runs on every entry in key order, threading
    the state the closure mutates; the first non-nil error stops the
    iteration and is returned. *)
Definition Bucket_ForEach {S : Type} (b : Bucket)
           (fn : string -> Entry Bucket -> S -> S * option string) (s : S)
  : S * option string :=
  (fix each (es : list (string * Entry Bucket)) (s : S) : S * option string :=
     match es with
     | [] => (s, None)
     | (k, e) :: es' =>
         match fn k e s with
         | (s', Some err) => (s', Some err)
         | (s', None) => each es' s'
         end
     end) (entries b) s.

(** [Tx.ForEach(fn)], over the top-level buckets. *)
Fixpoint Tx_ForEach {S : Type} (tx : Tx)
         (fn : string -> Bucket -> S -> S * option string) (s : S)
  : S * option string :=
  match tx with
  | [] => (s, None)
  | (name, b) :: tx' =>
      match fn name b s with
      | (s', Some err) => (s', Some err)
      | (s', None) => Tx_ForEach tx' fn s'
      end
  end.

(** [strings.ToLower] on a string of ASCII bytes (the library's fast path). *)
Definition isASCII (s : string) : bool :=
  forallb (fun c => byteval c <? 128) (list_ascii_of_string s).

Definition lowerByte (c : ascii) : ascii :=
  if json.within "A" "Z" c then ascii_of_nat (byteval c + 32) else c.

Fixpoint lowerASCII (s : string) : string :=
  match s with
  | EmptyString => EmptyString
  | String c rest => String (lowerByte c) (lowerASCII rest)
  end.

(** [kv.Preview[:1000] + "\\n... (truncated)"] when [len(kv.Preview) > 1000]. *)
Definition truncated (n : nat) (marker : string) (preview : string) : string :=
  if n <? String.length preview then substring 0 n preview ++ marker else preview.

Definition truncationMarker : string := newline ++ "... (truncated)".

Definition binaryPlaceholder (value : string) : string :=
  "<" ++ fmt.d (String.length value) ++ " bytes binary data>".

Section Viewer.

(** *** The rest of [encoding/json] and of [strings], left abstract

    [Doc] is the type of the values the decoder builds in an [interface{}]
    (nil, bool, float64, string, slices and maps of them); [json_decode] is
    the value built from an accepted document; [json_MarshalIndent] is
    [json.MarshalIndent(v, "", "  ")], whose text depends on the printing of
    floating-point numbers.  [unicode_ToLower] is [strings.ToLower] on a
    string that holds a non-ASCII byte. *)
Variable Doc : Type.
Variable json_decode : string -> Doc.
Variable json_MarshalIndent : Doc -> option string.
Variable unicode_ToLower : string -> string.

Definition json_Unmarshal (data : string) : option Doc :=
  if json_accepts data then Some (json_decode data) else None.

Definition strings_ToLower (s : string) : string :=
  if isASCII s then lowerASCII s else unicode_ToLower s.

(** The [interface{}] stored in [KeyValuePair.Value]. *)
Inductive AnyValue : Type :=
| JSONValue (v : Doc)
| StringValue (s : string).

Record KeyValuePair : Type := mkKeyValuePair {
  Key : string;
  Value : AnyValue;
  ValueType : string;
  ValueSize : nat;
  IsJSON : bool;
  IsBinary : bool;
  Preview : string
}.

(** *** parseKeyValue (lines 1654-1691) *)
Definition parseKeyValue (key value : string) : KeyValuePair :=
  let isBinary := negb (isUTF8 value) in
  match json_Unmarshal value with
  | Some jsonValue =>
      let preview :=
        match json_MarshalIndent jsonValue with
        | Some formatted => truncated 1000 truncationMarker formatted
        | None => value
        end in
      mkKeyValuePair key (JSONValue jsonValue) "JSON" (String.length value)
                     true isBinary preview
  | None =>
      if isBinary then
        mkKeyValuePair key (StringValue (binaryPlaceholder value)) "Binary"
                       (String.length value) false isBinary
                       (formatBinaryPreview value)
      else
        mkKeyValuePair key (StringValue value) "String" (String.length value)
                       false isBinary (truncated 1000 truncationMarker value)
  end.

(** *** getKeyDetails (lines 1756-1808)

    The closure runs inside [db.View] on a read-only transaction, the
    argument [tx]; the result is the closure's error or the pair. *)
Definition getKeyDetails (tx : Tx) (bucketPath keyName : string)
  : string + KeyValuePair :=
  match findBucket tx bucketPath with
  | None => inl ("bucket not found: " ++ bucketPath)
  | Some bucket =>
      match Bucket_Get bucket keyName with
      | None => inl ("key not found: " ++ keyName)
      | Some value =>
          let isBinary := negb (isUTF8 value) in
          match json_Unmarshal value with
          | Some jsonVal =>
              let preview :=
                match json_MarshalIndent jsonVal with
                | Some formatted => formatted
                | None => value
                end in
              inr (mkKeyValuePair keyName (JSONValue jsonVal) "JSON"
                                  (String.length value) true isBinary preview)
          | None =>
              if isBinary then
                inr (mkKeyValuePair keyName (StringValue (binaryPlaceholder value))
                                    "Binary" (String.length value) false isBinary
                                    (formatBinaryPreview value))
              else
                inr (mkKeyValuePair keyName (StringValue value) "String"
                                    (String.length value) false isBinary value)
          end
      end
  end.

(** *** getFullKeyData (lines 1811-1884): the same, with the hex dump of a
    binary value built in place and unbounded. *)
Definition getFullKeyData (tx : Tx) (bucketPath keyName : string)
  : string + KeyValuePair :=
  match findBucket tx bucketPath with
  | None => inl ("bucket not found: " ++ bucketPath)
  | Some bucket =>
      match Bucket_Get bucket keyName with
      | None => inl ("key not found: " ++ keyName)
      | Some value =>
          let isBinary := negb (isUTF8 value) in
          match json_Unmarshal value with
          | Some jsonVal =>
              let preview :=
                match json_MarshalIndent jsonVal with
                | Some formatted => formatted
                | None => value
                end in
              inr (mkKeyValuePair keyName (JSONValue jsonVal) "JSON"
                                  (String.length value) true isBinary preview)
          | None =>
              if isBinary then
                inr (mkKeyValuePair keyName (StringValue (binaryPlaceholder value))
                                    "Binary" (String.length value) false isBinary
                                    (fullHexPreview value))
              else
                inr (mkKeyValuePair keyName (StringValue value) "String"
                                    (String.length value) false isBinary value)
          end
      end
  end.

(** *** searchKeys (lines 1887-1904) and searchInBucket (lines 1907-1949) *)
Record SearchResult : Type := mkSearchResult {
  res_bucket : string;
  res_key : string;
  res_path : string;
  res_type : string;
  res_size : nat;
  res_preview : string
}.

Fixpoint searchInBucket (bucket : Bucket) (path query : string)
         (results : list SearchResult) (found maxResults : nat) {struct bucket}
  : list SearchResult * option string :=
  if maxResults <=? length results then (results, None)
  else
    Bucket_ForEach bucket
      (fun k v results =>
         let keyName := k in
         let currentPath :=
           (if negb (String.eqb path EmptyString) then path ++ "/" else path)
             ++ keyName in
         match v with
         | Sub subBucket =>
             searchInBucket subBucket currentPath query results
                            (length results) maxResults
         | Val value =>
             if strings.Contains (strings_ToLower keyName) query then
               let kv := parseKeyValue k value in
               let preview := truncated 200 "..." (Preview kv) in
               let results :=
                 (results ++ [mkSearchResult path keyName currentPath
                                (ValueType kv) (ValueSize kv) preview])%list in
               if maxResults <=? length results then (results, None)
               else (results, None)
             else (results, None)
         end)
      results.

Definition searchKeys (tx : Tx) (query : string)
  : list SearchResult * option string :=
  let query := strings_ToLower query in
  Tx_ForEach tx
    (fun name b results => searchInBucket b name query results 0 100)
    [].

End Viewer.

Arguments JSONValue {Doc} v.
Arguments StringValue {Doc} s.
Arguments mkKeyValuePair {Doc}.
Arguments Key {Doc}.
Arguments Value {Doc}.
Arguments ValueType {Doc}.
Arguments ValueSize {Doc}.
Arguments IsJSON {Doc}.
Arguments IsBinary {Doc}.
Arguments Preview {Doc}.
Arguments json_Unmarshal {Doc}.
Arguments parseKeyValue {Doc}.
Arguments getKeyDetails {Doc}.
Arguments getFullKeyData {Doc}.
Arguments searchInBucket {Doc}.
Arguments searchKeys {Doc}.

(** ** Timestamp decoding (handleDecodeTime, lines 1312-1373)

    The value is decoded by [time.Time.UnmarshalBinary] of Go's standard
    library.  A [Time] holds the words [wall] (uint64) and [ext] (int64) and
    a location; fixed-width integers are kept in [Z] with the wrap-around
    written out. *)

Definition wrapU (bits : Z) (z : Z) : Z := (z mod 2 ^ bits)%Z.

Definition wrapS (bits : Z) (z : Z) : Z :=
  ((z + 2 ^ (bits - 1)) mod 2 ^ bits - 2 ^ (bits - 1))%Z.

Module time.

Inductive Location : Type :=
| UTC
| Local
| FixedZone (offset : Z).

Record Time : Type := mkTime {
  wall : Z;
  ext : Z;
  loc : Location
}.

Definition timeBinaryVersionV1 : nat := 1.
Definition timeBinaryVersionV2 : nat := 2.

Definition secondsPerDay : Z := 86400.
Definition unixToInternal : Z :=
  ((1969 * 365 + 1969 / 4 - 1969 / 100 + 1969 / 400) * secondsPerDay)%Z.
Definition internalToUnix : Z := (- unixToInternal)%Z.
Definition wallToInternal : Z :=
  ((1884 * 365 + 1884 / 4 - 1884 / 100 + 1884 / 400) * secondsPerDay)%Z.
Definition hasMonotonic : Z := (2 ^ 63)%Z.
Definition nsecShift : Z := 30.

(** [int64(buf[7]) | int64(buf[6])<<8 | ... | int64(buf[0])<<56], and the
    same for the narrower fields: the bytes of [buf], most significant
    first, or-ed into a [bits]-wide signed integer. *)
Fixpoint bigEndian (bits : Z) (buf : list ascii) : Z :=
  match buf with
  | [] => 0%Z
  | b :: rest =>
      Z.lor (wrapS bits (Z.shiftl (Z.of_nat (byteval b)) (8 * Z.of_nat (length rest))))
            (bigEndian bits rest)
  end.

(** [t.sec()]. *)
Definition sec (t : Time) : Z :=
  if negb (Z.land (wall t) hasMonotonic =? 0)%Z then
    wrapS 64 (wallToInternal
              + wrapS 64 (Z.shiftr (wrapU 64 (Z.shiftl (wall t) 1)) (nsecShift + 1)))
  else ext t.

(** [t.unixSec()] and [t.Unix()]. *)
Definition unixSec (t : Time) : Z := wrapS 64 (sec t + internalToUnix).
Definition Unix (t : Time) : Z := unixSec t.

(** [t.stripMono()] and [t.setLoc(loc)]. *)
Definition stripMono (t : Time) : Time :=
  if negb (Z.land (wall t) hasMonotonic =? 0)%Z
  then mkTime (Z.land (wall t) (2 ^ nsecShift - 1)) 0 (loc t)
  else t.

Definition setLoc (t : Time) (l : Location) : Time :=
  let t := stripMono t in
  mkTime (wall t) (ext t) l.

(** The length [UnmarshalBinary] wants for a version byte:
    version, seconds, nanoseconds, zone offset, and one byte more in V2. *)
Definition wantLen (version : nat) : nat :=
  if version =? timeBinaryVersionV2 then 1 + 8 + 4 + 2 + 1 else 1 + 8 + 4 + 2.

Section Zone.

(** The offset of the machine's local zone at a Unix time
    ([Local.lookup]): a fact of the environment. *)
Variable localOffset : Z -> Z.

Definition UnmarshalBinary (data : string) : string + Time :=
  match list_ascii_of_string data with
  | [] => inl "Time.UnmarshalBinary: no data"
  | version :: buf =>
      if negb ((byteval version =? timeBinaryVersionV1)
               || (byteval version =? timeBinaryVersionV2))
      then inl "Time.UnmarshalBinary: unsupported version"
      else if negb (String.length data =? wantLen (byteval version))
      then inl "Time.UnmarshalBinary: invalid length"
      else
        let sec := bigEndian 64 (firstn 8 buf) in
        let buf := skipn 8 buf in
        let nsec := bigEndian 32 (firstn 4 buf) in
        let buf := skipn 4 buf in
        let offset := (bigEndian 16 (firstn 2 buf) * 60)%Z in
        let offset :=
          if byteval version =? timeBinaryVersionV2
          then (offset + Z.of_nat (byteval (nth 2 buf zero)))%Z
          else offset in
        let t := mkTime (wrapU 64 nsec) sec UTC in
        if (offset =? -1 * 60)%Z then inr (setLoc t UTC)
        else if (offset =? localOffset (unixSec t))%Z then inr (setLoc t Local)
        else inr (setLoc t (FixedZone offset))
  end.

End Zone.

End time.

Section DecodeTime.

(** [Local.lookup] and [t.Format(layout)]: the zone database and the
    calendar arithmetic of the library, left abstract.  The handler answers
    with the message "Failed to get key" when the bucket or the key is not
    found, and with "Failed to decode timestamp" when the value does not
    decode. *)
Variable localOffset : Z -> Z.
Variable Time_Format : time.Time -> string -> string.

Definition RFC3339 : string := "2006-01-02T15:04:05Z07:00".

Record DecodedTime : Type := mkDecodedTime {
  decodedTime : string;
  timestamp : Z;
  iso : string
}.

Definition DecodeError : string := "Failed to decode timestamp".
Definition GetKeyError : string := "Failed to get key".

(** Lines 1357-1372: decode the value, then render the instant. *)
Definition decodeTime (value : string) : string + DecodedTime :=
  match time.UnmarshalBinary localOffset value with
  | inl _ => inl DecodeError
  | inr t =>
      inr (mkDecodedTime (Time_Format t "2006-01-02 15:04:05 MST")
                         (time.Unix t)
                         (Time_Format t RFC3339))
  end.

(** The handler on the decoded path and key, inside [db.View]. *)
Definition handleDecodeTime (tx : Tx) (decodedPath decodedKey : string)
  : string + DecodedTime :=
  match findBucket tx decodedPath with
  | None => inl GetKeyError
  | Some b =>
      match Bucket_Get b decodedKey with
      | None => inl GetKeyError
      | Some value => decodeTime value
      end
  end.

End DecodeTime.

(** The binary encoding of 1970-01-01T00:00:00 UTC, as MarshalBinary writes
    it: version 1, seconds since year 1, nanoseconds, offset -1 (UTC). *)
Definition epochZeroUTC : string :=
  bytes [1; 0; 0; 0; 14; 119; 145; 247; 0; 0; 0; 0; 0; 255; 255].

(** ** [path/filepath]: Base, on a system whose separator is the slash *)

Module filepath.

(** The scan for the last element: what follows the last slash. *)
Fixpoint lastElement (path acc : string) : string :=
  match path with
  | EmptyString => acc
  | String a rest =>
      if Ascii.eqb a slash then lastElement rest EmptyString
      else lastElement rest (acc ++ String a EmptyString)
  end.

(** [filepath.Base(path)]: ["."] for the empty path; else the trailing
    slashes are stripped and the last element is returned, ["/"] when
    nothing is left. *)
Definition Base (path : string) : string :=
  if String.eqb path EmptyString then "."
  else
    let path := strings.trimRightByte path slash in
    let path := lastElement path EmptyString in
    if String.eqb path EmptyString then "/" else path.

End filepath.

(** ** The bucket tree (buildBucketInfo, getAllBuckets, getBucketDetails) *)

Record BucketStats : Type := mkBucketStats {
  BranchPageN : Z;
  BranchOverflowN : Z;
  LeafPageN : Z;
  LeafOverflowN : Z;
  KeyN : Z;
  Depth : Z;
  BranchInuse : Z;
  LeafInuse : Z
}.

#[warnings="-register-all"]
Inductive BucketInfo (KV : Type) : Type := mkBucketInfo {
  Name : string;
  Path : string;
  Level : nat;
  KeyCount : Z;
  SubBuckets : list (BucketInfo KV);
  Keys : list KV;
  Stats : BucketStats;
  IsExpanded : bool
}.
Arguments mkBucketInfo {KV}.
Arguments Name {KV}.
Arguments Path {KV}.
Arguments Level {KV}.
Arguments KeyCount {KV}.
Arguments SubBuckets {KV}.
Arguments Keys {KV}.
Arguments Stats {KV}.
Arguments IsExpanded {KV}.

Section Browser.

(** [Doc], [json_decode] and [json_MarshalIndent] are the parts of
    [encoding/json] left abstract, as for the classifier.  [Bucket_Stats] is
    bbolt's [Bucket.Stats()], restricted to the eight fields the program
    copies: page accounting of the store's file, which the model of a bucket
    as a list of entries does not hold. *)
Variable Doc : Type.
Variable json_decode : string -> Doc.
Variable json_MarshalIndent : Doc -> option string.
Variable Bucket_Stats : Bucket -> BucketStats.

Local Abbreviation Info := (BucketInfo (KeyValuePair Doc)).

(** *** buildBucketInfo (lines 1504-1539); the nested bucket that
    [b.Bucket(k)] returns for an entry of [ForEach] whose value is nil is the
    entry's own bucket. *)
Fixpoint buildBucketInfo (b : Bucket) (name path : string) (level : nat)
         {struct b} : Info :=
  let stats := Bucket_Stats b in
  let subBuckets :=
    fst (Bucket_ForEach b
           (fun k v (subBuckets : list Info) =>
              match v with
              | Sub subBucket =>
                  let subPath := path ++ "/" ++ k in
                  let subBucketInfo :=
                    buildBucketInfo subBucket k subPath (level + 1) in
                  ((subBuckets ++ [subBucketInfo])%list, None)
              | Val _ => (subBuckets, None)
              end)
           []) in
  mkBucketInfo name path level (KeyN stats) subBuckets [] stats (level <? 2).

(** *** getAllBuckets (lines 1479-1501), inside [db.View] on [tx]. *)
Definition getAllBuckets (tx : Tx) : list Info * option string :=
  Tx_ForEach tx
    (fun name b (buckets : list Info) =>
       ((buckets ++ [buildBucketInfo b name name 0])%list, None))
    [].

(** *** getBucketDetails (lines 1542-1573), inside [db.View] on [tx]. *)
Definition getBucketDetails (tx : Tx) (bucketPath : string) : string + Info :=
  match findBucket tx bucketPath with
  | None => inl ("bucket not found: " ++ bucketPath)
  | Some b =>
      let bucketInfo := buildBucketInfo b (filepath.Base bucketPath) bucketPath 0 in
      let keys :=
        fst (Bucket_ForEach b
               (fun k v (keys : list (KeyValuePair Doc)) =>
                  match v with
                  | Val value =>
                      ((keys ++ [parseKeyValue json_decode json_MarshalIndent k value])%list,
                       None)
                  | Sub _ => (keys, None)
                  end)
               (Keys bucketInfo)) in
      inr (mkBucketInfo (Name bucketInfo) (Path bucketInfo) (Level bucketInfo)
                        (KeyCount bucketInfo) (SubBuckets bucketInfo) keys
                        (Stats bucketInfo) (IsExpanded bucketInfo))
  end.

End Browser.

Arguments buildBucketInfo {Doc}.
Arguments getAllBuckets {Doc}.
Arguments getBucketDetails {Doc}.

(** ** [net/url]: PathUnescape and QueryUnescape

    Both call [unescape(s, mode)]: a first loop counts the percent signs and
    checks that two hex digits follow each, failing with an [EscapeError]
    that holds the offending bytes, three at most; a second loop builds the
    result.  Only in the mode of a query component does a plus sign stand
    for a space. *)

Module url.

Inductive encoding : Type := encodePathSegment | encodeQueryComponent.

Definition isQuery (mode : encoding) : bool :=
  match mode with encodeQueryComponent => true | encodePathSegment => false end.

Definition between (lo hi : ascii) (c : ascii) : bool :=
  (byteval lo <=? byteval c) && (byteval c <=? byteval hi).

Definition ishex (c : ascii) : bool :=
  between "0" "9" c || between "a" "f" c || between "A" "F" c.

Definition unhex (c : ascii) : nat :=
  if between "0" "9" c then byteval c - byteval "0"
  else if between "a" "f" c then byteval c - byteval "a" + 10
  else if between "A" "F" c then byteval c - byteval "A" + 10
  else 0.

(** The first loop, from index [i] on: the error, or the count [n] of
    percent signs and the flag [hasPlus]. *)
Fixpoint scan (s : string) (n : nat) (hasPlus : bool) (mode : encoding)
  : string + nat * bool :=
  match s with
  | EmptyString => inr (n, hasPlus)
  | String c rest =>
      if Ascii.eqb c "%" then
        match rest with
        | String h1 (String h2 rest') =>
            if ishex h1 && ishex h2 then scan rest' (n + 1) hasPlus mode
            else inl (substring 0 3 s)
        | _ => inl (substring 0 3 s)
        end
      else if Ascii.eqb c "+" then scan rest n (isQuery mode) mode
      else scan rest n hasPlus mode
  end.

(** The second loop; it runs on strings that passed the first one, so two
    bytes follow every percent sign (Go would panic otherwise). *)
Fixpoint build (s : string) (mode : encoding) : string :=
  match s with
  | EmptyString => EmptyString
  | String c rest =>
      if Ascii.eqb c "%" then
        match rest with
        | String h1 (String h2 rest') =>
            String (ascii_of_nat (Nat.lor (Nat.shiftl (unhex h1) 4 mod 256) (unhex h2)))
                   (build rest' mode)
        | _ => EmptyString
        end
      else if Ascii.eqb c "+" then
        String (if isQuery mode then " "%char else "+"%char) (build rest mode)
      else String c (build rest mode)
  end.

(** The result is the error's bytes on the left, the decoded string on the
    right. *)
Definition unescape (s : string) (mode : encoding) : string + string :=
  match scan s 0 false mode with
  | inl e => inl e
  | inr (n, hasPlus) =>
      if (n =? 0) && negb hasPlus then inr s else inr (build s mode)
  end.

Definition PathUnescape (s : string) : string + string :=
  unescape s encodePathSegment.

Definition QueryUnescape (s : string) : string + string :=
  unescape s encodeQueryComponent.

End url.

(** ** Responses (sendSuccess, sendError, lines 1983-2012) and the handlers *)

(** The field [Bucket] of the source is [BucketField] here, the name being
    taken by the type of buckets.  The three payload fields are
    [interface{}] in the source; a handler fills them with values of one
    type. *)
Record APIResponse (D : Type) : Type := mkAPIResponse {
  Success : bool;
  Data : option D;
  Buckets : option D;
  BucketField : option D;
  Error : string;
  Message : string
}.
Arguments mkAPIResponse {D}.
Arguments Success {D}.
Arguments Data {D}.
Arguments Buckets {D}.
Arguments BucketField {D}.
Arguments Error {D}.
Arguments Message {D}.

(** What a handler writes: the status code and the encoded response. *)
Record Reply (D : Type) : Type := mkReply {
  StatusCode : nat;
  Body : APIResponse D
}.
Arguments mkReply {D}.
Arguments StatusCode {D}.
Arguments Body {D}.

Definition StatusOK : nat := 200.
Definition StatusInternalServerError : nat := 500.

Definition sendSuccess {D : Type} (data : D) : Reply D :=
  mkReply StatusOK (mkAPIResponse true (Some data) None None EmptyString EmptyString).

Definition sendError {D : Type} (message : string) (err : option string) : Reply D :=
  let errorMsg :=
    match err with
    | Some e => message ++ ": " ++ e
    | None => message
    end in
  mkReply StatusInternalServerError
          (mkAPIResponse false None None None errorMsg EmptyString).

Section Handlers.

(** The handlers run on a database that opens, whose content the
    transaction [tx] shows; the route variables are given as the router
    hands them over, still escaped.  [strconv_Quote] is the quoting of Go's
    [strconv], which the text of an [EscapeError] uses. *)
Variable Doc : Type.
Variable json_decode : string -> Doc.
Variable json_MarshalIndent : Doc -> option string.
Variable unicode_ToLower : string -> string.
Variable Bucket_Stats : Bucket -> BucketStats.
Variable localOffset : Z -> Z.
Variable Time_Format : time.Time -> string -> string.
Variable strconv_Quote : string -> string.

(** [EscapeError.Error()]. *)
Definition EscapeError_Error (e : string) : string :=
  "invalid URL escape " ++ strconv_Quote e.

(** handleGetBuckets (lines 1190-1214). *)
Definition handleGetBuckets (tx : Tx)
  : Reply (list (BucketInfo (KeyValuePair Doc))) :=
  match getAllBuckets Bucket_Stats tx with
  | (_, Some err) => sendError "Failed to get bucket list" (Some err)
  | (buckets, None) =>
      mkReply StatusOK
              (mkAPIResponse true (Some buckets) (Some buckets) None
                             EmptyString EmptyString)
  end.

(** handleGetBucket (lines 1217-1251) on the route variable [path]. *)
Definition handleGetBucket (tx : Tx) (rawPath : string)
  : Reply (BucketInfo (KeyValuePair Doc)) :=
  let decodedPath :=
    match url.PathUnescape rawPath with
    | inl _ => rawPath
    | inr decodedPath => decodedPath
    end in
  let decodedPath := strings.Trim decodedPath slash in
  match getBucketDetails json_decode json_MarshalIndent Bucket_Stats tx decodedPath with
  | inl err => sendError "Failed to get bucket details" (Some err)
  | inr bucket =>
      mkReply StatusOK
              (mkAPIResponse true (Some bucket) None (Some bucket)
                             EmptyString EmptyString)
  end.

(** handleGetKey (lines 1254-1292) on the route variables [bucketPath] and
    [key] and the query parameter [full]. *)
Definition handleGetKey (tx : Tx) (rawBucketPath rawKey fullParam : string)
  : Reply (KeyValuePair Doc) :=
  let decodedPath :=
    match url.PathUnescape rawBucketPath with
    | inl _ => rawBucketPath
    | inr decodedPath => decodedPath
    end in
  let decodedPath := strings.Trim decodedPath slash in
  let decodedKey :=
    match url.PathUnescape rawKey with
    | inl _ => rawKey
    | inr decodedKey => decodedKey
    end in
  if String.eqb fullParam "1" then
    match getFullKeyData json_decode json_MarshalIndent tx decodedPath decodedKey with
    | inl err => sendError "Failed to get full key data" (Some err)
    | inr keyValue => sendSuccess keyValue
    end
  else
    match getKeyDetails json_decode json_MarshalIndent tx decodedPath decodedKey with
    | inl err => sendError "Failed to get key details" (Some err)
    | inr keyValue => sendSuccess keyValue
    end.

(** handleSearch (lines 1295-1309) on the value of the query parameter [q];
    searchKeys runs inside [db.View] on [tx]. *)
Definition handleSearch (tx : Tx) (query : string) : Reply (list SearchResult) :=
  if String.eqb query EmptyString then
    sendError "Search query cannot be empty" None
  else
    match searchKeys json_decode json_MarshalIndent unicode_ToLower tx query with
    | (_, Some err) => sendError "Search failed" (Some err)
    | (results, None) => sendSuccess results
    end.

(** handleDecodeTime as a whole (lines 1312-1373), from the route variables
    [bucketPath] and [key] to the reply. *)
Definition handleDecodeTimeRequest (tx : Tx) (bucketPath key : string)
  : Reply DecodedTime :=
  match url.QueryUnescape bucketPath with
  | inl e => sendError "Invalid bucket path" (Some (EscapeError_Error e))
  | inr decodedPath =>
      match url.QueryUnescape key with
      | inl e => sendError "Invalid key" (Some (EscapeError_Error e))
      | inr decodedKey =>
          match findBucket tx decodedPath with
          | None =>
              sendError "Failed to get key"
                        (Some ("bucket not found: " ++ decodedPath))
          | Some b =>
              match Bucket_Get b decodedKey with
              | None =>
                  sendError "Failed to get key"
                            (Some ("key not found: " ++ decodedKey))
              | Some value =>
                  match time.UnmarshalBinary localOffset value with
                  | inl err => sendError "Failed to decode timestamp" (Some err)
                  | inr t =>
                      sendSuccess
                        (mkDecodedTime (Time_Format t "2006-01-02 15:04:05 MST")
                                       (time.Unix t)
                                       (Time_Format t RFC3339))
                  end
              end
          end
      end
  end.

End Handlers.

Arguments handleGetBuckets {Doc}.
Arguments handleGetBucket {Doc}.
Arguments handleGetKey {Doc}.
Arguments handleSearch {Doc}.

(** * The vocabulary of the statements *)

(** A piece of a path: no slash in it, and, for a segment, not empty. *)
Fixpoint noSlash (s : string) : bool :=
  match s with
  | EmptyString => true
  | String a s' => negb (Ascii.eqb a slash) && noSlash s'
  end.

Definition segment (s : string) : bool := nonEmpty s && noSlash s.

(** The path with its empty pieces removed, as the claim words it: the
    non-empty pieces between slashes, joined again by single slashes. *)
Definition removeEmptySegments (p : string) : string :=
  strings.Join (filter nonEmpty (strings.Split p slash)) "/".

(** A string of [n] slashes; the empty string for [n = 0]. *)
Fixpoint slashes (n : nat) : string :=
  match n with
  | O => EmptyString
  | S n' => String slash (slashes n')
  end.

(** The bucket reached from [b] by following child names one at a time,
    each looked up exactly. *)
Fixpoint descend (b : Bucket) (names : list string) : option Bucket :=
  match names with
  | [] => Some b
  | n :: ns =>
      match Bucket_Bucket b n with
      | Some c => descend c ns
      | None => None
      end
  end.

(** The bucket reached from the root of the store: a top-level name, then
    child names. *)
Definition reach (tx : Tx) (names : list string) : option Bucket :=
  match names with
  | [] => None
  | top :: ns =>
      match Tx_Bucket tx top with
      | Some b => descend b ns
      | None => None
      end
  end.

(** The state of the loop at index [i], with the fuel it needs. *)
Definition findFrom (parts : list string) (bucket : Bucket) (i : nat)
  : option (option Bucket) :=
  findLoop (length parts - i) parts bucket i.

(** A nested bucket is strictly smaller than the bucket that holds it, so no
    bucket is one of its own ancestors. *)
Fixpoint bsize (b : Bucket) : nat :=
  match b with
  | MkBucket es =>
      S (list_sum (map (fun ke => match snd ke with
                                  | Val _ => 0
                                  | Sub c => bsize c
                                  end) es))
  end.

(** The records of a dump, one after the other. *)
Definition records (rs : list string) : string :=
  fold_right String.append EmptyString rs.

(** The byte [b] occurs in [data]. *)
Fixpoint containsByte (b : ascii) (data : string) : Prop :=
  match data with
  | EmptyString => False
  | String c rest => c = b \/ containsByte b rest
  end.

(** The scanner has recorded an error: every later step reports it. *)
Definition failed (s : json.scanner) : Prop :=
  json.err s = true /\ json.step s = json.stateError.

(** The length of the binary encoding that the value's version byte fixes. *)
Definition binaryTimeLength (value : string) : nat :=
  match value with
  | EmptyString => time.wantLen time.timeBinaryVersionV1
  | String version _ => time.wantLen (byteval version)
  end.

(** The JSON document of three bytes: a string literal holding the byte
    0xFF, which is not UTF-8. *)
Definition jsonBadUTF8 : string :=
  String dquote (bytes [255] ++ String dquote EmptyString).

(** A store with one bucket of [n] keys that all hold the text ["v"]. *)
Definition manyKeys (n : nat) : Bucket :=
  MkBucket (map (fun i => ("key-" ++ fmt.x 4 i, Val "v")) (seq 0 n)).

Definition tx_many (n : nat) : Tx := [("bucket", manyKeys n)].

(** The nested buckets of a bucket with their names, and its values with
    their keys, both in key order. *)
Definition subBuckets (b : Bucket) : list (string * Bucket) :=
  flat_map (fun ke => match snd ke with
                      | Sub c => [(fst ke, c)]
                      | Val _ => []
                      end) (entries b).

Definition values (b : Bucket) : list (string * string) :=
  flat_map (fun ke => match snd ke with
                      | Val v => [(fst ke, v)]
                      | Sub _ => []
                      end) (entries b).

(** [nestedAt b names b']: following the nested buckets named [names], one
    inside the other, leads from [b] to [b']. *)
Inductive nestedAt : Bucket -> list string -> Bucket -> Prop :=
| nested_here (b : Bucket) : nestedAt b [] b
| nested_sub (b c b' : Bucket) (k : string) (names : list string) :
    In (k, c) (subBuckets b) -> nestedAt c names b' -> nestedAt b (k :: names) b'.

(** The path that buildBucketInfo gives to a bucket nested under [path]. *)
Definition pathUnder (path : string) (names : list string) : string :=
  fold_left (fun p k => p ++ "/" ++ k) names path.

(** All the summaries of a tree, the root first. *)
Fixpoint nodes {KV : Type} (info : BucketInfo KV) : list (BucketInfo KV) :=
  match info with
  | mkBucketInfo _ _ _ _ subs _ _ _ => info :: flat_map nodes subs
  end.

(** A store as bbolt keeps it, with names that the path syntax can spell:
    at every level the keys are distinct, and the name of every bucket is
    not empty and holds no slash. *)
Fixpoint wellNamed (b : Bucket) : Prop :=
  match b with
  | MkBucket es =>
      NoDup (map fst es)
      /\ (fix each (es : list (string * Entry Bucket)) : Prop :=
            match es with
            | [] => True
            | ke :: es' =>
                match snd ke with
                | Sub c => segment (fst ke) = true /\ wellNamed c
                | Val _ => True
                end /\ each es'
            end) es
  end.

Definition wellNamedTx (tx : Tx) : Prop :=
  NoDup (map fst tx)
  /\ Forall (fun kb => segment (fst kb) = true /\ wellNamed (snd kb)) tx.

(** The records of a dump of [m] bytes: [q] full records of 16 bytes, and
    the record of the bytes left when [m] is no multiple of 16. *)
Definition fullRecords (data : string) (q : nat) : list string :=
  map (fun k => hexRecord data (16 * k) (16 * k + 16)) (seq 0 q).

Definition lastRecord (data : string) (m : nat) : string :=
  if m mod 16 =? 0 then EmptyString else hexRecord data (16 * (m / 16)) m.

(** What a column shows: one cell for each byte of [s]. *)
Fixpoint cells (cell : ascii -> string) (s : string) : string :=
  match s with
  | EmptyString => EmptyString
  | String b rest => cell b ++ cells cell rest
  end.

Definition hexCell (b : ascii) : string := fmt.x 2 (byteval b) ++ " ".

(** Plain ASCII text: every byte is between 1 and 127. *)
Definition plainASCII (s : string) : bool :=
  forallb (fun c => (1 <=? byteval c) && (byteval c <? 128)) (list_ascii_of_string s).

(** The shape that [UnmarshalBinary] asks of a value: a version byte 1 or 2
    and the length that the version fixes. *)
Definition timeShaped (value : string) : bool :=
  match value with
  | EmptyString => false
  | String version _ =>
      ((byteval version =? 1) || (byteval version =? 2))
      && (String.length value =? time.wantLen (byteval version))
  end.



(** Percent-encoding, as a browser or Go's [url.PathEscape] writes it: a
    percent sign and two uppercase hex digits for each byte that [p]
    selects, the other bytes as they are. *)
Definition upperhexDigit (n : nat) : ascii :=
  match get n "0123456789ABCDEF" with
  | Some c => c
  | None => "0"%char
  end.

Definition escapeByte (c : ascii) : string :=
  String "%" (String (upperhexDigit (byteval c / 16))
                     (String (upperhexDigit (byteval c mod 16)) EmptyString)).

Fixpoint escapeWith (p : ascii -> bool) (s : string) : string :=
  match s with
  | EmptyString => EmptyString
  | String c rest =>
      (if p c then escapeByte c else String c EmptyString) ++ escapeWith p rest
  end.

(** A string with no percent sign, and the string with each plus sign
    turned into a space. *)
Fixpoint noPercent (s : string) : bool :=
  match s with
  | EmptyString => true
  | String c rest => negb (Ascii.eqb c "%") && noPercent rest
  end.

Fixpoint plusToSpace (s : string) : string :=
  match s with
  | EmptyString => EmptyString
  | String c rest =>
      String (if Ascii.eqb c "+" then " "%char else c) (plusToSpace rest)
  end.

(** [subsequence l m]: [l] is [m] with some elements left out, the others
    in their order. *)
Inductive subsequence {A : Type} : list A -> list A -> Prop :=
| subsequence_nil : subsequence [] []
| subsequence_take (x : A) (l m : list A) :
    subsequence l m -> subsequence (x :: l) (x :: m)
| subsequence_skip (x : A) (l m : list A) :
    subsequence l m -> subsequence l (x :: m).

(** The path of the entry [k] of the bucket at [path]. *)
Definition childPath (path k : string) : string :=
  match path with
  | EmptyString => k
  | _ => path ++ "/" ++ k
  end.

Section SearchVocabulary.

Variable Doc : Type.
Variable json_decode : string -> Doc.
Variable json_MarshalIndent : Doc -> option string.
Variable unicode_ToLower : string -> string.

(** The result that describes the key [k] with value [v] of the bucket at
    [path]. *)
Definition resultOf (path k v : string) : SearchResult :=
  let kv := parseKeyValue json_decode json_MarshalIndent k v in
  mkSearchResult path k (childPath path k) (ValueType kv) (ValueSize kv)
                 (if 200 <? String.length (Preview kv)
                  then substring 0 200 (Preview kv) ++ "..."
                  else Preview kv).

(** All the keys of the bucket at [path] and of the buckets nested in it
    whose lowered name contains [query], in the order of the traversal:
    the entries of a bucket in key order, a nested bucket explored where
    its key stands. *)
Fixpoint matchesIn (b : Bucket) (path query : string) : list SearchResult :=
  match b with
  | MkBucket es =>
      flat_map (fun ke =>
                  match snd ke with
                  | Val v =>
                      if strings.Contains (strings_ToLower unicode_ToLower (fst ke)) query
                      then [resultOf path (fst ke) v]
                      else []
                  | Sub c => matchesIn c (childPath path (fst ke)) query
                  end) es
  end.

Definition allMatches (tx : Tx) (query : string) : list SearchResult :=
  flat_map (fun kb => matchesIn (snd kb) (fst kb)
                                (strings_ToLower unicode_ToLower query)) tx.

End SearchVocabulary.

Arguments resultOf {Doc}.
Arguments matchesIn {Doc}.
Arguments allMatches {Doc}.

(** Two readings of a key give it the same classification: all but the
    preview. *)
Definition sameClassification {Doc : Type} (kv kv' : KeyValuePair Doc) : Prop :=
  Key kv = Key kv' /\ Value kv = Value kv' /\ ValueType kv = ValueType kv'
  /\ ValueSize kv = ValueSize kv' /\ IsJSON kv = IsJSON kv'
  /\ IsBinary kv = IsBinary kv'.

(** * Properties *)

(** ** Checks of the models on concrete inputs *)

Example findBucket_ABC :
  findBucket tx_ABC "A/B/C" = Some (MkBucket [("k", Val "v")]).
Proof. reflexivity. Qed.

Example findBucket_deep :
  findBucket tx_deep "/v1//docker.io/library/nginx/" = Some emptyBucket.
Proof. reflexivity. Qed.

Example findBucket_deep_missing :
  findBucket tx_deep "v1/docker.io/library/redis" = None.
Proof. reflexivity. Qed.

Example fmt_x_02 : fmt.x 2 (byteval "J"%char) = "4a". Proof. reflexivity. Qed.
Example fmt_x_04 : fmt.x 4 288 = "0120". Proof. reflexivity. Qed.
Example fmt_x_wide : fmt.x 2 4095 = "fff". Proof. reflexivity. Qed.
Example fmt_d_44 : fmt.d 44 = "44". Proof. reflexivity. Qed.

Example formatBinaryPreview_small :
  formatBinaryPreview ("Hi" ++ String zero "~")
  = hexHeader ++ "0000: 48 69 00 7e                                      |Hi.~|" ++ newline.
Proof. reflexivity. Qed.

Example utf8_ascii : utf8.ValidString "plain text" = true.
Proof. reflexivity. Qed.
Example utf8_two_bytes : utf8.ValidString (bytes [195; 169]) = true.
Proof. reflexivity. Qed.
Example utf8_surrogate : utf8.ValidString (bytes [237; 160; 128]) = false.
Proof. reflexivity. Qed.
Example utf8_overlong : utf8.ValidString (bytes [192; 128]) = false.
Proof. reflexivity. Qed.
Example utf8_truncated : utf8.ValidString (bytes [226; 130]) = false.
Proof. reflexivity. Qed.
Example utf8_0xff : utf8.ValidString (bytes [255]) = false.
Proof. reflexivity. Qed.

Example json_valid_object :
  json.checkValid ("{" ++ String dquote ("a" ++ String dquote ": [1, 2.5e3, true, null]}")) = true.
Proof. reflexivity. Qed.
Example json_valid_scalar : json.checkValid " 12 " = true.
Proof. reflexivity. Qed.
Example json_invalid_empty : json.checkValid "" = false.
Proof. reflexivity. Qed.
Example json_invalid_trailing : json.checkValid "1 x" = false.
Proof. reflexivity. Qed.
Example json_invalid_trailing_last : json.checkValid "1x" = false.
Proof. reflexivity. Qed.
Example json_invalid_open : json.checkValid "[1, 2" = false.
Proof. reflexivity. Qed.
Example json_invalid_leading_zero : json.checkValid "01" = false.
Proof. reflexivity. Qed.
Example json_invalid_text : json.checkValid "hello" = false.
Proof. reflexivity. Qed.
Example json_valid_bad_utf8_string :
  json.checkValid (String dquote (bytes [255]) ++ String dquote "") = true.
Proof. reflexivity. Qed.

Example rangeError_1e308 : strconv.rangeError "1e308" = false.
Proof. vm_compute. reflexivity. Qed.
Example rangeError_1e309 : strconv.rangeError "-1e309" = true.
Proof. vm_compute. reflexivity. Qed.
Example rangeError_max : strconv.rangeError "1.7976931348623157e+308" = false.
Proof. vm_compute. reflexivity. Qed.
Example rangeError_above_max : strconv.rangeError "179769313486231590000e288" = true.
Proof. vm_compute. reflexivity. Qed.
Example rangeError_tiny : strconv.rangeError "1.5E-999" = false.
Proof. vm_compute. reflexivity. Qed.
Example rangeError_zero : strconv.rangeError "0e999" = false.
Proof. vm_compute. reflexivity. Qed.

Example json_accepts_numbers : json_accepts "[1, -2.5e3, 0.125]" = true.
Proof. vm_compute. reflexivity. Qed.
Example json_rejects_huge : json_accepts "[1, 1e400]" = false.
Proof. vm_compute. reflexivity. Qed.
Example numberLiterals_ex :
  numberLiterals ("{" ++ String dquote ("a-1" ++ String dquote ":-1.5e+3,") ++
                  String dquote ("b" ++ String dquote ":[true,20]}")) Outside
  = ["-1.5e+3"; "20"].
Proof. reflexivity. Qed.

Example unixToInternal_value : time.unixToInternal = 62135596800%Z.
Proof. reflexivity. Qed.

Example epochZeroUTC_decodes :
  time.UnmarshalBinary (fun _ => 0%Z) epochZeroUTC
  = inr (time.mkTime 0 62135596800 time.UTC).
Proof. vm_compute. reflexivity. Qed.

Example classify_json :
  parseKeyValue (fun s => s) (fun d => Some d) "k" "[1, 2]"
  = mkKeyValuePair "k" (JSONValue "[1, 2]") "JSON" 6 true false "[1, 2]".
Proof. vm_compute. reflexivity. Qed.

Example classify_text :
  parseKeyValue (fun s => s) (fun d => Some d) "k" "v1.io/containerd"
  = mkKeyValuePair "k" (StringValue "v1.io/containerd") "String" 16 false false
                   "v1.io/containerd".
Proof. vm_compute. reflexivity. Qed.

Example classify_binary :
  parseKeyValue (fun s => s) (fun d => Some d) "k" (bytes [8; 1; 16; 255])
  = mkKeyValuePair "k" (StringValue "<4 bytes binary data>") "Binary" 4 false true
      (hexHeader
       ++ "0000: 08 01 10 ff                                      |....|"
       ++ newline).
Proof. vm_compute. reflexivity. Qed.

Example searchKeys_ex :
  map (fun r => (res_bucket r, res_key r, res_path r, res_type r))
      (fst (searchKeys (fun s => s) (fun d => Some d) (fun s => s)
              [("v1", MkBucket [("Images", Sub (MkBucket [("nginx", Val "{}");
                                                          ("redis", Val "x")]));
                                ("version", Val "3")])]
              "NGI"))
  = [("v1/Images", "nginx", "v1/Images/nginx", "JSON")].
Proof. vm_compute. reflexivity. Qed.

Example UnmarshalBinary_v2_fixed_zone :
  time.UnmarshalBinary (fun _ => 0%Z)
    (bytes [2; 0; 0; 0; 14; 119; 145; 247; 0; 0; 0; 0; 0; 0; 60; 7])
  = inr (time.mkTime 0 62135596800 (time.FixedZone 3607)).
Proof. vm_compute. reflexivity. Qed.

Example UnmarshalBinary_bad_version :
  time.UnmarshalBinary (fun _ => 0%Z)
    (bytes [3; 0; 0; 0; 14; 119; 145; 247; 0; 0; 0; 0; 0; 255; 255])
  = inl "Time.UnmarshalBinary: unsupported version".
Proof. vm_compute. reflexivity. Qed.

Example json_valid_escapes :
  json.checkValid (String dquote ("a\nb\u00e9" ++ String dquote "")) = true.
Proof. reflexivity. Qed.
Example json_invalid_escape :
  json.checkValid (String dquote ("\x" ++ String dquote "")) = false.
Proof. reflexivity. Qed.
Example json_invalid_control :
  json.checkValid (String dquote (bytes [9] ++ String dquote "")) = false.
Proof. reflexivity. Qed.

Example PathUnescape_slash : url.PathUnescape "a%2Fb" = inr "a/b".
Proof. reflexivity. Qed.
Example PathUnescape_plus : url.PathUnescape "a+b%2b" = inr "a+b+".
Proof. reflexivity. Qed.
Example QueryUnescape_plus : url.QueryUnescape "a+b%2b" = inr "a b+".
Proof. reflexivity. Qed.
Example PathUnescape_lone_percent : url.PathUnescape "100%" = inl "%".
Proof. reflexivity. Qed.
Example PathUnescape_bad_digits : url.PathUnescape "%zzz" = inl "%zz".
Proof. reflexivity. Qed.
Example PathUnescape_plain : url.PathUnescape "io.containerd" = inr "io.containerd".
Proof. reflexivity. Qed.

Example Base_last : filepath.Base "v1/images/" = "images". Proof. reflexivity. Qed.
Example Base_empty : filepath.Base "" = ".". Proof. reflexivity. Qed.
Example Base_slashes : filepath.Base "///" = "/". Proof. reflexivity. Qed.

Example removeEmptySegments_ex :
  removeEmptySegments "//v1///docker.io/library//" = "v1/docker.io/library".
Proof. reflexivity. Qed.

(** ** Strings *)

Lemma append_nil_r (s : string) : s ++ EmptyString = s.
Proof. induction s as [|a s IH]; simpl; [reflexivity | now rewrite IH]. Qed.

Lemma append_assoc (s t u : string) : (s ++ t) ++ u = s ++ t ++ u.
Proof. induction s as [|a s IH]; simpl; [reflexivity | now rewrite IH]. Qed.

Lemma length_append (s t : string) :
  String.length (s ++ t) = String.length s + String.length t.
Proof. induction s as [|a s IH]; simpl; [reflexivity | now rewrite IH]. Qed.

(** ** Splitting and joining paths *)

Lemma Split_not_nil (s : string) (c : ascii) : strings.Split s c <> [].
Proof.
  destruct s as [|a s]; simpl; [discriminate|].
  destruct (Ascii.eqb a c); [discriminate|].
  destruct (strings.Split s c); discriminate.
Qed.

Lemma Split_noSlash (s : string) :
  Forall (fun p => noSlash p = true) (strings.Split s slash).
Proof.
  induction s as [|a s IH]; simpl.
  - constructor; [reflexivity | constructor].
  - destruct (Ascii.eqb a slash) eqn:E.
    + constructor; [reflexivity | exact IH].
    + destruct (strings.Split s slash) as [|seg segs].
      * constructor; [simpl; now rewrite E | constructor].
      * inversion IH; subst. constructor; [simpl; rewrite E; assumption | assumption].
Qed.

Lemma pathParts_segments (p : string) :
  Forall (fun x => segment x = true) (pathParts p).
Proof.
  unfold pathParts. apply Forall_forall. intros x Hx.
  apply filter_In in Hx. destruct Hx as [Hin Hne].
  unfold segment. rewrite Hne. simpl.
  pose proof (Split_noSlash p) as H. rewrite Forall_forall in H. now apply H.
Qed.

(** A piece without a slash comes back whole from [Split]. *)
Lemma Split_segment_alone (x : string) :
  noSlash x = true -> strings.Split x slash = [x].
Proof.
  induction x as [|a x IH]; simpl; [reflexivity|].
  intros H. apply andb_prop in H. destruct H as [Ha Hx].
  apply negb_true_iff in Ha. rewrite Ha. now rewrite (IH Hx).
Qed.

Lemma Split_segment_slash (x rest : string) :
  noSlash x = true ->
  strings.Split (x ++ String slash rest) slash = x :: strings.Split rest slash.
Proof.
  induction x as [|a x IH]; simpl; intros H.
  - reflexivity.
  - apply andb_prop in H. destruct H as [Ha Hx].
    apply negb_true_iff in Ha. rewrite Ha. now rewrite (IH Hx).
Qed.

Lemma Split_Join (l : list string) :
  l <> [] -> Forall (fun x => noSlash x = true) l ->
  strings.Split (strings.Join l "/") slash = l.
Proof.
  induction l as [|x l IH]; intros Hne Hall; [congruence|].
  inversion Hall as [|? ? Hx Hl]; subst.
  destruct l as [|y l].
  - simpl. now apply Split_segment_alone.
  - change (strings.Join (x :: y :: l) "/")
      with (x ++ String slash (strings.Join (y :: l) "/")).
    rewrite (Split_segment_slash _ _ Hx). f_equal.
    apply IH; [discriminate | assumption].
Qed.

Lemma pathParts_Join (l : list string) :
  Forall (fun x => segment x = true) l ->
  pathParts (strings.Join l "/") = l.
Proof.
  intros Hall. destruct l as [|x l]; [reflexivity|].
  unfold pathParts. rewrite Split_Join.
  - apply forallb_filter_id. apply forallb_forall. intros y Hy.
    rewrite Forall_forall in Hall. specialize (Hall y Hy).
    unfold segment in Hall. apply andb_prop in Hall. tauto.
  - discriminate.
  - eapply Forall_impl; [|exact Hall]. intros a Ha.
    unfold segment in Ha. apply andb_prop in Ha. tauto.
Qed.

(** Trimming slashes removes empty pieces only. *)
Lemma pathParts_trimLeft (s : string) :
  pathParts (strings.trimLeftByte s slash) = pathParts s.
Proof.
  induction s as [|a s IH]; [reflexivity|].
  simpl. destruct (Ascii.eqb a slash) eqn:E; [|reflexivity].
  rewrite IH. unfold pathParts. simpl. rewrite E. reflexivity.
Qed.

Lemma Split_cons (a : ascii) (s : string) (c : ascii) :
  strings.Split (String a s) c =
  if Ascii.eqb a c then EmptyString :: strings.Split s c
  else match strings.Split s c with
       | [] => [String a EmptyString]
       | seg :: segs => String a seg :: segs
       end.
Proof. reflexivity. Qed.

Lemma Split_trimRight (s : string) :
  exists n, strings.Split s slash
            = (strings.Split (strings.trimRightByte s slash) slash
               ++ repeat EmptyString n)%list.
Proof.
  induction s as [|a s [n IH]].
  - exists 0. reflexivity.
  - cbn [strings.trimRightByte].
    destruct (strings.trimRightByte s slash) as [|b t] eqn:T.
    + destruct (Ascii.eqb a slash) eqn:E.
      * exists (S n). rewrite Split_cons, E, IH. reflexivity.
      * exists n. rewrite !Split_cons, E, IH. reflexivity.
    + exists n. rewrite (Split_cons a s), (Split_cons a (String b t)), IH.
      destruct (Ascii.eqb a slash) eqn:E; [reflexivity|].
      pose proof (Split_not_nil (String b t) slash) as Hne.
      destruct (strings.Split (String b t) slash); [congruence | reflexivity].
Qed.

Lemma filter_nonEmpty_repeat (n : nat) :
  filter nonEmpty (repeat EmptyString n) = [].
Proof. induction n; simpl; [reflexivity | assumption]. Qed.

Lemma pathParts_trimRight (s : string) :
  pathParts (strings.trimRightByte s slash) = pathParts s.
Proof.
  destruct (Split_trimRight s) as [n H]. unfold pathParts.
  rewrite H, filter_app, filter_nonEmpty_repeat, app_nil_r. reflexivity.
Qed.

Lemma pathParts_Trim (p : string) :
  pathParts (strings.Trim p slash) = pathParts p.
Proof. unfold strings.Trim. now rewrite pathParts_trimLeft, pathParts_trimRight. Qed.

(** findBucket depends on its path through the non-empty pieces only: the
    early return on an empty trimmed path agrees with the one on no parts. *)
Lemma findBucket_parts (tx : Tx) (path : string) :
  findBucket tx path = findParts tx (pathParts path).
Proof.
  unfold findBucket. rewrite pathParts_Trim.
  destruct (String.eqb_spec (strings.Trim path slash) EmptyString) as [E|E];
    [|reflexivity].
  rewrite <- (pathParts_Trim path), E. reflexivity.
Qed.

Lemma pathParts_removeEmptySegments (p : string) :
  pathParts (removeEmptySegments p) = pathParts p.
Proof. apply pathParts_Join. apply pathParts_segments. Qed.

Lemma pathParts_slashes (n : nat) : pathParts (slashes n) = [].
Proof.
  induction n as [|n IH]; [reflexivity|].
  unfold pathParts in *. simpl slashes. rewrite Split_cons.
  unfold slash at 1 2. simpl Ascii.eqb. cbn [filter nonEmpty String.eqb negb].
  exact IH.
Qed.

(** C10. Resolving a path gives the same result as resolving it with all
    empty segments removed (leading, trailing and repeated slashes are
    ignored); the empty string and any string made of slashes only resolve
    to NotFound. *)
Theorem findBucket_ignores_empty_segments (tx : Tx) (p : string) (n : nat) :
  findBucket tx p = findBucket tx (removeEmptySegments p)
  /\ findBucket tx (slashes n) = None.
Proof.
  split.
  - now rewrite !findBucket_parts, pathParts_removeEmptySegments.
  - rewrite findBucket_parts, pathParts_slashes. reflexivity.
Qed.

(** ** The loop of findBucket *)

Lemma mergeSegments_bound parts bucket i j0 cand j :
  mergeSegments parts bucket i j0 = Some (cand, j) ->
  i + 1 < j /\ j <= j0
  /\ Bucket_Bucket bucket (strings.Join (slice parts i j) "/") = Some cand.
Proof.
  induction j0 as [|j0 IH]; simpl; [discriminate|].
  destruct (i + 1 <? S j0) eqn:E; [|discriminate].
  apply Nat.ltb_lt in E.
  destruct (Bucket_Bucket bucket (strings.Join (slice parts i (S j0)) "/")) eqn:B.
  - intros H. inversion H; subst. repeat split; [lia | lia | assumption].
  - intros H. destruct (IH H) as (? & ? & ?). repeat split; [lia | lia | assumption].
Qed.

(** The loop ends within [len(parts) - i] iterations: [i] grows at each. *)
Lemma findLoop_terminates fuel parts bucket i :
  length parts - i <= fuel -> findLoop fuel parts bucket i <> None.
Proof.
  revert bucket i. induction fuel as [|fuel IH]; intros bucket i Hf.
  - simpl. destruct (i <? length parts) eqn:E; [|discriminate].
    apply Nat.ltb_lt in E. lia.
  - simpl. destruct (i <? length parts) eqn:E; [|discriminate].
    apply Nat.ltb_lt in E.
    destruct (Bucket_Bucket bucket (nth i parts EmptyString)).
    + apply IH. lia.
    + destruct (Bucket_Bucket bucket (strings.Join (skipn i parts) "/"));
        [discriminate|].
      destruct (mergeSegments parts bucket i (length parts)) as [[cand j]|] eqn:M;
        [|discriminate].
      apply mergeSegments_bound in M. apply IH. lia.
Qed.

(** ** Reaching a bucket by the real names of its ancestors *)

Lemma Join_cons (x : string) (l : list string) :
  strings.Join (x :: l) "/"
  = match l with [] => x | _ => x ++ "/" ++ strings.Join l "/" end.
Proof. destruct l; reflexivity. Qed.

Lemma Join_app (l1 l2 : list string) :
  l1 <> [] -> l2 <> [] ->
  strings.Join (l1 ++ l2) "/" = strings.Join l1 "/" ++ "/" ++ strings.Join l2 "/".
Proof.
  induction l1 as [|x l1 IH]; intros H1 H2; [congruence|].
  destruct l1 as [|y l1].
  - simpl app. rewrite Join_cons. destruct l2; [congruence | reflexivity].
  - change ((x :: y :: l1) ++ l2)%list with (x :: ((y :: l1) ++ l2))%list.
    rewrite (Join_cons x ((y :: l1) ++ l2)), (Join_cons x (y :: l1)).
    simpl app at 1. cbv iota. rewrite IH by (discriminate || assumption).
    now rewrite !append_assoc.
Qed.

Lemma skipn_nth_cons {A : Type} (l : list A) (i : nat) (d : A) :
  i < length l -> skipn i l = nth i l d :: skipn (i + 1) l.
Proof.
  revert i. induction l as [|a l IH]; intros i H; simpl in H; [lia|].
  destruct i as [|i]; simpl; [reflexivity|].
  apply IH. lia.
Qed.

Lemma skipn_slice {A : Type} (l : list A) (i j : nat) :
  i <= j -> skipn i l = (slice l i j ++ skipn j l)%list.
Proof.
  intros H. unfold slice.
  replace j with ((j - i) + i) at 2 by lia.
  rewrite <- skipn_skipn. now rewrite firstn_skipn.
Qed.

Lemma slice_not_nil {A : Type} (l : list A) (i j : nat) :
  i < j -> i < length l -> slice l i j <> [].
Proof.
  intros Hij Hi E. apply (f_equal (@length A)) in E. unfold slice in E.
  rewrite length_firstn, length_skipn in E. simpl in E. lia.
Qed.

Lemma skipn_nil_iff {A : Type} (l : list A) (i : nat) :
  skipn i l = [] <-> length l <= i.
Proof.
  split; intros H.
  - apply (f_equal (@length A)) in H. rewrite length_skipn in H. simpl in H. lia.
  - now apply skipn_all2.
Qed.

(** What the loop returns is reached from the current bucket by real child
    names whose join is the join of the segments still to resolve. *)
Lemma findLoop_sound fuel parts bucket i r :
  findLoop fuel parts bucket i = Some (Some r) ->
  exists names,
    descend bucket names = Some r
    /\ strings.Join names "/" = strings.Join (skipn i parts) "/"
    /\ (names = [] <-> skipn i parts = []).
Proof.
  revert bucket i. induction fuel as [|fuel IH]; intros bucket i H; simpl in H.
  - destruct (i <? length parts) eqn:E; [discriminate|].
    apply Nat.ltb_ge in E. inversion H; subst.
    exists []. rewrite (proj2 (skipn_nil_iff parts i) E). repeat split; auto.
  - destruct (i <? length parts) eqn:E.
    + apply Nat.ltb_lt in E.
      destruct (Bucket_Bucket bucket (nth i parts EmptyString)) as [next|] eqn:B.
      * destruct (IH _ _ H) as (names & Hd & Hj & Hn).
        exists (nth i parts EmptyString :: names). split; [|split].
        -- simpl. now rewrite B.
        -- rewrite (skipn_nth_cons parts i EmptyString E), !Join_cons, Hj.
           destruct names as [|n ns].
           ++ rewrite (proj1 Hn eq_refl). reflexivity.
           ++ destruct (skipn (i + 1) parts) eqn:S; [|reflexivity].
              destruct Hn as [_ Hn]. specialize (Hn eq_refl). discriminate.
        -- split; [discriminate|].
           intros S. apply skipn_nil_iff in S. lia.
      * destruct (Bucket_Bucket bucket (strings.Join (skipn i parts) "/"))
          as [try|] eqn:R.
        -- inversion H; subst.
           exists [strings.Join (skipn i parts) "/"]. split; [|split].
           ++ simpl. now rewrite R.
           ++ reflexivity.
           ++ split; [discriminate|]. intros S. apply skipn_nil_iff in S. lia.
        -- destruct (mergeSegments parts bucket i (length parts))
             as [[cand j]|] eqn:M; [|discriminate].
           apply mergeSegments_bound in M. destruct M as (Hij & Hj & Hc).
           replace (j - 1 + 1) with j in H by lia.
           destruct (IH _ _ H) as (names & Hd & Hjn & Hn).
           exists (strings.Join (slice parts i j) "/" :: names). split; [|split].
           ++ simpl. now rewrite Hc.
           ++ rewrite (skipn_slice parts i j) by lia.
              rewrite Join_cons. destruct names as [|n ns].
              ** rewrite (proj1 Hn eq_refl), app_nil_r. reflexivity.
              ** rewrite Join_app; [now rewrite Hjn | |].
                 --- apply slice_not_nil; lia.
                 --- intros S. destruct Hn as [_ Hn]. specialize (Hn S). discriminate.
           ++ split; [discriminate|]. intros S. apply skipn_nil_iff in S. lia.
    + apply Nat.ltb_ge in E. inversion H; subst.
      exists []. rewrite (proj2 (skipn_nil_iff parts i) E). repeat split; auto.
Qed.

Lemma Bucket_Bucket_smaller (b c : Bucket) (name : string) :
  Bucket_Bucket b name = Some c -> bsize c < bsize b.
Proof.
  destruct b as [es]. unfold Bucket_Bucket. simpl entries.
  induction es as [|[k e] es IH]; simpl; [discriminate|].
  destruct (String.eqb k name).
  - destruct e as [v|c']; [discriminate|]. intros H. inversion H; subst. lia.
  - intros H. specialize (IH H). simpl in IH. lia.
Qed.

Lemma descend_smaller (names : list string) (b c : Bucket) :
  descend b names = Some c -> names <> [] -> bsize c < bsize b.
Proof.
  revert b. induction names as [|n ns IH]; intros b H Hne; [congruence|].
  simpl in H. destruct (Bucket_Bucket b n) as [d|] eqn:B; [|discriminate].
  apply Bucket_Bucket_smaller in B.
  destruct ns as [|m ns].
  - simpl in H. inversion H; subst. assumption.
  - specialize (IH d H ltac:(discriminate)). lia.
Qed.

Lemma descend_app (l1 l2 : list string) (b : Bucket) :
  descend b (l1 ++ l2)
  = match descend b l1 with Some c => descend c l2 | None => None end.
Proof.
  revert b. induction l1 as [|n l1 IH]; intros b; simpl; [reflexivity|].
  destruct (Bucket_Bucket b n); [apply IH | reflexivity].
Qed.

Lemma reach_ancestor_differs (tx : Tx) (pre suf : list string) (a b : Bucket) :
  reach tx (pre ++ suf) = Some b -> suf <> [] -> reach tx pre = Some a -> a <> b.
Proof.
  destruct pre as [|top pre]; simpl; [discriminate|].
  destruct (Tx_Bucket tx top) as [t|]; [|discriminate].
  rewrite descend_app. intros H Hne Ha. rewrite Ha in H.
  apply descend_smaller in H; [|assumption].
  intros ->. lia.
Qed.

Lemma findParts_sound (tx : Tx) (parts : list string) (b : Bucket) :
  findParts tx parts = Some b ->
  exists names,
    reach tx names = Some b
    /\ strings.Join names "/" = strings.Join parts "/".
Proof.
  destruct parts as [|top rest]; unfold findParts; [discriminate|].
  destruct (Tx_Bucket tx top) as [t|] eqn:T; [|discriminate].
  destruct (findLoop (length (top :: rest)) (top :: rest) t 1) as [[r|]|] eqn:L;
    try discriminate.
  intros H. inversion H; subst.
  apply findLoop_sound in L. destruct L as (names & Hd & Hj & Hn).
  simpl skipn in Hj, Hn.
  exists (top :: names). split.
  - simpl. rewrite T. exact Hd.
  - rewrite !Join_cons, Hj. destruct names as [|n ns].
    + now rewrite (proj1 Hn eq_refl).
    + destruct rest; [|reflexivity].
      destruct Hn as [_ Hn]. specialize (Hn eq_refl). discriminate.
Qed.

(** C4. Resolution returns NotFound or the bucket of the full path: a
    returned bucket is reached from the root through real bucket names that
    spell the whole (normalised) path, and it is not an ancestor reached
    through fewer of those names.  The path ["A/nonexistent"] yields
    NotFound when the bucket A has no child of that name. *)
Theorem findBucket_full_path_or_NotFound (tx : Tx) (path : string) :
  (forall b, findBucket tx path = Some b ->
     exists names,
       reach tx names = Some b
       /\ strings.Join names "/" = removeEmptySegments path
       /\ forall pre suf a,
            names = (pre ++ suf)%list -> suf <> [] -> reach tx pre = Some a -> a <> b)
  /\ ((forall a, Tx_Bucket tx "A" = Some a -> Bucket_Bucket a "nonexistent" = None) ->
      findBucket tx "A/nonexistent" = None).
Proof.
  split.
  - intros b H. rewrite findBucket_parts in H.
    apply findParts_sound in H. destruct H as (names & Hr & Hj).
    exists names. split; [assumption|]. split; [exact Hj|].
    intros pre suf a -> Hne Ha. eapply reach_ancestor_differs; eauto.
  - intros H. rewrite findBucket_parts.
    change (pathParts "A/nonexistent") with ["A"; "nonexistent"].
    unfold findParts. destruct (Tx_Bucket tx "A") as [a|] eqn:T; [|reflexivity].
    specialize (H a eq_refl). simpl. rewrite H. reflexivity.
Qed.

Lemma findBucket_full_path_or_NotFound_witness :
  (exists names,
     reach tx_ABC names = Some (MkBucket [("k", Val "v")])
     /\ strings.Join names "/" = "A/B/C")
  /\ findBucket tx_ABC "A/nonexistent" = None.
Proof.
  destruct (findBucket_full_path_or_NotFound tx_ABC "A/B/C") as [H1 H2].
  split.
  - destruct (H1 (MkBucket [("k", Val "v")]) eq_refl) as (names & Hr & Hj & _).
    exists names. split; [exact Hr | exact Hj].
  - apply H2. intros a Ha. inversion Ha; subst. reflexivity.
Defined.

(** C1 (as amended). The top level is matched on the first naive segment
    only: when no top-level bucket is named ["x"], resolving ["x/y"] is
    NotFound, whatever else the store holds.  Below the top level the
    remaining path is tried as one name: when the top-level bucket A has no
    child ["x"] but a child literally named ["x/y"], resolving ["A/x/y"]
    returns that child. *)
Theorem findBucket_contraction_below_top_level (tx : Tx) :
  (Tx_Bucket tx "x" = None -> findBucket tx "x/y" = None)
  /\ (forall a c,
        Tx_Bucket tx "A" = Some a ->
        Bucket_Bucket a "x" = None ->
        Bucket_Bucket a "x/y" = Some c ->
        findBucket tx "A/x/y" = Some c).
Proof.
  split.
  - intros H. rewrite findBucket_parts.
    change (pathParts "x/y") with ["x"; "y"]. unfold findParts. now rewrite H.
  - intros a c Ha Hx Hxy. rewrite findBucket_parts.
    change (pathParts "A/x/y") with ["A"; "x"; "y"]. unfold findParts.
    rewrite Ha. simpl. rewrite Hx, Hxy. reflexivity.
Qed.

Lemma findBucket_contraction_below_top_level_witness :
  findBucket tx_xy "x/y" = None
  /\ findBucket tx_A_xy "A/x/y" = Some (MkBucket [("k", Val "v")]).
Proof.
  destruct (findBucket_contraction_below_top_level tx_xy) as [H1 _].
  destruct (findBucket_contraction_below_top_level tx_A_xy) as [_ H2].
  split.
  - apply H1. reflexivity.
  - apply (H2 (MkBucket [("x/y", Sub (MkBucket [("k", Val "v")]))])); reflexivity.
Defined.

(** C1, as stated, fails: the store's only top-level bucket is named
    ["x/y"], and resolving ["x/y"] is NotFound. *)
Lemma findBucket_top_level_slash_name_not_found :
  tx_xy = [("x/y", emptyBucket)]
  /\ Tx_Bucket tx_xy "x/y" = Some emptyBucket
  /\ findBucket tx_xy "x/y" = None.
Proof. repeat split. Qed.

(** With [len(parts)] units of fuel the loop of findBucket always runs to its
    end: a [None] of findParts is the function's nil, never a lack of fuel. *)
Lemma findParts_loop_completes (parts : list string) (bucket : Bucket) :
  findLoop (length parts) parts bucket 1 <> None.
Proof. apply findLoop_terminates. lia. Qed.

Lemma mergeSegments_longest parts bucket i j0 cand j :
  mergeSegments parts bucket i j0 = Some (cand, j) ->
  forall j', j < j' -> j' <= j0 ->
    Bucket_Bucket bucket (strings.Join (slice parts i j') "/") = None.
Proof.
  induction j0 as [|j0 IH]; simpl; [discriminate|].
  destruct (i + 1 <? S j0) eqn:E; [|discriminate].
  destruct (Bucket_Bucket bucket (strings.Join (slice parts i (S j0)) "/")) eqn:B.
  - intros H j' H1 H2. inversion H; subst. lia.
  - intros H j' H1 H2.
    destruct (Nat.eq_dec j' (S j0)) as [->|Hne]; [exact B|].
    apply (IH H); lia.
Qed.

(** X1. The merge of segments takes the longest contraction that matches:
    the candidate returned joins the segments from [i] up to [j], more than
    one of them, it names a child of the current bucket, and no longer
    contraction from [i] names one. *)
Theorem mergeSegments_takes_longest parts bucket i cand j :
  mergeSegments parts bucket i (length parts) = Some (cand, j) ->
  i + 1 < j /\ j <= length parts
  /\ Bucket_Bucket bucket (strings.Join (slice parts i j) "/") = Some cand
  /\ forall j', j < j' -> j' <= length parts ->
       Bucket_Bucket bucket (strings.Join (slice parts i j') "/") = None.
Proof.
  intros H. destruct (mergeSegments_bound _ _ _ _ _ _ H) as (H1 & H2 & H3).
  repeat split; try assumption. now apply (mergeSegments_longest _ _ _ _ _ _ H).
Qed.

Lemma mergeSegments_takes_longest_witness :
  Bucket_Bucket (MkBucket [("a/b", Sub emptyBucket); ("a/b/c", Sub (MkBucket [("k", Val "v")]))])
                (strings.Join (slice ["top"; "a"; "b"; "c"; "d"] 1 4) "/")
  = Some (MkBucket [("k", Val "v")]).
Proof.
  exact (proj1 (proj2 (proj2
    (mergeSegments_takes_longest ["top"; "a"; "b"; "c"; "d"]
       (MkBucket [("a/b", Sub emptyBucket); ("a/b/c", Sub (MkBucket [("k", Val "v")]))])
       1 (MkBucket [("k", Val "v")]) 4 eq_refl)))).
Defined.

(** X2. Resolution always ends: whatever the store and the segments, the
    loop of findBucket reaches its end within [len(parts)] iterations. *)
Theorem findBucket_loop_ends (parts : list string) (bucket : Bucket) (i : nat) :
  exists r, findLoop (length parts) parts bucket i = Some r.
Proof.
  destruct (findLoop (length parts) parts bucket i) as [r|] eqn:E.
  - now exists r.
  - exfalso. revert E. apply findLoop_terminates. lia.
Qed.

(** ** The hex dump *)

Lemma hexLoop_step data maxBytes i preview :
  i < maxBytes ->
  hexLoop data maxBytes i preview
  = hexLoop data maxBytes (i + 16)
            (preview ++ hexRecord data i (Nat.min (i + 16) maxBytes)).
Proof.
  intros H. rewrite hexLoop_equation_1.
  destruct (lt_dec i maxBytes); [reflexivity | contradiction].
Qed.

Lemma hexLoop_done data maxBytes i preview :
  maxBytes <= i -> hexLoop data maxBytes i preview = preview.
Proof.
  intros H. rewrite hexLoop_equation_1.
  destruct (lt_dec i maxBytes); [lia | reflexivity].
Qed.

(** [n] full iterations from offset [i] add the [n] records of 16 bytes at
    offsets [i], [i+16], ... *)
Lemma hexLoop_full_records data maxBytes n :
  forall i preview,
    i + 16 * n <= maxBytes ->
    hexLoop data maxBytes i preview
    = hexLoop data maxBytes (i + 16 * n)
        (preview ++ records (map (fun k => hexRecord data (i + 16 * k) (i + 16 * k + 16))
                                 (seq 0 n))).
Proof.
  induction n as [|n IH]; intros i preview H.
  - simpl. now rewrite Nat.add_0_r, append_nil_r.
  - rewrite hexLoop_step by lia.
    rewrite Nat.min_l by lia.
    rewrite IH by lia.
    replace (i + 16 + 16 * n) with (i + 16 * S n) by lia.
    f_equal. rewrite append_assoc. f_equal.
    cbn [seq map records fold_right].
    rewrite Nat.mul_0_r, Nat.add_0_r. f_equal.
    rewrite <- seq_shift, map_map.
    unfold records. f_equal. apply map_ext. intros k.
    replace (i + 16 + 16 * k) with (i + 16 * S k) by lia. reflexivity.
Qed.

Lemma fmt_x2_length (b : ascii) : String.length (fmt.x 2 (byteval b)) = 2.
Proof. destruct b as [[] [] [] [] [] [] [] []]; reflexivity. Qed.

Lemma asciiCell_length (b : ascii) : String.length (asciiCell b) = 1.
Proof. unfold asciiCell. destruct (printable b); reflexivity. Qed.

Lemma get_in_range (data : string) (j : nat) :
  j < String.length data -> exists b, get j data = Some b.
Proof.
  revert j. induction data as [|a data IH]; intros j H; simpl in H; [lia|].
  destruct j as [|j]; simpl; [now exists a|].
  apply IH. lia.
Qed.

(** Within the data a record shows [count] bytes: three characters each in
    the hex column, one each in the ASCII column. *)
Lemma hexBytes_lengths data count :
  forall j hex ascii,
    j + count <= String.length data ->
    String.length (fst (hexBytes data j count hex ascii))
    = String.length hex + 3 * count
    /\ String.length (snd (hexBytes data j count hex ascii))
       = String.length ascii + count.
Proof.
  induction count as [|count IH]; intros j hex ascii H; simpl.
  - lia.
  - destruct (get_in_range data j ltac:(lia)) as [b Hb]. rewrite Hb.
    destruct (IH (j + 1) (hex ++ fmt.x 2 (byteval b) ++ " ") (ascii ++ asciiCell b)
                 ltac:(lia)) as [Hh Ha].
    rewrite Hh, Ha, !length_append, fmt_x2_length, asciiCell_length. simpl. lia.
Qed.

Lemma columns_lengths data i e :
  i <= e -> e <= String.length data ->
  String.length (hexColumn data i e) = 3 * (e - i)
  /\ String.length (asciiColumn data i e) = e - i.
Proof.
  intros Hie He. unfold hexColumn, asciiColumn.
  destruct (hexBytes_lengths data (e - i) i EmptyString EmptyString ltac:(lia))
    as [Hh Ha].
  now rewrite Hh, Ha.
Qed.

(** C7. On a 300-byte input the bounded dump is the header, exactly 16
    records of 16 bytes each (offsets 0, 16, ..., 240) and the marker line
    reporting 44 more bytes; the unbounded dump of the same input is the
    header and 19 records, 18 of 16 bytes and a last one of 12 bytes
    (offset 288), with no marker line. *)
Theorem hex_dump_of_300_bytes (data : string) :
  String.length data = 300 ->
  formatBinaryPreview data
  = hexHeader
      ++ records (map (fun k => hexRecord data (16 * k) (16 * k + 16)) (seq 0 16))
      ++ "... 44 more bytes"
  /\ fullHexPreview data
     = hexHeader
         ++ records (map (fun k => hexRecord data (16 * k) (16 * k + 16)) (seq 0 18))
         ++ hexRecord data 288 300
  /\ (forall k, k < 18 ->
        String.length (asciiColumn data (16 * k) (16 * k + 16)) = 16
        /\ String.length (hexColumn data (16 * k) (16 * k + 16)) = 48)
  /\ String.length (asciiColumn data 288 300) = 12
  /\ length (map (fun k => hexRecord data (16 * k) (16 * k + 16)) (seq 0 16)) = 16
  /\ length (map (fun k => hexRecord data (16 * k) (16 * k + 16)) (seq 0 18)
             ++ [hexRecord data 288 300])%list = 19.
Proof.
  intros Hlen. split; [|split; [|split; [|split; [|split]]]].
  - unfold formatBinaryPreview. rewrite Hlen.
    change (300 =? 0) with false. change (300 <? 256) with false. cbv iota.
    change (256 <? 300) with true. cbv iota.
    rewrite (hexLoop_full_records data 256 16 0 hexHeader) by (simpl; lia).
    rewrite hexLoop_done by (simpl; lia).
    change (fmt.d (300 - 256)) with "44".
    rewrite append_assoc. reflexivity.
  - unfold fullHexPreview. rewrite Hlen.
    rewrite (hexLoop_full_records data 300 18 0 hexHeader) by (simpl; lia).
    change (0 + 16 * 18) with 288.
    rewrite hexLoop_step by lia.
    change (Nat.min (288 + 16) 300) with 300.
    rewrite hexLoop_done by lia.
    rewrite append_assoc. reflexivity.
  - intros k Hk.
    destruct (columns_lengths data (16 * k) (16 * k + 16)) as [Hh Ha]; [lia | lia |].
    rewrite Hh, Ha. split; lia.
  - destruct (columns_lengths data 288 300) as [_ Ha]; [lia | lia |].
    rewrite Ha. reflexivity.
  - rewrite length_map, length_seq. reflexivity.
  - rewrite length_app, length_map, length_seq. reflexivity.
Qed.

Lemma hex_dump_of_300_bytes_witness :
  String.length (bytes (seq 0 300)) = 300
  /\ formatBinaryPreview (bytes (seq 0 300))
     = hexHeader
         ++ records (map (fun k => hexRecord (bytes (seq 0 300)) (16 * k) (16 * k + 16))
                         (seq 0 16))
         ++ "... 44 more bytes".
Proof.
  split; [reflexivity|].
  apply (hex_dump_of_300_bytes (bytes (seq 0 300))). reflexivity.
Defined.

(** ** The scanner rejects a NUL byte *)

Lemma scanFrom_failed (s : json.scanner) (data : string) :
  failed s -> json.scanFrom s data = false.
Proof.
  intros [He Hs]. destruct data as [|c rest]; simpl.
  - unfold json.eof. rewrite He. reflexivity.
  - unfold json.runStep. rewrite Hs. reflexivity.
Qed.

Lemma runStep_nul (s : json.scanner) :
  snd (json.runStep s zero) = json.scanError \/ failed (fst (json.runStep s zero)).
Proof.
  destruct s as [st ps e et].
  destruct st; try (left; reflexivity);
    try (right; split; reflexivity);
    destruct ps as [|[] ps];
    try (left; reflexivity); right; split; reflexivity.
Qed.

Lemma scanFrom_nul (data : string) :
  containsByte zero data -> forall s, json.scanFrom s data = false.
Proof.
  induction data as [|c rest IH]; simpl; intros H s; [contradiction|].
  destruct (json.runStep s c) as [s' op] eqn:R.
  destruct (json.isScanError op) eqn:E; [reflexivity|].
  destruct H as [->|H].
  - destruct (runStep_nul s) as [Hop|Hf]; rewrite R in *; simpl in *.
    + subst op. discriminate.
    + now apply scanFrom_failed.
  - now apply IH.
Qed.

Lemma hasNul_containsByte (data : string) :
  containsByte zero data -> hasNul data = true.
Proof.
  induction data as [|c rest IH]; simpl; [contradiction|].
  intros [->|H]; [reflexivity|].
  destruct (byteval c =? 0); [reflexivity | now apply IH].
Qed.

Lemma isUTF8_nul (data : string) : containsByte zero data -> isUTF8 data = false.
Proof.
  intros H. unfold isUTF8. rewrite (hasNul_containsByte _ H).
  destruct (_ || _); reflexivity.
Qed.

Lemma json_accepts_nul (data : string) :
  containsByte zero data -> json_accepts data = false.
Proof.
  intros H. unfold json_accepts, json.checkValid.
  now rewrite (scanFrom_nul data H).
Qed.

(** ** Classification *)

Lemma length_substring_prefix (n : nat) (s : string) :
  n <= String.length s -> String.length (substring 0 n s) = n.
Proof.
  revert s. induction n as [|n IH]; intros s H.
  - destruct s; reflexivity.
  - destruct s as [|a s]; simpl in H; [lia|]. simpl. rewrite IH; [reflexivity | lia].
Qed.

Section ViewerProperties.

Variable Doc : Type.
Variable json_decode : string -> Doc.
Variable json_MarshalIndent : Doc -> option string.
Variable unicode_ToLower : string -> string.

Local Abbreviation parse := (parseKeyValue json_decode json_MarshalIndent).
Local Abbreviation getDetails := (getKeyDetails json_decode json_MarshalIndent).
Local Abbreviation getFull := (getFullKeyData json_decode json_MarshalIndent).

(** The three kinds, and the flags that follow the branch taken. *)
Lemma parseKeyValue_kinds (key value : string) :
  (ValueType (parse key value) = "JSON" /\ json_accepts value = true)
  \/ (ValueType (parse key value) = "Binary"
      /\ json_accepts value = false /\ isUTF8 value = false)
  \/ (ValueType (parse key value) = "String"
      /\ json_accepts value = false /\ isUTF8 value = true).
Proof.
  unfold parseKeyValue, json_Unmarshal.
  destruct (json_accepts value); [left; split; reflexivity|].
  destruct (isUTF8 value); simpl; [right; right | right; left]; repeat split.
Qed.

Lemma parseKeyValue_IsBinary (key value : string) :
  IsBinary (parse key value) = negb (isUTF8 value).
Proof.
  unfold parseKeyValue, json_Unmarshal.
  destruct (json_accepts value); [reflexivity|].
  destruct (isUTF8 value); reflexivity.
Qed.

(** C2 (as amended). The binary flag is the negation of the isUTF8 check on
    the raw bytes, whatever the kind.  A Binary value carries the flag, a
    Text value does not, so among values that are not JSON the flag is true
    iff the kind is Binary; a JSON value carries the flag exactly when its
    bytes fail the check. *)
Theorem binary_flag_is_failed_text_check (key value : string) :
  IsBinary (parse key value) = negb (isUTF8 value)
  /\ (ValueType (parse key value) = "Binary" -> IsBinary (parse key value) = true)
  /\ (ValueType (parse key value) = "String" -> IsBinary (parse key value) = false)
  /\ (ValueType (parse key value) <> "JSON" ->
      (IsBinary (parse key value) = true <-> ValueType (parse key value) = "Binary"))
  /\ (ValueType (parse key value) = "JSON" ->
      (IsBinary (parse key value) = true <-> isUTF8 value = false)).
Proof.
  rewrite parseKeyValue_IsBinary.
  destruct (parseKeyValue_kinds key value) as [[T A]|[(T & A & U)|(T & A & U)]];
    rewrite T; repeat split; intros; try congruence; try discriminate;
    try (rewrite U; reflexivity);
    try (destruct (isUTF8 value); simpl in *; congruence).
Qed.

Lemma jsonBadUTF8_classified (key : string) :
  ValueType (parse key jsonBadUTF8) = "JSON"
  /\ IsJSON (parse key jsonBadUTF8) = true
  /\ IsBinary (parse key jsonBadUTF8) = true.
Proof. repeat split. Qed.

(** C3. For a value that parses as a JSON document, the bounded preview
    (parseKeyValue) is the indented re-serialization, cut to its first 1000
    characters and followed by the truncation marker exactly when it is
    longer than 1000; the full previews (getKeyDetails, getFullKeyData) are
    the re-serialization itself.  Characters are the bytes of the Go string,
    as [len] and slicing count them. *)
Theorem json_preview_bounded_and_full
        (key value : string) (doc : Doc) (formatted : string) :
  json_Unmarshal json_decode value = Some doc ->
  json_MarshalIndent doc = Some formatted ->
  ValueType (parse key value) = "JSON"
  /\ Preview (parse key value)
     = (if 1000 <? String.length formatted
        then substring 0 1000 formatted ++ newline ++ "... (truncated)"
        else formatted)
  /\ String.length (Preview (parse key value)) <= 1000 + 16
  /\ (forall tx bucketPath bucket,
        findBucket tx bucketPath = Some bucket ->
        Bucket_Get bucket key = Some value ->
        exists kv kv',
          getDetails tx bucketPath key = inr kv
          /\ getFull tx bucketPath key = inr kv'
          /\ ValueType kv = "JSON" /\ ValueType kv' = "JSON"
          /\ Preview kv = formatted /\ Preview kv' = formatted).
Proof.
  intros HU HM.
  assert (HP : Preview (parse key value)
               = truncated 1000 truncationMarker formatted).
  { unfold parseKeyValue. rewrite HU. simpl. now rewrite HM. }
  split; [unfold parseKeyValue; now rewrite HU|].
  split; [exact HP|]. split.
  - rewrite HP. unfold truncated.
    destruct (1000 <? String.length formatted) eqn:E.
    + apply Nat.ltb_lt in E.
      rewrite length_append, length_substring_prefix by lia.
      apply Nat.add_le_mono_l. apply Nat.eq_le_incl. reflexivity.
    + apply Nat.ltb_ge in E. lia.
  - intros tx bucketPath bucket HF HG.
    unfold getKeyDetails, getFullKeyData. rewrite HF, HG, HU, HM.
    eexists. eexists.
    split; [reflexivity|]. split; [reflexivity|].
    repeat split.
Qed.

(** C5. A value that contains a NUL byte is classified Binary, never Text
    and never JSON: it is no JSON document for the scanner and it fails the
    isUTF8 check.  The same holds when the value is read by getKeyDetails or
    getFullKeyData. *)
Theorem nul_byte_is_binary (key value : string) :
  containsByte zero value ->
  ValueType (parse key value) = "Binary"
  /\ IsBinary (parse key value) = true
  /\ IsJSON (parse key value) = false
  /\ (forall tx bucketPath bucket,
        findBucket tx bucketPath = Some bucket ->
        Bucket_Get bucket key = Some value ->
        exists kv kv',
          getDetails tx bucketPath key = inr kv
          /\ getFull tx bucketPath key = inr kv'
          /\ ValueType kv = "Binary" /\ ValueType kv' = "Binary").
Proof.
  intros H. unfold parseKeyValue, getKeyDetails, getFullKeyData, json_Unmarshal.
  rewrite (json_accepts_nul _ H), (isUTF8_nul _ H).
  split; [reflexivity|]. split; [reflexivity|]. split; [reflexivity|].
  intros tx bucketPath bucket HF HG.
  rewrite HF, HG, (json_accepts_nul _ H), (isUTF8_nul _ H).
  eexists. eexists.
  split; [reflexivity|]. split; [reflexivity|]. split; reflexivity.
Qed.

(** C6. The empty value is classified Binary, by the zero-length rule of
    isUTF8; its decoded value is the placeholder stating 0 bytes and its
    preview is the marker ["(empty data)"]. *)
Theorem empty_value_is_binary (key : string) :
  isUTF8 EmptyString = false
  /\ json_accepts EmptyString = false
  /\ parse key EmptyString
     = mkKeyValuePair key (StringValue "<0 bytes binary data>") "Binary" 0
                      false true "(empty data)"
  /\ formatBinaryPreview EmptyString = "(empty data)".
Proof. repeat split. Qed.

Lemma Bucket_ForEach_cons {S : Type} k e es
      (fn : string -> Entry Bucket -> S -> S * option string) (s : S) :
  Bucket_ForEach (MkBucket ((k, e) :: es)) fn s
  = match fn k e s with
    | (s', Some err) => (s', Some err)
    | (s', None) => Bucket_ForEach (MkBucket es) fn s'
    end.
Proof. reflexivity. Qed.

(** The entries of a bucket that are values whose key matches the query. *)
Definition matchingValue (query : string) (ke : string * Entry Bucket) : Prop :=
  exists v, snd ke = Val v
            /\ strings.Contains (strings_ToLower unicode_ToLower (fst ke)) query = true.

(** Once searchInBucket has passed the test at its entry, every matching key
    of the bucket is appended: the test inside the callback returns nil,
    which does not stop ForEach. *)
Lemma searchInBucket_appends_every_match es path query maxResults :
  Forall (matchingValue query) es ->
  forall results found,
    length results < maxResults ->
    length (fst (searchInBucket json_decode json_MarshalIndent unicode_ToLower
                                (MkBucket es) path query results found maxResults))
    = length results + length es
    /\ snd (searchInBucket json_decode json_MarshalIndent unicode_ToLower
                           (MkBucket es) path query results found maxResults)
       = None.
Proof.
  intros Hall results found Hlt.
  cbn [searchInBucket].
  apply Nat.leb_gt in Hlt. rewrite Hlt. clear Hlt.
  revert results. induction Hall as [|[k e] es [v [He Hm]] Hall IH]; intros results.
  - split; [simpl; lia | reflexivity].
  - simpl in He, Hm. subst e. rewrite Bucket_ForEach_cons. rewrite Hm.
    match goal with
    | |- context [if ?c then _ else _] => destruct c
    end;
      destruct (IH (results ++ [mkSearchResult path k
                    ((if negb (String.eqb path EmptyString) then path ++ "/" else path) ++ k)
                    (ValueType (parse k v)) (ValueSize (parse k v))
                    (truncated 200 "..." (Preview (parse k v)))])%list) as [IH1 IH2];
      rewrite IH1, IH2, length_app; simpl; split; (lia || reflexivity).
Qed.

(** C8 at the failing input: one bucket of 101 keys that all match the
    query; the search returns 101 results, one more than its cap. *)
Theorem searchKeys_exceeds_cap :
  length (fst (searchKeys json_decode json_MarshalIndent unicode_ToLower
                          (tx_many 101) "KEY")) = 101
  /\ snd (searchKeys json_decode json_MarshalIndent unicode_ToLower
                     (tx_many 101) "KEY") = None.
Proof. vm_compute. split; reflexivity. Qed.

End ViewerProperties.

(** C2, as stated, fails at the value [jsonBadUTF8]: the scanner accepts it,
    so its kind is JSON, and it is not UTF-8, so its binary flag is true,
    whatever the decoder and the encoder produce. *)
Lemma binary_flag_true_on_JSON_value :
  json_accepts jsonBadUTF8 = true
  /\ isUTF8 jsonBadUTF8 = false
  /\ (forall (Doc : Type) (dec : string -> Doc) (enc : Doc -> option string)
             (key : string),
        ValueType (parseKeyValue dec enc key jsonBadUTF8) = "JSON"
        /\ IsBinary (parseKeyValue dec enc key jsonBadUTF8) = true)
  /\ ~ (forall (Doc : Type) (dec : string -> Doc) (enc : Doc -> option string)
               (key value : string),
          IsBinary (parseKeyValue dec enc key value) = true
          <-> ValueType (parseKeyValue dec enc key value) = "Binary").
Proof.
  split; [reflexivity|]. split; [reflexivity|]. split.
  - intros Doc dec enc key. split; reflexivity.
  - intros H.
    specialize (H string (fun s => s) (fun d => Some d) "k" jsonBadUTF8).
    destruct H as [H _]. specialize (H eq_refl). discriminate.
Qed.

Lemma binary_flag_is_failed_text_check_witness :
  ValueType (parseKeyValue (fun s => s) (fun d => Some d) "k" "hello") = "String"
  /\ IsBinary (parseKeyValue (fun s => s) (fun d => Some d) "k" "hello") = false.
Proof.
  destruct (binary_flag_is_failed_text_check string (fun s => s) (fun d => Some d)
                                             "k" "hello") as (_ & _ & H & _).
  split; [reflexivity | apply H; reflexivity].
Defined.

Lemma json_preview_bounded_and_full_witness :
  json_Unmarshal (fun s => s) "null" = Some "null"
  /\ Preview (parseKeyValue (fun s => s) (fun d => Some d) "k" "null") = "null"
  /\ exists kv,
       getFullKeyData (fun s => s) (fun d => Some d)
                      [("A", MkBucket [("k", Val "null")])] "A" "k" = inr kv
       /\ Preview kv = "null".
Proof.
  destruct (json_preview_bounded_and_full string (fun s => s) (fun d => Some d)
              "k" "null" "null" "null" eq_refl eq_refl)
    as (_ & H1 & _ & H2).
  split; [reflexivity|]. split; [exact H1|].
  destruct (H2 [("A", MkBucket [("k", Val "null")])] "A"
               (MkBucket [("k", Val "null")]) eq_refl eq_refl)
    as (kv & kv' & _ & E & _ & _ & _ & P).
  exists kv'. split; [exact E | exact P].
Defined.

Lemma nul_byte_is_binary_witness :
  containsByte zero (String "a" (String zero "b"))
  /\ ValueType (parseKeyValue (fun s => s) (fun d => Some d) "k"
                              (String "a" (String zero "b"))) = "Binary".
Proof.
  assert (H : containsByte zero (String "a" (String zero "b")))
    by (right; left; reflexivity).
  split; [exact H|].
  exact (proj1 (nul_byte_is_binary string (fun s => s) (fun d => Some d)
                                   "k" (String "a" (String zero "b")) H)).
Defined.

(** ** Timestamp decoding *)

Section DecodeTimeProperties.

Variable localOffset : Z -> Z.
Variable Time_Format : time.Time -> string -> string.

Local Abbreviation decode := (decodeTime localOffset Time_Format).

Lemma wantLen_values (version : nat) :
  time.wantLen version = 15 \/ time.wantLen version = 16.
Proof. unfold time.wantLen. destruct (version =? time.timeBinaryVersionV2); auto. Qed.

Lemma UnmarshalBinary_length (value : string) (t : time.Time) :
  time.UnmarshalBinary localOffset value = inr t ->
  String.length value = binaryTimeLength value.
Proof.
  unfold time.UnmarshalBinary. destruct value as [|version rest]; [discriminate|].
  cbn [list_ascii_of_string binaryTimeLength].
  destruct (negb _); [discriminate|].
  destruct (String.length (String version rest) =? time.wantLen (byteval version))
           eqn:E; [|discriminate].
  intros _. now apply Nat.eqb_eq in E.
Qed.

Lemma Unix_setLoc_plain (sec : Z) (l : time.Location) :
  time.Unix (time.setLoc (time.mkTime 0 sec time.UTC) l)
  = wrapS 64 (sec + time.internalToUnix).
Proof. reflexivity. Qed.

(** C9. decodeTime fails with DecodeError on every input whose length is not
    the length of the binary time encoding (15 bytes, or 16 for version 2);
    on an encoding of the epoch-zero instant, whatever its zone offset, the
    Unix seconds are 0; and a successful result holds the two formatted
    strings and the Unix seconds of one and the same decoded instant. *)
Theorem decodeTime_length_epoch_and_views :
  (forall value,
     String.length value <> binaryTimeLength value -> decode value = inl DecodeError)
  /\ (forall value,
        String.length value <> 15 -> String.length value <> 16 ->
        decode value = inl DecodeError)
  /\ (forall o1 o2 : ascii,
        exists r,
          decode (bytes [1; 0; 0; 0; 14; 119; 145; 247; 0; 0; 0; 0; 0]
                  ++ String o1 (String o2 EmptyString)) = inr r
          /\ timestamp r = 0%Z)
  /\ (forall value r,
        decode value = inr r ->
        exists t,
          time.UnmarshalBinary localOffset value = inr t
          /\ decodedTime r = Time_Format t "2006-01-02 15:04:05 MST"
          /\ timestamp r = time.Unix t
          /\ iso r = Time_Format t RFC3339).
Proof.
  assert (L : forall value,
             String.length value <> binaryTimeLength value ->
             decode value = inl DecodeError).
  { intros value H. unfold decodeTime.
    destruct (time.UnmarshalBinary localOffset value) as [e|t] eqn:U;
      [reflexivity|].
    apply UnmarshalBinary_length in U. contradiction. }
  split; [exact L|]. split; [|split].
  - intros value H15 H16. apply L.
    unfold binaryTimeLength. destruct value as [|v rest].
    + destruct (wantLen_values time.timeBinaryVersionV1) as [E|E]; rewrite E; assumption.
    + destruct (wantLen_values (byteval v)) as [E|E]; rewrite E; assumption.
  - intros o1 o2. unfold decodeTime, time.UnmarshalBinary.
    cbn [bytes map string_of_list_ascii String.append list_ascii_of_string].
    change (byteval (ascii_of_nat 1)) with 1.
    cbn [Nat.eqb time.timeBinaryVersionV1 time.timeBinaryVersionV2 orb negb
         String.length time.wantLen Nat.add firstn skipn].
    set (sec := time.bigEndian 64 _).
    assert (Hs : sec = 62135596800%Z) by (vm_compute; reflexivity).
    set (nsec := time.bigEndian 32 _).
    assert (Hn : wrapU 64 nsec = 0%Z) by (vm_compute; reflexivity).
    rewrite Hn, Hs.
    destruct (_ =? -1 * 60)%Z;
      [|destruct (_ =? localOffset _)%Z];
      (eexists; split; [reflexivity|]);
      cbn [timestamp]; rewrite Unix_setLoc_plain; vm_compute; reflexivity.
  - intros value r H. unfold decodeTime in H.
    destruct (time.UnmarshalBinary localOffset value) as [e|t]; [discriminate|].
    inversion H; subst. exists t. repeat split.
Qed.

End DecodeTimeProperties.

Lemma decodeTime_length_epoch_and_views_witness :
  decodeTime (fun _ => 0%Z) (fun _ layout => layout) "abc" = inl DecodeError
  /\ exists r,
       decodeTime (fun _ => 0%Z) (fun _ layout => layout) epochZeroUTC = inr r
       /\ timestamp r = 0%Z.
Proof.
  destruct (decodeTime_length_epoch_and_views (fun _ => 0%Z) (fun _ layout => layout))
    as (H1 & _ & H2 & _).
  split.
  - apply H1. vm_compute. discriminate.
  - exact (H2 (ascii_of_nat 255) (ascii_of_nat 255)).
Defined.

(** ** More on findBucket: paths that are found *)

(** Fuel beyond [len(parts) - i] changes nothing. *)
Lemma findLoop_fuel_irrelevant parts f1 :
  forall f2 bucket i,
    length parts - i <= f1 -> length parts - i <= f2 ->
    findLoop f1 parts bucket i = findLoop f2 parts bucket i.
Proof.
  induction f1 as [|f1 IH]; intros f2 bucket i H1 H2.
  - destruct f2; simpl; destruct (Nat.ltb_spec i (length parts)); (reflexivity || lia).
  - destruct f2 as [|f2].
    + simpl. destruct (Nat.ltb_spec i (length parts)); [lia | reflexivity].
    + simpl. destruct (Nat.ltb_spec i (length parts)) as [Hi|Hi]; [|reflexivity].
      destruct (Bucket_Bucket bucket (nth i parts EmptyString)) as [next|].
      * apply IH; lia.
      * destruct (Bucket_Bucket bucket (strings.Join (skipn i parts) "/"));
          [reflexivity|].
        destruct (mergeSegments parts bucket i (length parts)) as [[cand j]|] eqn:M;
          [|reflexivity].
        apply mergeSegments_bound in M. destruct M as (M1 & M2 & _).
        apply IH; lia.
Qed.

Lemma findParts_findFrom (tx : Tx) (top : string) (rest : list string) (t : Bucket) :
  Tx_Bucket tx top = Some t ->
  findParts tx (top :: rest)
  = match findFrom (top :: rest) t 1 with Some r => r | None => None end.
Proof.
  intros H. unfold findParts, findFrom. rewrite H.
  rewrite (findLoop_fuel_irrelevant (top :: rest) (length (top :: rest))
             (length (top :: rest) - 1) t 1) by lia.
  reflexivity.
Qed.

Lemma findFrom_end parts bucket i :
  length parts <= i -> findFrom parts bucket i = Some (Some bucket).
Proof.
  intros H. unfold findFrom. destruct (length parts - i); simpl;
    destruct (Nat.ltb_spec i (length parts)); (reflexivity || lia).
Qed.

Lemma findFrom_exact parts bucket i next :
  i < length parts ->
  Bucket_Bucket bucket (nth i parts EmptyString) = Some next ->
  findFrom parts bucket i = findFrom parts next (i + 1).
Proof.
  intros Hi H. unfold findFrom.
  replace (length parts - i) with (S (length parts - (i + 1))) by lia.
  cbn [findLoop]. destruct (Nat.ltb_spec i (length parts)); [|lia].
  now rewrite H.
Qed.

Lemma findFrom_remainder parts bucket i c :
  i < length parts ->
  Bucket_Bucket bucket (nth i parts EmptyString) = None ->
  Bucket_Bucket bucket (strings.Join (skipn i parts) "/") = Some c ->
  findFrom parts bucket i = Some (Some c).
Proof.
  intros Hi H1 H2. unfold findFrom.
  replace (length parts - i) with (S (length parts - (i + 1))) by lia.
  cbn [findLoop]. destruct (Nat.ltb_spec i (length parts)); [|lia].
  now rewrite H1, H2.
Qed.

(** Exact child names are followed one segment at a time. *)
Lemma findFrom_descend names :
  forall parts bucket i a,
    slice parts i (i + length names) = names ->
    i + length names <= length parts ->
    descend bucket names = Some a ->
    findFrom parts bucket i = findFrom parts a (i + length names).
Proof.
  induction names as [|n names IH]; intros parts bucket i a Hs Hl Hd.
  - simpl in *. inversion Hd; subst. now rewrite Nat.add_0_r.
  - simpl in Hd, Hl.
    destruct (Bucket_Bucket bucket n) as [next|] eqn:B; [|discriminate].
    assert (Hi : i < length parts) by lia.
    assert (Hn : nth i parts EmptyString = n
                 /\ slice parts (i + 1) (i + 1 + length names) = names).
    { unfold slice in Hs. unfold slice.
      replace (i + length (n :: names) - i) with (S (length names)) in Hs
        by (simpl; lia).
      replace (i + 1 + length names - (i + 1)) with (length names) by lia.
      rewrite (skipn_nth_cons parts i EmptyString Hi) in Hs.
      simpl in Hs. inversion Hs as [[E1 E2]]. split; [reflexivity | now rewrite E2]. }
    destruct Hn as [Hn1 Hn2].
    rewrite (findFrom_exact parts bucket i next Hi) by (now rewrite Hn1).
    rewrite (IH parts next (i + 1) a Hn2) by (assumption || lia).
    f_equal. simpl. lia.
Qed.

Lemma slice_app_left {A : Type} (l1 l2 : list A) :
  slice (l1 ++ l2) 0 (length l1) = l1.
Proof.
  unfold slice. rewrite Nat.sub_0_r. simpl.
  rewrite firstn_app, Nat.sub_diag, firstn_all. simpl. now rewrite app_nil_r.
Qed.

Lemma slice_app_right {A : Type} (l1 l2 : list A) (n : nat) :
  slice (l1 ++ l2) (length l1) (length l1 + n) = firstn n l2.
Proof.
  unfold slice. replace (length l1 + n - length l1) with n by lia.
  rewrite skipn_app, skipn_all, Nat.sub_diag. reflexivity.
Qed.

Lemma slice_tail {A : Type} (top : A) (l : list A) (n : nat) :
  slice (top :: l) 1 (1 + n) = firstn n l.
Proof. unfold slice. replace (1 + n - 1) with n by lia. reflexivity. Qed.

Lemma findFrom_merge parts bucket i cand j :
  i < length parts ->
  Bucket_Bucket bucket (nth i parts EmptyString) = None ->
  Bucket_Bucket bucket (strings.Join (skipn i parts) "/") = None ->
  mergeSegments parts bucket i (length parts) = Some (cand, j) ->
  findFrom parts bucket i = findFrom parts cand j.
Proof.
  intros Hi H1 H2 M. unfold findFrom.
  replace (length parts - i) with (S (length parts - (i + 1))) by lia.
  cbn [findLoop]. destruct (Nat.ltb_spec i (length parts)); [|lia].
  rewrite H1, H2, M.
  apply mergeSegments_bound in M. destruct M as (M1 & M2 & _).
  replace (j - 1 + 1) with j by lia.
  apply findLoop_fuel_irrelevant; lia.
Qed.

Lemma mergeSegments_finds parts bucket i j c :
  i + 1 < j ->
  Bucket_Bucket bucket (strings.Join (slice parts i j) "/") = Some c ->
  forall j0,
    j <= j0 ->
    (forall j', j < j' -> j' <= j0 ->
       Bucket_Bucket bucket (strings.Join (slice parts i j') "/") = None) ->
    mergeSegments parts bucket i j0 = Some (c, j).
Proof.
  intros Hij Hc. induction j0 as [|j0 IH]; intros Hj Hnone; [lia|].
  simpl. destruct (Nat.ltb_spec (i + 1) (S j0)); [|lia].
  destruct (Nat.eq_dec j (S j0)) as [->|Hne].
  - now rewrite Hc.
  - rewrite (Hnone (S j0)) by lia. apply IH; [lia|].
    intros j' H1 H2. apply Hnone; lia.
Qed.

Lemma reach_cons_inv (tx : Tx) (names : list string) (b : Bucket) :
  reach tx names = Some b ->
  exists top rest t,
    names = top :: rest /\ Tx_Bucket tx top = Some t /\ descend t rest = Some b.
Proof.
  destruct names as [|top rest]; simpl; [discriminate|].
  destruct (Tx_Bucket tx top) as [t|] eqn:T; [|discriminate].
  intros H. now exists top, rest, t.
Qed.

(** Segments that are the exact names of a chain of buckets lead to the
    last bucket of the chain: exact matches are tried first at every level. *)
Lemma findParts_reach (tx : Tx) (names : list string) (b : Bucket) :
  reach tx names = Some b -> findParts tx names = Some b.
Proof.
  intros Hr. destruct (reach_cons_inv _ _ _ Hr) as (top & rest & t & -> & T & D).
  rewrite (findParts_findFrom _ _ _ _ T).
  rewrite (findFrom_descend rest (top :: rest) t 1 b).
  - rewrite findFrom_end; [reflexivity | simpl; lia].
  - rewrite slice_tail. apply firstn_all.
  - simpl. lia.
  - exact D.
Qed.

Lemma findBucket_Join (tx : Tx) (names : list string) :
  Forall (fun n => segment n = true) names ->
  findBucket tx (strings.Join names "/") = findParts tx names.
Proof. intros Hseg. now rewrite findBucket_parts, (pathParts_Join _ Hseg). Qed.

(** X3. A path made of the exact names of a chain of buckets resolves to
    the last bucket of the chain, when no name holds a slash or is empty,
    however the path is decorated with leading, trailing or repeated
    slashes. *)
Theorem findBucket_exact_names
        (tx : Tx) (names : list string) (b : Bucket) (path : string) :
  Forall (fun n => segment n = true) names ->
  reach tx names = Some b ->
  removeEmptySegments path = strings.Join names "/" ->
  findBucket tx path = Some b.
Proof.
  intros Hseg Hr Hp.
  rewrite findBucket_parts, <- pathParts_removeEmptySegments, Hp.
  rewrite (pathParts_Join _ Hseg). now apply findParts_reach.
Qed.

Lemma findBucket_exact_names_witness :
  findBucket tx_ABC "//A/B//C/" = Some (MkBucket [("k", Val "v")]).
Proof.
  apply (findBucket_exact_names tx_ABC ["A"; "B"; "C"]).
  - repeat constructor.
  - reflexivity.
  - reflexivity.
Defined.

(** X4. A bucket whose real name holds slashes is found inside a path when
    the reading is unambiguous.  After the exact names [pre], let the
    segments [mid] (two or more) spell the name of a child [c] of the bucket
    reached, whose first segment alone names no child, and let no longer run
    of segments from there name a child; then the path resolves to the
    bucket reached from [c] by the exact names [post]. *)
Theorem findBucket_name_with_slashes
        (tx : Tx) (pre mid post : list string) (a c b : Bucket) :
  Forall (fun n => segment n = true) (pre ++ mid ++ post) ->
  reach tx pre = Some a ->
  Bucket_Bucket a (hd EmptyString mid) = None ->
  Bucket_Bucket a (strings.Join mid "/") = Some c ->
  (forall k, 1 <= k -> k <= length post ->
     Bucket_Bucket a (strings.Join (mid ++ firstn k post) "/") = None) ->
  descend c post = Some b ->
  findBucket tx (strings.Join (pre ++ mid ++ post) "/") = Some b.
Proof.
  intros Hseg Hr Hx Hc Hnone Hd.
  destruct (reach_cons_inv _ _ _ Hr) as (top & pre' & t & -> & T & D).
  assert (Hmid : 2 <= length mid).
  { destruct mid as [|m [|m' mid]]; simpl in *; try lia; congruence. }
  rewrite findBucket_parts, (pathParts_Join _ Hseg).
  change ((top :: pre') ++ mid ++ post)%list with (top :: (pre' ++ mid ++ post))%list.
  rewrite (findParts_findFrom _ _ _ _ T).
  set (parts := (top :: pre' ++ mid ++ post)%list).
  assert (Hparts : parts = ((top :: pre') ++ mid ++ post)%list) by reflexivity.
  assert (Hlen : length parts = S (length pre') + length mid + length post).
  { rewrite Hparts, !length_app. simpl. lia. }
  set (i := S (length pre')).
  assert (Hskip : skipn i parts = (mid ++ post)%list).
  { rewrite Hparts. unfold i.
    rewrite skipn_app. change (S (length pre')) with (length (top :: pre')).
    now rewrite skipn_all, Nat.sub_diag. }
  assert (Hslice : forall n, slice parts i (i + n) = firstn n (mid ++ post)).
  { intros n. unfold slice. rewrite Hskip. f_equal. lia. }
  rewrite (findFrom_descend pre' parts t 1 a).
  - change (1 + length pre') with i.
    assert (Hi : i < length parts) by lia.
    assert (Hnth : nth i parts EmptyString = hd EmptyString mid).
    { pose proof (skipn_nth_cons parts i EmptyString Hi) as E.
      rewrite Hskip in E. destruct mid as [|m mid']; [simpl in Hmid; lia|].
      simpl in E. inversion E. reflexivity. }
    destruct post as [|p post'].
    + rewrite (findFrom_remainder parts a i c Hi).
      * simpl in Hd. inversion Hd; subst. reflexivity.
      * now rewrite Hnth.
      * rewrite Hskip, app_nil_r. exact Hc.
    + assert (M : mergeSegments parts a i (length parts)
                  = Some (c, i + length mid)).
      { apply mergeSegments_finds.
        - lia.
        - rewrite Hslice, firstn_app, Nat.sub_diag, firstn_all. simpl.
          now rewrite app_nil_r.
        - lia.
        - intros j' H1 H2.
          replace j' with (i + (length mid + (j' - i - length mid))) by lia.
          rewrite Hslice, firstn_app.
          rewrite firstn_all2 by lia.
          replace (length mid + (j' - i - length mid) - length mid)
            with (j' - i - length mid) by lia.
          apply Hnone; lia. }
      rewrite (findFrom_merge parts a i c (i + length mid) Hi).
      * rewrite (findFrom_descend (p :: post') parts c (i + length mid) b).
        -- rewrite findFrom_end; [reflexivity | lia].
        -- assert (Hskip2 : skipn (i + length mid) parts = p :: post').
           { replace (i + length mid) with (length mid + i) by lia.
             rewrite <- skipn_skipn, Hskip, skipn_app, skipn_all, Nat.sub_diag.
             reflexivity. }
           unfold slice. rewrite Hskip2.
           replace (i + length mid + length (p :: post') - (i + length mid))
             with (length (p :: post')) by lia.
           apply firstn_all.
        -- lia.
        -- exact Hd.
      * now rewrite Hnth.
      * rewrite Hskip.
        replace (mid ++ p :: post')%list
          with (mid ++ firstn (length (p :: post')) (p :: post'))%list
          by (now rewrite firstn_all).
        apply Hnone; simpl; lia.
      * exact M.
  - unfold parts. rewrite slice_tail.
    rewrite firstn_app, Nat.sub_diag, firstn_all. simpl. now rewrite app_nil_r.
  - lia.
  - exact D.
Qed.

Lemma findBucket_name_with_slashes_witness :
  findBucket tx_deep "v1/docker.io/library/nginx" = Some emptyBucket.
Proof.
  apply (findBucket_name_with_slashes tx_deep ["v1"] ["docker.io"; "library"] ["nginx"]
           (MkBucket [("docker.io/library", Sub (MkBucket [("nginx", Sub emptyBucket)]))])
           (MkBucket [("nginx", Sub emptyBucket)]) emptyBucket).
  - repeat constructor.
  - reflexivity.
  - reflexivity.
  - reflexivity.
  - intros k H1 H2. simpl in H2. assert (k = 1) by lia. subst k. reflexivity.
  - reflexivity.
Defined.

(** ** The bucket tree *)

(** Induction on a bucket, with the property at hand for every nested
    bucket among its entries. *)
Fixpoint Bucket_nested_ind (P : Bucket -> Prop)
         (step : forall es,
             Forall (fun ke => match snd ke with
                               | Sub c => P c
                               | Val _ => True
                               end) es -> P (MkBucket es))
         (b : Bucket) {struct b} : P b :=
  match b with
  | MkBucket es =>
      step es
        ((fix each (es : list (string * Entry Bucket)) :
            Forall (fun ke => match snd ke with
                              | Sub c => P c
                              | Val _ => True
                              end) es :=
            match es with
            | [] => Forall_nil _
            | ke :: es' =>
                Forall_cons ke
                  (match snd ke as e
                         return match e with Sub c => P c | Val _ => True end
                   with
                   | Sub c => Bucket_nested_ind P step c
                   | Val _ => I
                   end)
                  (each es')
            end) es)
  end.

Lemma Bucket_ForEach_collect {A : Type}
      (g : string -> Entry Bucket -> list A)
      (fn : string -> Entry Bucket -> list A -> list A * option string) :
  (forall k e s, fn k e s = ((s ++ g k e)%list, None)) ->
  forall b s,
    Bucket_ForEach b fn s
    = ((s ++ flat_map (fun ke => g (fst ke) (snd ke)) (entries b))%list, None).
Proof.
  intros H [es]. simpl entries. induction es as [|[k e] es IH]; intros s.
  - simpl. now rewrite app_nil_r.
  - rewrite Bucket_ForEach_cons, H, IH. simpl. now rewrite app_assoc.
Qed.

Lemma subBuckets_In (b : Bucket) (k : string) (c : Bucket) :
  In (k, c) (subBuckets b) <-> In (k, Sub c) (entries b).
Proof.
  unfold subBuckets. rewrite in_flat_map. split.
  - intros ([k' [v|c']] & Hin & H); simpl in H; [contradiction|].
    destruct H as [H|[]]. inversion H; subst. exact Hin.
  - intros H. exists (k, Sub c). split; [exact H | now left].
Qed.

Lemma last_cons_default {A : Type} (k : A) (l : list A) (d : A) :
  last (k :: l) d = last l k.
Proof.
  revert k d. induction l as [|a l IH]; intros k d; [reflexivity|].
  change (last (k :: a :: l) d) with (last (a :: l) d).
  rewrite (IH a d). symmetry. apply IH.
Qed.

Lemma seek_NoDup_In {A : Type} (es : list (string * A)) (k : string) (e : A) :
  NoDup (map fst es) -> In (k, e) es -> seek k es = Some e.
Proof.
  induction es as [|[k' e'] es IH]; simpl; intros Hnd Hin; [contradiction|].
  inversion Hnd as [|? ? Hnotin Hnd']; subst.
  destruct Hin as [Hin|Hin].
  - inversion Hin; subst. now rewrite String.eqb_refl.
  - destruct (String.eqb_spec k' k) as [->|Hne].
    + exfalso. apply Hnotin. apply in_map_iff. now exists (k, e).
    + now apply IH.
Qed.

Lemma wellNamed_sub (b : Bucket) (k : string) (c : Bucket) :
  wellNamed b -> In (k, c) (subBuckets b) ->
  segment k = true /\ wellNamed c /\ Bucket_Bucket b k = Some c.
Proof.
  intros Hw Hin. apply subBuckets_In in Hin. destruct b as [es].
  simpl in Hw, Hin. destruct Hw as [Hnd Heach].
  split; [|split].
  - clear Hnd. induction es as [|[k' e'] es IH]; [contradiction|].
    destruct Heach as [Hhead Htail]. destruct Hin as [Hin|Hin].
    + inversion Hin; subst. simpl in Hhead. tauto.
    + now apply IH.
  - clear Hnd. induction es as [|[k' e'] es IH]; [contradiction|].
    destruct Heach as [Hhead Htail]. destruct Hin as [Hin|Hin].
    + inversion Hin; subst. simpl in Hhead. tauto.
    + now apply IH.
  - unfold Bucket_Bucket. simpl entries.
    now rewrite (seek_NoDup_In es k (Sub c) Hnd Hin).
Qed.

Lemma nestedAt_descend (b : Bucket) (names : list string) (b' : Bucket) :
  nestedAt b names b' -> wellNamed b ->
  descend b names = Some b'
  /\ Forall (fun n => segment n = true) names
  /\ wellNamed b'.
Proof.
  induction 1 as [b|b c b' k names Hin Hnest IH]; intros Hw.
  - repeat split; [constructor | assumption].
  - destruct (wellNamed_sub _ _ _ Hw Hin) as (Hseg & Hwc & Hb).
    destruct (IH Hwc) as (Hd & Hall & Hw').
    simpl. rewrite Hb. repeat split; [assumption | now constructor | assumption].
Qed.

Lemma pathUnder_Join (names pre : list string) :
  pre <> [] ->
  pathUnder (strings.Join pre "/") names = strings.Join (pre ++ names) "/".
Proof.
  revert pre. induction names as [|k names IH]; intros pre Hne.
  - now rewrite app_nil_r.
  - cbn [pathUnder fold_left].
    replace (strings.Join pre "/" ++ "/" ++ k)
      with (strings.Join (pre ++ [k]) "/")
      by (rewrite Join_app; [reflexivity | assumption | discriminate]).
    change (fold_left (fun p k0 => p ++ "/" ++ k0) names
                      (strings.Join (pre ++ [k]) "/"))
      with (pathUnder (strings.Join (pre ++ [k]) "/") names).
    rewrite IH by (destruct pre; discriminate).
    now rewrite <- app_assoc.
Qed.

Lemma flat_map_length_split (es : list (string * Entry Bucket)) :
  length (flat_map (fun ke => match snd ke with
                              | Val v => [(fst ke, v)]
                              | Sub _ => []
                              end) es)
  + length (flat_map (fun ke => match snd ke with
                                | Sub c => [(fst ke, c)]
                                | Val _ => []
                                end) es)
  = length es.
Proof.
  induction es as [|[k [v|c]] es IH]; simpl; [reflexivity | lia | lia].
Qed.

Lemma seek_In {A : Type} (es : list (string * A)) (k : string) (e : A) :
  seek k es = Some e -> In (k, e) es.
Proof.
  induction es as [|[k' e'] es IH]; simpl; [discriminate|].
  destruct (String.eqb_spec k' k) as [->|Hne].
  - intros H. inversion H; subst. now left.
  - intros H. right. now apply IH.
Qed.

Lemma Bucket_Bucket_In (b : Bucket) (k : string) (c : Bucket) :
  Bucket_Bucket b k = Some c -> In (k, c) (subBuckets b).
Proof.
  unfold Bucket_Bucket. destruct (seek k (entries b)) as [[v|c']|] eqn:E;
    try discriminate.
  intros H. inversion H; subst. apply subBuckets_In. now apply seek_In.
Qed.

Lemma Bucket_Get_NoDup (b : Bucket) (k v : string) :
  NoDup (map fst (entries b)) -> In (k, v) (values b) -> Bucket_Get b k = Some v.
Proof.
  intros Hnd Hin. unfold Bucket_Get.
  rewrite (seek_NoDup_In (entries b) k (Val v) Hnd); [reflexivity|].
  unfold values in Hin. apply in_flat_map in Hin.
  destruct Hin as ([k' [v'|c]] & Hin & H); simpl in H; [|contradiction].
  destruct H as [H|[]]. inversion H; subst. exact Hin.
Qed.

Lemma wellNamed_NoDup (b : Bucket) : wellNamed b -> NoDup (map fst (entries b)).
Proof. destruct b as [es]. simpl. tauto. Qed.

Lemma descend_wellNamed (names : list string) (b b' : Bucket) :
  wellNamed b -> descend b names = Some b' ->
  Forall (fun n => segment n = true) names /\ wellNamed b'.
Proof.
  revert b. induction names as [|n names IH]; simpl; intros b Hw H.
  - inversion H; subst. split; [constructor | assumption].
  - destruct (Bucket_Bucket b n) as [c|] eqn:B; [|discriminate].
    apply Bucket_Bucket_In in B.
    destruct (wellNamed_sub _ _ _ Hw B) as (Hseg & Hwc & _).
    destruct (IH _ Hwc H) as [Hall Hw']. split; [now constructor | assumption].
Qed.

Lemma reach_wellNamed (tx : Tx) (names : list string) (b : Bucket) :
  wellNamedTx tx -> reach tx names = Some b ->
  Forall (fun n => segment n = true) names /\ wellNamed b.
Proof.
  intros [_ Hall] Hr.
  destruct (reach_cons_inv _ _ _ Hr) as (top & rest & t & -> & T & D).
  apply seek_In in T. rewrite Forall_forall in Hall.
  destruct (Hall _ T) as [Hseg Hw]. simpl in Hseg, Hw.
  destruct (descend_wellNamed _ _ _ Hw D) as [Hrest Hw'].
  split; [now constructor | assumption].
Qed.

(** In a store whose names hold no slash, what findBucket returns is the
    bucket reached by the segments of the path, each an exact name. *)
Lemma findBucket_wellNamed (tx : Tx) (path : string) (b : Bucket) :
  wellNamedTx tx -> findBucket tx path = Some b ->
  reach tx (pathParts path) = Some b /\ wellNamed b.
Proof.
  intros Hw H. rewrite findBucket_parts in H.
  destruct (findParts_sound _ _ _ H) as (names & Hr & Hj).
  destruct (reach_wellNamed _ _ _ Hw Hr) as [Hseg Hwb].
  assert (E : names = pathParts path).
  { rewrite <- (pathParts_Join names Hseg), Hj.
    apply pathParts_Join, pathParts_segments. }
  subst names. split; assumption.
Qed.

Lemma Split_app_slash (a b : string) :
  strings.Split (a ++ String slash b) slash
  = (strings.Split a slash ++ strings.Split b slash)%list.
Proof.
  induction a as [|c a IH].
  - reflexivity.
  - change (String c a ++ String slash b) with (String c (a ++ String slash b)).
    rewrite !Split_cons, IH.
    destruct (Ascii.eqb c slash); [reflexivity|].
    pose proof (Split_not_nil a slash) as Hne.
    destruct (strings.Split a slash); [congruence | reflexivity].
Qed.

Lemma pathParts_app_slash (a b : string) :
  pathParts (a ++ "/" ++ b) = (pathParts a ++ pathParts b)%list.
Proof.
  unfold pathParts. change (a ++ "/" ++ b) with (a ++ String slash b).
  now rewrite Split_app_slash, filter_app.
Qed.

Lemma pathParts_segment (k : string) : segment k = true -> pathParts k = [k].
Proof. intros H. apply (pathParts_Join [k]). now constructor. Qed.

Lemma reach_snoc (tx : Tx) (names : list string) (b c : Bucket) (k : string) :
  reach tx names = Some b -> Bucket_Bucket b k = Some c ->
  reach tx (names ++ [k]) = Some c.
Proof.
  intros Hr Hk. destruct (reach_cons_inv _ _ _ Hr) as (top & rest & t & -> & T & D).
  simpl. rewrite T, descend_app, D. simpl. now rewrite Hk.
Qed.

Lemma lastElement_noSlash (k acc : string) :
  noSlash k = true -> filepath.lastElement k acc = acc ++ k.
Proof.
  revert acc. induction k as [|a k IH]; simpl; intros acc H.
  - now rewrite append_nil_r.
  - apply andb_prop in H. destruct H as [Ha Hk]. apply negb_true_iff in Ha.
    rewrite Ha, (IH _ Hk), append_assoc. reflexivity.
Qed.

Lemma lastElement_app_slash (p k acc : string) :
  noSlash k = true -> filepath.lastElement (p ++ String slash k) acc = k.
Proof.
  intros Hk. revert acc. induction p as [|a p IH]; intros acc.
  - simpl. exact (lastElement_noSlash k EmptyString Hk).
  - simpl. destruct (Ascii.eqb a slash); apply IH.
Qed.

Lemma trimRightByte_segment (k : string) :
  segment k = true ->
  strings.trimRightByte k slash = k /\ k <> EmptyString.
Proof.
  unfold segment. induction k as [|a k IH]; [discriminate|].
  intros H. apply andb_prop in H. destruct H as [_ H]. simpl in H.
  apply andb_prop in H. destruct H as [Ha Hk]. apply negb_true_iff in Ha.
  split; [|discriminate]. cbn [strings.trimRightByte].
  destruct k as [|a' k'].
  - simpl. now rewrite Ha.
  - destruct IH as [IH _]; [now rewrite Hk|]. now rewrite IH.
Qed.

Lemma trimRightByte_app (p k : string) :
  strings.trimRightByte k slash = k -> k <> EmptyString ->
  strings.trimRightByte (p ++ k) slash = p ++ k.
Proof.
  intros Hk Hne. induction p as [|a p IH]; [exact Hk|].
  change (String a p ++ k) with (String a (p ++ k)).
  cbn [strings.trimRightByte]. rewrite IH.
  destruct (p ++ k) eqn:E; [|reflexivity].
  destruct p; simpl in E; [congruence | discriminate].
Qed.

(** The last element of a path that ends in a slash and a name is the name. *)
Lemma Base_child (p k : string) :
  segment k = true -> filepath.Base (p ++ "/" ++ k) = k.
Proof.
  intros Hseg. destruct (trimRightByte_segment k Hseg) as [Ht Hne].
  unfold filepath.Base.
  assert (E : p ++ "/" ++ k <> EmptyString) by (destruct p; discriminate).
  apply String.eqb_neq in E. rewrite E.
  replace (p ++ "/" ++ k) with ((p ++ "/") ++ k) by apply append_assoc.
  rewrite trimRightByte_app by assumption.
  replace ((p ++ "/") ++ k) with (p ++ String slash k) by (symmetry; apply append_assoc).
  rewrite lastElement_app_slash
    by (unfold segment in Hseg; apply andb_prop in Hseg; tauto).
  apply String.eqb_neq in Hne. now rewrite Hne.
Qed.

Lemma Base_segment (k : string) : segment k = true -> filepath.Base k = k.
Proof.
  intros Hseg. destruct (trimRightByte_segment k Hseg) as [Ht Hne].
  unfold filepath.Base. pose proof Hne as Hne'. apply String.eqb_neq in Hne'.
  rewrite Hne', Ht.
  rewrite lastElement_noSlash
    by (unfold segment in Hseg; apply andb_prop in Hseg; tauto).
  cbn [String.append]. now rewrite Hne'.
Qed.

(** The last element of a path of names is the last name. *)
Lemma Base_Join (names : list string) :
  names <> [] -> Forall (fun n => segment n = true) names ->
  filepath.Base (strings.Join names "/") = last names EmptyString.
Proof.
  intros Hne Hseg. destruct (exists_last Hne) as (init & k & ->).
  rewrite last_last. apply Forall_app in Hseg. destruct Hseg as [_ Hk].
  inversion Hk; subst.
  destruct init as [|a init].
  - now apply Base_segment.
  - rewrite Join_app by discriminate. now apply Base_child.
Qed.

Section BrowserProperties.

Variable Doc : Type.
Variable json_decode : string -> Doc.
Variable json_MarshalIndent : Doc -> option string.
Variable Bucket_Stats : Bucket -> BucketStats.

Local Abbreviation build := (@buildBucketInfo Doc Bucket_Stats).
Local Abbreviation Info := (BucketInfo (KeyValuePair Doc)).

Lemma buildBucketInfo_eq (b : Bucket) (name path : string) (level : nat) :
  build b name path level
  = mkBucketInfo name path level (KeyN (Bucket_Stats b))
      (map (fun kc => build (snd kc) (fst kc) (path ++ "/" ++ fst kc) (level + 1))
           (subBuckets b))
      [] (Bucket_Stats b) (level <? 2).
Proof.
  destruct b as [es]. cbn [buildBucketInfo]. f_equal.
  rewrite (Bucket_ForEach_collect
             (fun k e => match e with
                         | Sub c => [build c k (path ++ "/" ++ k) (level + 1)]
                         | Val _ => []
                         end)).
  - simpl fst. unfold subBuckets. simpl entries.
    induction es as [|[k [v|c]] es IH]; simpl; [reflexivity | exact IH | now rewrite IH].
  - intros k [v|c] s; [now rewrite app_nil_r | reflexivity].
Qed.

Local Abbreviation parse := (parseKeyValue json_decode json_MarshalIndent).
Local Abbreviation details :=
  (@getBucketDetails Doc json_decode json_MarshalIndent Bucket_Stats).
Local Abbreviation allBuckets := (@getAllBuckets Doc Bucket_Stats).

(** Every summary in the tree built for a bucket is the summary of a bucket
    nested in it, named by the last name on the way and placed under the
    path spelled by the names. *)
Lemma nodes_build (b : Bucket) :
  forall name path level node,
    In node (nodes (build b name path level)) ->
    exists names b',
      nestedAt b names b'
      /\ node = build b' (last names name) (pathUnder path names)
                      (level + length names).
Proof.
  induction b as [es IH] using Bucket_nested_ind.
  intros name path level node H.
  rewrite buildBucketInfo_eq in H. cbn [nodes] in H.
  destruct H as [H|H].
  - exists [], (MkBucket es). split; [constructor|].
    cbn [last pathUnder fold_left length]. rewrite Nat.add_0_r, <- H.
    symmetry. apply buildBucketInfo_eq.
  - apply in_flat_map in H. destruct H as (child & Hc & Hn).
    apply in_map_iff in Hc. destruct Hc as ([k c] & <- & Hin). simpl in Hn.
    assert (Hent : In (k, Sub c) es) by (now apply (subBuckets_In (MkBucket es))).
    rewrite Forall_forall in IH. specialize (IH _ Hent). simpl in IH.
    destruct (IH _ _ _ _ Hn) as (names & b' & Hnest & ->).
    exists (k :: names), b'. split; [now apply (nested_sub _ c)|].
    rewrite last_cons_default. cbn [pathUnder fold_left length]. f_equal. lia.
Qed.

(** X5. In the tree that buildBucketInfo returns, every summary sits at or
    below the starting level, is marked expanded exactly when its level is
    below 2, carries no keys and the key count of its own statistics, and
    each of its children is one level deeper with the path of its parent,
    a slash and its own name. *)
Theorem buildBucketInfo_tree_invariant
        (b : Bucket) (name path : string) (level : nat) (node : Info) :
  In node (nodes (build b name path level)) ->
  level <= Level node
  /\ IsExpanded node = (Level node <? 2)
  /\ Keys node = []
  /\ KeyCount node = KeyN (Stats node)
  /\ forall child,
       In child (SubBuckets node) ->
       Level child = Level node + 1
       /\ Path child = Path node ++ "/" ++ Name child.
Proof.
  intros H. destruct (nodes_build _ _ _ _ _ H) as (names & b' & _ & E).
  subst node. rewrite buildBucketInfo_eq. cbn.
  split; [lia|]. split; [reflexivity|]. split; [reflexivity|].
  split; [reflexivity|].
  intros child Hc. apply in_map_iff in Hc. destruct Hc as ([k c] & <- & _).
  rewrite buildBucketInfo_eq. split; reflexivity.
Qed.

Lemma getAllBuckets_eq (tx : Tx) :
  allBuckets tx = (map (fun kb => build (snd kb) (fst kb) (fst kb) 0) tx, None).
Proof.
  unfold getAllBuckets.
  assert (G : forall acc,
             Tx_ForEach tx
               (fun name b (buckets : list Info) =>
                  ((buckets ++ [build b name name 0])%list, None)) acc
             = ((acc ++ map (fun kb => build (snd kb) (fst kb) (fst kb) 0) tx)%list,
                None)).
  { induction tx as [|[k b] tx IH]; intros acc; simpl.
    - now rewrite app_nil_r.
    - rewrite IH, <- app_assoc. reflexivity. }
  apply (G []).
Qed.

Lemma build_nodes (b : Bucket) (names : list string) (b' : Bucket) :
  nestedAt b names b' ->
  forall name path level,
    In (build b' (last names name) (pathUnder path names) (level + length names))
       (nodes (build b name path level)).
Proof.
  induction 1 as [b|b c b' k names Hin Hnest IH]; intros name path level.
  - cbn [last pathUnder fold_left length]. rewrite Nat.add_0_r.
    rewrite (buildBucketInfo_eq b name path level) at 2. cbn [nodes]. left.
    symmetry. apply buildBucketInfo_eq.
  - rewrite (buildBucketInfo_eq b name path level). cbn [nodes]. right.
    apply in_flat_map.
    exists (build c k (path ++ "/" ++ k) (level + 1)). split.
    + apply in_map_iff. now exists (k, c).
    + rewrite last_cons_default. cbn [pathUnder fold_left length].
      replace (level + S (length names)) with (level + 1 + length names) by lia.
      apply IH.
Qed.

(** X6. The tree of getAllBuckets leaves no bucket out and never fails: it
    has one root for each top-level bucket, in the order of the store and
    under its name, and every bucket nested at any depth has its summary in
    the tree, under its own name, the path that joins the names on the way
    with slashes, and the level that counts them. *)
Theorem getAllBuckets_lists_every_bucket (tx : Tx) :
  snd (allBuckets tx) = None
  /\ map Name (fst (allBuckets tx)) = map fst tx
  /\ forall k b0 names b,
       In (k, b0) tx -> nestedAt b0 names b ->
       exists root,
         In root (fst (allBuckets tx))
         /\ Name root = k
         /\ In (build b (last names k) (strings.Join (k :: names) "/") (length names))
               (nodes root).
Proof.
  rewrite getAllBuckets_eq. split; [reflexivity|]. split.
  - simpl. rewrite map_map. apply map_ext. intros [k b].
    now rewrite buildBucketInfo_eq.
  - intros k b0 names b Hin Hnest. exists (build b0 k k 0). split; [|split].
    + simpl. apply in_map_iff. now exists (k, b0).
    + now rewrite buildBucketInfo_eq.
    + pose proof (build_nodes _ _ _ Hnest k k 0) as Hb.
      pose proof (pathUnder_Join names [k] ltac:(discriminate)) as E.
      change (strings.Join [k] "/") with k in E.
      change ([k] ++ names)%list with (k :: names) in E.
      rewrite E in Hb. exact Hb.
Qed.

Lemma getBucketDetails_eq (tx : Tx) (bucketPath : string) :
  details tx bucketPath
  = match findBucket tx bucketPath with
    | None => inl ("bucket not found: " ++ bucketPath)
    | Some b =>
        inr (mkBucketInfo (filepath.Base bucketPath) bucketPath 0
               (KeyN (Bucket_Stats b))
               (map (fun kc => build (snd kc) (fst kc) (bucketPath ++ "/" ++ fst kc) 1)
                    (subBuckets b))
               (map (fun kv => parse (fst kv) (snd kv)) (values b))
               (Bucket_Stats b) true)
    end.
Proof.
  unfold getBucketDetails. destruct (findBucket tx bucketPath) as [b|]; [|reflexivity].
  rewrite (Bucket_ForEach_collect
             (fun k e => match e with
                         | Val value => [parse k value]
                         | Sub _ => []
                         end))
    by (intros k [v|c] s; [reflexivity | now rewrite app_nil_r]).
  rewrite buildBucketInfo_eq.
  cbn [Name Path Level IsExpanded KeyCount Keys SubBuckets Stats fst app].
  assert (HK : flat_map (fun ke : string * Entry Bucket =>
                           match snd ke with
                           | Val value => [parse (fst ke) value]
                           | Sub _ => []
                           end) (entries b)
               = map (fun kv => parse (fst kv) (snd kv)) (values b)).
  { unfold values. destruct b as [es]. simpl entries.
    induction es as [|[k [v|c]] es IH]; simpl; [reflexivity | now rewrite IH | exact IH]. }
  now rewrite HK.
Qed.

(** X7. Every path shown in the tree of getAllBuckets can be opened: in a
    store whose bucket names hold no slash, the path of each summary of the
    tree resolves, by findBucket, to the very bucket that the summary
    describes, and getBucketDetails on that path succeeds and shows the
    same bucket: same name, path, statistics and nested buckets. *)
Theorem getAllBuckets_paths_resolve (tx : Tx) (root node : Info) :
  wellNamedTx tx ->
  In root (fst (allBuckets tx)) ->
  In node (nodes root) ->
  exists names b,
    reach tx names = Some b
    /\ Path node = strings.Join names "/"
    /\ Name node = last names EmptyString
    /\ Level node + 1 = length names
    /\ findBucket tx (Path node) = Some b
    /\ node = build b (Name node) (Path node) (Level node)
    /\ exists info,
         details tx (Path node) = inr info
         /\ Name info = Name node
         /\ Path info = Path node
         /\ Stats info = Stats node
         /\ KeyCount info = KeyCount node
         /\ map Name (SubBuckets info) = map Name (SubBuckets node).
Proof.
  intros [Hnd Hall] Hroot Hnode.
  rewrite getAllBuckets_eq in Hroot. simpl in Hroot.
  apply in_map_iff in Hroot. destruct Hroot as ([k b0] & <- & Hin).
  simpl in Hnode.
  rewrite Forall_forall in Hall. destruct (Hall _ Hin) as [Hk Hw0]. simpl in Hk, Hw0.
  destruct (nodes_build _ _ _ _ _ Hnode) as (names & b & Hnest & E).
  destruct (nestedAt_descend _ _ _ Hnest Hw0) as (Hd & Hsegs & _).
  assert (Hreach : reach tx (k :: names) = Some b).
  { simpl. unfold Tx_Bucket. now rewrite (seek_NoDup_In tx k b0 Hnd Hin). }
  assert (Hpath : pathUnder k names = strings.Join (k :: names) "/").
  { exact (pathUnder_Join names [k] ltac:(discriminate)). }
  assert (HP : Path node = strings.Join (k :: names) "/").
  { rewrite E, buildBucketInfo_eq. exact Hpath. }
  assert (HN : Name node = last (k :: names) EmptyString).
  { rewrite E, buildBucketInfo_eq, last_cons_default. reflexivity. }
  assert (HL : Level node = length names).
  { rewrite E, buildBucketInfo_eq. reflexivity. }
  assert (F : findBucket tx (Path node) = Some b).
  { rewrite HP, findBucket_Join by (now constructor). now apply findParts_reach. }
  exists (k :: names), b. split; [exact Hreach|]. split; [exact HP|].
  split; [exact HN|]. split; [simpl; lia|]. split; [exact F|]. split.
  - rewrite HP, HL, HN, last_cons_default, <- Hpath. exact E.
  - rewrite getBucketDetails_eq, F. eexists. split; [reflexivity|].
    cbn [Name Path Stats KeyCount SubBuckets].
    split; [rewrite HN, HP; apply Base_Join; [discriminate | now constructor]|].
    split; [reflexivity|].
    rewrite E, !buildBucketInfo_eq. cbn [Stats KeyCount SubBuckets].
    split; [reflexivity|]. split; [reflexivity|].
    rewrite !map_map. apply map_ext. intros [k' c'].
    now rewrite !buildBucketInfo_eq.
Qed.



(** X8. getBucketDetails fails exactly when findBucket finds nothing, with
    the message naming the path as given; otherwise the summary returned is
    at level 0 and expanded, keeps the path as given, and lists every entry
    of the bucket exactly once and in key order: the values as parsed
    key-value pairs, the nested buckets as trees one level down. *)
Theorem getBucketDetails_contents (tx : Tx) (bucketPath : string) :
  match findBucket tx bucketPath with
  | None => details tx bucketPath = inl ("bucket not found: " ++ bucketPath)
  | Some b =>
      exists info,
        details tx bucketPath = inr info
        /\ Name info = filepath.Base bucketPath
        /\ Path info = bucketPath
        /\ Level info = 0
        /\ IsExpanded info = true
        /\ KeyCount info = KeyN (Bucket_Stats b)
        /\ Keys info = map (fun kv => parse (fst kv) (snd kv)) (values b)
        /\ SubBuckets info
           = map (fun kc => build (snd kc) (fst kc) (bucketPath ++ "/" ++ fst kc) 1)
                 (subBuckets b)
        /\ length (Keys info) + length (SubBuckets info) = length (entries b)
  end.
Proof.
  rewrite getBucketDetails_eq. destruct (findBucket tx bucketPath) as [b|];
    [|reflexivity].
  eexists. split; [reflexivity|]. cbn. repeat split.
  rewrite !length_map. unfold values, subBuckets. apply flat_map_length_split.
Qed.

(** X9. The links of the detail view can be followed.  In a store whose
    bucket names hold no slash, the path that getBucketDetails gives to each
    nested bucket resolves to that nested bucket, whatever slashes decorate
    the path that was opened, and opening it gives the detail view of the
    same bucket: same name, path and statistics, and the same nested
    buckets under the same paths. *)
Theorem getBucketDetails_children_open (tx : Tx) (bucketPath : string) (info : Info) :
  wellNamedTx tx ->
  details tx bucketPath = inr info ->
  forall child, In child (SubBuckets info) ->
    exists b c info',
      findBucket tx bucketPath = Some b
      /\ Bucket_Bucket b (Name child) = Some c
      /\ findBucket tx (Path child) = Some c
      /\ details tx (Path child) = inr info'
      /\ Name info' = Name child
      /\ Path info' = Path child
      /\ Stats info' = Stats child
      /\ map Name (SubBuckets info') = map Name (SubBuckets child)
      /\ map Path (SubBuckets info') = map Path (SubBuckets child).
Proof.
  intros Hw Hd child Hc. rewrite getBucketDetails_eq in Hd.
  destruct (findBucket tx bucketPath) as [b|] eqn:F; [|discriminate].
  inversion Hd; subst info. clear Hd. cbn [SubBuckets] in Hc.
  apply in_map_iff in Hc. destruct Hc as ([k c] & <- & Hin). cbn [fst snd].
  destruct (findBucket_wellNamed _ _ _ Hw F) as [Hr Hwb].
  destruct (wellNamed_sub _ _ _ Hwb Hin) as (Hseg & Hwc & Hk).
  assert (Fc : findBucket tx (bucketPath ++ "/" ++ k) = Some c).
  { rewrite findBucket_parts, pathParts_app_slash, (pathParts_segment _ Hseg).
    apply findParts_reach. now apply (reach_snoc _ _ b). }
  exists b, c. eexists.
  rewrite !buildBucketInfo_eq. cbn [Name Path Stats SubBuckets].
  split; [reflexivity|]. split; [exact Hk|]. split; [exact Fc|].
  change (bucketPath ++ String "/"%char k) with (bucketPath ++ "/" ++ k).
  rewrite getBucketDetails_eq, Fc. split; [reflexivity|].
  cbn [Name Path Stats SubBuckets]. split; [now apply Base_child|].
  split; [reflexivity|]. split; [reflexivity|].
  rewrite !map_map. split; apply map_ext; intros [k' c'];
    now rewrite !buildBucketInfo_eq.
Qed.

Local Abbreviation keyDetails := (getKeyDetails json_decode json_MarshalIndent).
Local Abbreviation fullKeyData := (getFullKeyData json_decode json_MarshalIndent).

(** X10. The list view and the two key views agree.  For a key of a bucket
    that findBucket returns, getKeyDetails and getFullKeyData succeed and
    classify the value as parseKeyValue does, field by field; the bounded
    preview of the list is the full preview or its cut to 1000 bytes with
    the truncation marker; the two key views differ for a Binary value
    only.  And every pair that getBucketDetails lists is parseKeyValue of a
    key that the bucket holds, so it can be opened in both views. *)
Theorem key_views_agree (tx : Tx) (bucketPath : string) (b : Bucket) :
  findBucket tx bucketPath = Some b ->
  (forall k v,
      Bucket_Get b k = Some v ->
      exists kv' kv'',
        keyDetails tx bucketPath k = inr kv'
        /\ fullKeyData tx bucketPath k = inr kv''
        /\ sameClassification kv' (parse k v)
        /\ sameClassification kv'' (parse k v)
        /\ Key kv' = k
        /\ (Preview (parse k v) = Preview kv'
            \/ Preview (parse k v) = truncated 1000 truncationMarker (Preview kv'))
        /\ (ValueType kv' <> "Binary" -> Preview kv'' = Preview kv'))
  /\ (NoDup (map fst (entries b)) ->
      forall info kv,
        details tx bucketPath = inr info -> In kv (Keys info) ->
        exists v, Bucket_Get b (Key kv) = Some v /\ kv = parse (Key kv) v).
Proof.
  intros F. split.
  - intros k v G. unfold getKeyDetails, getFullKeyData. rewrite F, G.
    unfold parseKeyValue.
    destruct (json_Unmarshal json_decode v) as [doc|].
    + eexists. eexists. split; [reflexivity|]. split; [reflexivity|].
      cbn. destruct (json_MarshalIndent doc) as [formatted|];
        repeat split; auto.
    + destruct (isUTF8 v); cbn; eexists; eexists;
        (split; [reflexivity|]); (split; [reflexivity|]);
        cbn; repeat split; auto; congruence.
  - intros Hnd info kv Hd Hin. rewrite getBucketDetails_eq, F in Hd.
    inversion Hd; subst info. cbn [Keys] in Hin.
    apply in_map_iff in Hin. destruct Hin as ([k v] & <- & Hin). cbn [fst snd].
    assert (HK : Key (parse k v) = k).
    { unfold parseKeyValue. destruct (json_Unmarshal json_decode v); [reflexivity|].
      destruct (isUTF8 v); reflexivity. }
    rewrite HK. exists v. split; [now apply Bucket_Get_NoDup | reflexivity].
Qed.

End BrowserProperties.

Lemma buildBucketInfo_tree_invariant_witness :
  Level (buildBucketInfo (fun _ => mkBucketStats 0 0 0 0 0 0 0 0)
           (MkBucket [("C", Sub (MkBucket [("k", Val "v")]))]) "B" "A/B" 1
         : BucketInfo (KeyValuePair string)) = 1
  /\ IsExpanded (buildBucketInfo (fun _ => mkBucketStats 0 0 0 0 0 0 0 0)
                   (MkBucket [("C", Sub (MkBucket [("k", Val "v")]))]) "B" "A/B" 1
                 : BucketInfo (KeyValuePair string)) = true.
Proof.
  destruct (buildBucketInfo_tree_invariant string
              (fun _ => mkBucketStats 0 0 0 0 0 0 0 0)
              (MkBucket [("B", Sub (MkBucket [("C", Sub (MkBucket [("k", Val "v")]))]))])
              "A" "A" 0
              (buildBucketInfo (fun _ => mkBucketStats 0 0 0 0 0 0 0 0)
                 (MkBucket [("C", Sub (MkBucket [("k", Val "v")]))]) "B" "A/B" 1)
              ltac:(right; left; reflexivity))
    as (_ & H & _).
  split; [reflexivity | exact H].
Defined.

Lemma getAllBuckets_paths_resolve_witness :
  exists names b,
    reach tx_ABC names = Some b
    /\ strings.Join names "/" = "A/B/C"
    /\ findBucket tx_ABC "A/B/C" = Some b.
Proof.
  assert (W : wellNamedTx tx_ABC).
  { split.
    - repeat constructor. intros [].
    - repeat constructor; simpl; auto; intros []. }
  destruct (getAllBuckets_paths_resolve string (fun s => s) (fun d => Some d)
              (fun _ => mkBucketStats 0 0 0 0 0 0 0 0) tx_ABC
              (buildBucketInfo (fun _ => mkBucketStats 0 0 0 0 0 0 0 0)
                 (MkBucket [("B", Sub (MkBucket [("C", Sub (MkBucket [("k", Val "v")]))]))])
                 "A" "A" 0)
              (buildBucketInfo (fun _ => mkBucketStats 0 0 0 0 0 0 0 0)
                 (MkBucket [("k", Val "v")]) "C" "A/B/C" 2)
              W ltac:(left; reflexivity) ltac:(right; right; left; reflexivity))
    as (names & b & Hr & Hp & _ & _ & Hf & _ & _).
  exists names, b. split; [exact Hr|]. split; [symmetry; exact Hp | exact Hf].
Defined.

(** ** The search *)

Lemma subsequence_nil_l {A : Type} (m : list A) : subsequence [] m.
Proof. induction m; constructor; assumption. Qed.

Lemma subsequence_refl {A : Type} (l : list A) : subsequence l l.
Proof. induction l; constructor; assumption. Qed.

Lemma subsequence_app {A : Type} (l m l' m' : list A) :
  subsequence l m -> subsequence l' m' -> subsequence (l ++ l') (m ++ m').
Proof. induction 1; intros H'; simpl; try constructor; auto. Qed.

Lemma subsequence_length {A : Type} (l m : list A) :
  subsequence l m -> length l <= length m.
Proof. induction 1; simpl; lia. Qed.

Lemma subsequence_same_length {A : Type} (l m : list A) :
  subsequence l m -> length m <= length l -> l = m.
Proof.
  induction 1 as [|x l m H IH|x l m H IH]; simpl; intros Hlen.
  - reflexivity.
  - f_equal. apply IH. lia.
  - apply subsequence_length in H. lia.
Qed.

Lemma subsequence_In {A : Type} (l m : list A) (x : A) :
  subsequence l m -> In x l -> In x m.
Proof.
  induction 1 as [|y l m H IH|y l m H IH]; simpl; intros Hin.
  - contradiction.
  - destruct Hin; [now left | right; auto].
  - right; auto.
Qed.

(** Two runs that agree on their first [n] elements, followed by two runs
    that agree on what is left of [n]. *)
Lemma firstn_app_agree {A : Type} (n : nat) (a1 m1 a2 m2 : list A) :
  subsequence a1 m1 ->
  firstn n a1 = firstn n m1 ->
  firstn (n - length a1) a2 = firstn (n - length a1) m2 ->
  firstn n (a1 ++ a2) = firstn n (m1 ++ m2).
Proof.
  intros Hs H1 H2. rewrite !firstn_app, H1.
  pose proof (subsequence_length _ _ Hs) as Hle.
  destruct (Nat.eq_dec (length a1) (length m1)) as [E|E].
  - now rewrite <- E, H2.
  - assert (Hn : n <= length a1).
    { apply (f_equal (@length A)) in H1. rewrite !length_firstn in H1. lia. }
    replace (n - length a1) with 0 by lia. replace (n - length m1) with 0 by lia.
    reflexivity.
Qed.

Lemma currentPath_childPath (path k : string) :
  (if negb (String.eqb path EmptyString) then path ++ "/" else path) ++ k
  = childPath path k.
Proof.
  destruct path as [|a path]; [reflexivity|].
  cbn [String.eqb negb childPath]. apply append_assoc.
Qed.

Lemma truncated_length (n : nat) (marker preview : string) :
  String.length (truncated n marker preview) <= n + String.length marker.
Proof.
  unfold truncated. destruct (n <? String.length preview) eqn:E.
  - apply Nat.ltb_lt in E. rewrite length_append, length_substring_prefix by lia.
    lia.
  - apply Nat.ltb_ge in E. lia.
Qed.

Section SearchProperties.

Variable Doc : Type.
Variable json_decode : string -> Doc.
Variable json_MarshalIndent : Doc -> option string.
Variable unicode_ToLower : string -> string.

Local Abbreviation parse := (parseKeyValue json_decode json_MarshalIndent).
Local Abbreviation search :=
  (searchInBucket json_decode json_MarshalIndent unicode_ToLower).
Local Abbreviation searchAll :=
  (searchKeys json_decode json_MarshalIndent unicode_ToLower).
Local Abbreviation matches := (matchesIn json_decode json_MarshalIndent unicode_ToLower).
Local Abbreviation every := (allMatches json_decode json_MarshalIndent unicode_ToLower).
Local Abbreviation result := (resultOf json_decode json_MarshalIndent).
Local Abbreviation lower := (strings_ToLower unicode_ToLower).

(** What searchInBucket adds to the results it is given: never an error;
    matches of the bucket only, in the order of the traversal; and as long
    as the cap is not reached, every one of them. *)
Lemma searchInBucket_adds (b : Bucket) :
  forall path query results found maxResults,
  exists added,
    search b path query results found maxResults = ((results ++ added)%list, None)
    /\ subsequence added (matches b path query)
    /\ firstn (maxResults - length results) added
       = firstn (maxResults - length results) (matches b path query).
Proof.
  induction b as [es IH] using Bucket_nested_ind.
  intros path query results found maxResults.
  cbn [searchInBucket].
  destruct (maxResults <=? length results) eqn:Cap.
  - apply Nat.leb_le in Cap. exists []. rewrite app_nil_r.
    split; [reflexivity|]. split; [apply subsequence_nil_l|].
    replace (maxResults - length results) with 0 by lia. reflexivity.
  - clear Cap. cbn [matchesIn]. revert results.
    induction es as [|[k e] es IHes]; intros results.
    + exists []. rewrite app_nil_r. repeat split. constructor.
    + inversion IH as [|? ? Hhead Htail]; subst. specialize (IHes Htail).
      rewrite Bucket_ForEach_cons. cbn [flat_map fst snd].
      destruct e as [v|c].
      * rewrite currentPath_childPath.
        destruct (strings.Contains (lower k) query).
        -- set (r := mkSearchResult path k (childPath path k) (ValueType (parse k v))
                                    (ValueSize (parse k v))
                                    (truncated 200 "..." (Preview (parse k v)))).
           assert (Hfn : (if maxResults <=? length (results ++ [r])
                          then ((results ++ [r])%list, @None string)
                          else ((results ++ [r])%list, None))
                         = ((results ++ [r])%list, None))
             by (destruct (maxResults <=? length (results ++ [r])); reflexivity).
           rewrite Hfn.
           destruct (IHes (results ++ [r])%list) as (added & Hrun & Hsub & Hfirst).
           exists (r :: added). rewrite Hrun, <- app_assoc.
           split; [reflexivity|]. split; [now constructor|].
           rewrite length_app in Hfirst. simpl in Hfirst.
           change ([result path k v] ++ ?l)%list with (result path k v :: l).
           destruct (maxResults - length results) as [|n] eqn:N; [reflexivity|].
           replace (maxResults - (length results + 1)) with n in Hfirst by lia.
           cbn [firstn]. f_equal. exact Hfirst.
        -- exact (IHes results).
      * simpl in Hhead. rewrite currentPath_childPath.
        destruct (Hhead (childPath path k) query results (length results) maxResults)
          as (a1 & Hrun1 & Hsub1 & Hfirst1).
        rewrite Hrun1.
        destruct (IHes (results ++ a1)%list) as (a2 & Hrun2 & Hsub2 & Hfirst2).
        exists (a1 ++ a2)%list. rewrite Hrun2, <- app_assoc.
        split; [reflexivity|]. split; [now apply subsequence_app|].
        apply firstn_app_agree; [assumption | assumption |].
        rewrite length_app in Hfirst2.
        now replace (maxResults - length results - length a1)
          with (maxResults - (length results + length a1)) by lia.
Qed.

Lemma searchKeys_adds (tx : Tx) (query : string) :
  exists added,
    searchAll tx query = (added, None)
    /\ subsequence added (every tx query)
    /\ firstn 100 added = firstn 100 (every tx query).
Proof.
  unfold searchKeys, allMatches.
  set (q := lower query).
  assert (G : forall results,
             exists added,
               Tx_ForEach tx (fun name b results => search b name q results 0 100)
                          results
               = ((results ++ added)%list, None)
               /\ subsequence added (flat_map (fun kb => matches (snd kb) (fst kb) q) tx)
               /\ firstn (100 - length results) added
                  = firstn (100 - length results)
                           (flat_map (fun kb => matches (snd kb) (fst kb) q) tx)).
  { induction tx as [|[name b] tx IH]; intros results.
    - exists []. rewrite app_nil_r. repeat split. constructor.
    - cbn [Tx_ForEach flat_map fst snd].
      destruct (searchInBucket_adds b name q results 0 100)
        as (a1 & Hrun1 & Hsub1 & Hfirst1).
      rewrite Hrun1.
      destruct (IH (results ++ a1)%list) as (a2 & Hrun2 & Hsub2 & Hfirst2).
      exists (a1 ++ a2)%list. rewrite Hrun2, <- app_assoc.
      split; [reflexivity|]. split; [now apply subsequence_app|].
      apply firstn_app_agree; [assumption | assumption |].
      rewrite length_app in Hfirst2.
      now replace (100 - length results - length a1)
        with (100 - (length results + length a1)) by lia. }
  destruct (G []) as (added & Hrun & Hsub & Hfirst).
  exists added. split; [exact Hrun|]. split; assumption.
Qed.

(** X11. The search never fails, and below its cap it is exact.  Its
    results are matches only, in the order of the traversal; its first 100
    results are the first 100 matches; and when the store holds at most 100
    matches, the results are all of them. *)
Theorem searchKeys_exact_below_cap (tx : Tx) (query : string) :
  snd (searchAll tx query) = None
  /\ subsequence (fst (searchAll tx query)) (every tx query)
  /\ firstn 100 (fst (searchAll tx query)) = firstn 100 (every tx query)
  /\ (length (every tx query) <= 100 -> fst (searchAll tx query) = every tx query)
  /\ (100 <= length (every tx query) -> 100 <= length (fst (searchAll tx query))).
Proof.
  destruct (searchKeys_adds tx query) as (added & Hrun & Hsub & Hfirst).
  rewrite Hrun. cbn [fst snd].
  split; [reflexivity|]. split; [assumption|]. split; [assumption|].
  pose proof (f_equal (@length SearchResult) Hfirst) as Hlen.
  rewrite !length_firstn in Hlen.
  split; intros H.
  - apply subsequence_same_length; [assumption | lia].
  - lia.
Qed.

Lemma values_In (b : Bucket) (k v : string) :
  In (k, v) (values b) <-> In (k, Val v) (entries b).
Proof.
  unfold values. rewrite in_flat_map. split.
  - intros ([k' [v'|c]] & Hin & H); simpl in H; [|contradiction].
    destruct H as [H|[]]. inversion H; subst. exact Hin.
  - intros H. exists (k, Val v). split; [exact H | now left].
Qed.

(** The matches of a bucket are the results of the matching keys of the
    buckets nested in it, each under the path of its bucket. *)
Lemma matchesIn_iff (b : Bucket) :
  forall path query r,
    In r (matches b path query)
    <-> exists names b' k v,
          nestedAt b names b'
          /\ In (k, v) (values b')
          /\ strings.Contains (lower k) query = true
          /\ r = result (fold_left childPath names path) k v.
Proof.
  induction b as [es IH] using Bucket_nested_ind.
  intros path query r. cbn [matchesIn]. rewrite in_flat_map. split.
  - intros ([k e] & Hin & Hr). cbn [fst snd] in Hr.
    rewrite Forall_forall in IH. specialize (IH _ Hin). cbn [snd] in IH.
    destruct e as [v|c].
    + destruct (strings.Contains (lower k) query) eqn:M; [|contradiction].
      destruct Hr as [<-|[]].
      exists [], (MkBucket es), k, v. split; [constructor|].
      split; [now apply values_In|]. split; [exact M | reflexivity].
    + apply IH in Hr. destruct Hr as (names & b' & k' & v & Hn & Hv & M & ->).
      exists (k :: names), b', k', v. split.
      * apply (nested_sub _ c); [|exact Hn]. now apply (subBuckets_In (MkBucket es)).
      * split; [exact Hv|]. split; [exact M | reflexivity].
  - intros (names & b' & k & v & Hn & Hv & M & ->).
    inversion Hn as [|? c ? k0 names' Hsub Hn']; subst.
    + exists (k, Val v). split; [now apply (values_In (MkBucket es))|].
      cbn [fst snd fold_left]. rewrite M. now left.
    + exists (k0, Sub c). apply subBuckets_In in Hsub. split; [exact Hsub|].
      cbn [fst snd]. rewrite Forall_forall in IH. specialize (IH _ Hsub).
      cbn [snd] in IH. apply IH. exists names', b', k, v.
      split; [exact Hn'|]. split; [exact Hv|]. split; [exact M | reflexivity].
Qed.

Lemma childPath_under (names : list string) (path : string) :
  path <> EmptyString -> fold_left childPath names path = pathUnder path names.
Proof.
  revert path. induction names as [|k names IH]; intros path Hne; [reflexivity|].
  cbn [fold_left pathUnder].
  assert (E : childPath path k = path ++ "/" ++ k)
    by (destruct path; [congruence | reflexivity]).
  rewrite E. apply IH. destruct path; [congruence | discriminate].
Qed.

Lemma allMatches_iff (tx : Tx) (query : string) (r : SearchResult) :
  In r (every tx query)
  <-> exists k0 b0 names b k v,
        In (k0, b0) tx
        /\ nestedAt b0 names b
        /\ In (k, v) (values b)
        /\ strings.Contains (lower k) (lower query) = true
        /\ r = result (fold_left childPath names k0) k v.
Proof.
  unfold allMatches. rewrite in_flat_map. split.
  - intros ([k0 b0] & Hin & Hr). cbn [fst snd] in Hr. apply matchesIn_iff in Hr.
    destruct Hr as (names & b & k & v & H). now exists k0, b0, names, b, k, v.
  - intros (k0 & b0 & names & b & k & v & Hin & H).
    exists (k0, b0). split; [exact Hin|]. cbn [fst snd]. apply matchesIn_iff.
    now exists names, b, k, v.
Qed.

Lemma segment_nonempty (k : string) : segment k = true -> k <> EmptyString.
Proof. intros H ->. discriminate. Qed.

Lemma pathUnder_nonempty (names : list string) (path : string) :
  path <> EmptyString -> pathUnder path names <> EmptyString.
Proof.
  revert path. induction names as [|k names IH]; intros path Hne; [exact Hne|].
  cbn [pathUnder fold_left]. apply IH. destruct path; [congruence | discriminate].
Qed.

Lemma parseKeyValue_size (k v : string) :
  Key (parse k v) = k /\ ValueSize (parse k v) = String.length v.
Proof.
  unfold parseKeyValue. destruct (json_Unmarshal json_decode v); [split; reflexivity|].
  destruct (isUTF8 v); split; reflexivity.
Qed.

Lemma getKeyDetails_classifies (tx : Tx) (bucketPath : string) (b : Bucket)
      (k v : string) :
  findBucket tx bucketPath = Some b -> Bucket_Get b k = Some v ->
  exists kv,
    getKeyDetails json_decode json_MarshalIndent tx bucketPath k = inr kv
    /\ sameClassification kv (parse k v).
Proof.
  intros F G. unfold getKeyDetails, parseKeyValue. rewrite F, G.
  destruct (json_Unmarshal json_decode v) as [doc|].
  - eexists. split; [reflexivity|]. repeat split.
  - destruct (isUTF8 v); cbn; eexists; (split; [reflexivity|]); repeat split.
Qed.

(** X12. Every result of the search can be opened.  In a store whose
    bucket names hold no slash, a result names a bucket that findBucket
    resolves and a key that the bucket holds, whose lowered name contains
    the lowered query; its path is the bucket, a slash and the key; its
    size is the length of the value; its preview holds at most 203 bytes;
    and getKeyDetails on its bucket and key succeeds with the type and the
    size that the result states. *)
Theorem search_results_open (tx : Tx) (query : string) (r : SearchResult) :
  wellNamedTx tx ->
  In r (fst (searchAll tx query)) ->
  exists b v kv,
    findBucket tx (res_bucket r) = Some b
    /\ Bucket_Get b (res_key r) = Some v
    /\ strings.Contains (lower (res_key r)) (lower query) = true
    /\ res_path r = res_bucket r ++ "/" ++ res_key r
    /\ res_size r = String.length v
    /\ String.length (res_preview r) <= 203
    /\ getKeyDetails json_decode json_MarshalIndent tx (res_bucket r) (res_key r)
       = inr kv
    /\ ValueType kv = res_type r
    /\ ValueSize kv = res_size r.
Proof.
  intros Hw Hin.
  destruct (searchKeys_adds tx query) as (added & Hrun & Hsub & _).
  rewrite Hrun in Hin. cbn [fst] in Hin.
  apply (subsequence_In _ _ _ Hsub) in Hin. apply allMatches_iff in Hin.
  destruct Hin as (k0 & b0 & names & b & k & v & Hin & Hn & Hv & M & ->).
  destruct Hw as [Hnd Hall]. rewrite Forall_forall in Hall.
  destruct (Hall _ Hin) as [Hk0 Hw0]. cbn [fst snd] in Hk0, Hw0.
  destruct (nestedAt_descend _ _ _ Hn Hw0) as (Hd & Hsegs & Hwb).
  rewrite (childPath_under names k0 (segment_nonempty _ Hk0)).
  pose proof (pathUnder_Join names [k0] ltac:(discriminate)) as E.
  change (strings.Join [k0] "/") with k0 in E.
  change ([k0] ++ names)%list with (k0 :: names) in E. rewrite E.
  assert (F : findBucket tx (strings.Join (k0 :: names) "/") = Some b).
  { rewrite findBucket_Join by (now constructor). apply findParts_reach.
    simpl. unfold Tx_Bucket. now rewrite (seek_NoDup_In tx k0 b0 Hnd Hin). }
  assert (G : Bucket_Get b k = Some v)
    by (apply Bucket_Get_NoDup; [now apply wellNamed_NoDup | exact Hv]).
  destruct (getKeyDetails_classifies _ _ _ _ _ F G)
    as (kv & Hkv & _ & _ & HT & HS & _).
  exists b, v, kv. unfold resultOf.
  cbn [res_bucket res_key res_path res_size res_type res_preview].
  split; [exact F|]. split; [exact G|]. split; [exact M|]. split.
  - assert (Hne : strings.Join (k0 :: names) "/" <> EmptyString).
    { rewrite <- E. apply pathUnder_nonempty. now apply segment_nonempty. }
    destruct (strings.Join (k0 :: names) "/"); [congruence | reflexivity].
  - split; [apply parseKeyValue_size|]. split.
    + exact (truncated_length 200 "..." (Preview (parse k v))).
    + split; [exact Hkv|]. split; [exact HT|].
      rewrite HS. now destruct (parseKeyValue_size k v).
Qed.

(** X13. Below the cap the search misses nothing.  When the store holds at
    most 100 matches, every key of every bucket, at any depth under a
    top-level bucket with a name, whose lowered name contains the lowered
    query, is among the results, with the path of its bucket. *)
Theorem searchKeys_finds_every_match
        (tx : Tx) (query : string) (k0 : string) (b0 : Bucket)
        (names : list string) (b : Bucket) (k v : string) :
  length (every tx query) <= 100 ->
  k0 <> EmptyString ->
  In (k0, b0) tx ->
  nestedAt b0 names b ->
  In (k, v) (values b) ->
  strings.Contains (lower k) (lower query) = true ->
  In (result (strings.Join (k0 :: names) "/") k v) (fst (searchAll tx query)).
Proof.
  intros Hcap Hk0 Hin Hn Hv M.
  destruct (searchKeys_adds tx query) as (added & Hrun & Hsub & Hfirst).
  rewrite Hrun. cbn [fst].
  assert (E : added = every tx query).
  { apply subsequence_same_length; [assumption|].
    apply (f_equal (@length SearchResult)) in Hfirst.
    rewrite !length_firstn in Hfirst. lia. }
  rewrite E. apply allMatches_iff. exists k0, b0, names, b, k, v.
  split; [exact Hin|]. split; [exact Hn|]. split; [exact Hv|]. split; [exact M|].
  rewrite (childPath_under names k0 Hk0).
  pose proof (pathUnder_Join names [k0] ltac:(discriminate)) as P.
  change (strings.Join [k0] "/") with k0 in P.
  change ([k0] ++ names)%list with (k0 :: names) in P. now rewrite P.
Qed.

(** X14. handleSearch answers every query but the empty one with
    success: the empty query gets status 500 and the message
    ["Search query cannot be empty"]; any other gets status 200 and the
    results of searchKeys, and the reply ["Search failed"] is never sent. *)
Theorem handleSearch_replies (tx : Tx) (query : string) :
  handleSearch json_decode json_MarshalIndent unicode_ToLower tx query
  = (if String.eqb query EmptyString
     then mkReply 500 (mkAPIResponse false None None None
                                     "Search query cannot be empty" EmptyString)
     else mkReply 200 (mkAPIResponse true (Some (fst (searchAll tx query)))
                                     None None EmptyString EmptyString))
  /\ forall e : string,
       Error (Body (handleSearch json_decode json_MarshalIndent unicode_ToLower
                                 tx query))
       <> "Search failed: " ++ e.
Proof.
  unfold handleSearch.
  destruct (searchKeys_adds tx query) as (added & Hrun & _).
  rewrite Hrun. destruct (String.eqb query EmptyString); split;
    try reflexivity; intros e; discriminate.
Qed.

End SearchProperties.

(** ** findBucket against plain path resolution *)

Lemma findFrom_last_none parts bucket i :
  i + 1 = length parts ->
  Bucket_Bucket bucket (nth i parts EmptyString) = None ->
  findFrom parts bucket i = Some None.
Proof.
  intros Hi H. unfold findFrom.
  replace (length parts - i) with 1 by lia.
  cbn [findLoop]. destruct (Nat.ltb_spec i (length parts)); [|lia].
  rewrite H.
  assert (Hs : skipn i parts = [nth i parts EmptyString]).
  { rewrite (skipn_nth_cons parts i EmptyString) by lia.
    now rewrite (proj2 (skipn_nil_iff parts (i + 1))) by lia. }
  rewrite Hs. cbn [strings.Join]. rewrite H.
  destruct (length parts) as [|n]; [lia|]. cbn [mergeSegments].
  destruct (Nat.ltb_spec (i + 1) (S n)); [lia | reflexivity].
Qed.

(** X15. In a store whose bucket names hold no slash, findBucket is plain
    path resolution: it returns the bucket reached by looking up the
    non-empty segments of the path one after the other, each as an exact
    name, and NotFound exactly when one of these lookups fails or the path
    has no segment. *)
Theorem findBucket_is_plain_resolution (tx : Tx) (path : string) :
  wellNamedTx tx ->
  findBucket tx path = reach tx (pathParts path).
Proof.
  intros Hw. destruct (reach tx (pathParts path)) as [b|] eqn:R.
  - rewrite findBucket_parts. now apply findParts_reach.
  - destruct (findBucket tx path) as [b|] eqn:F; [|reflexivity].
    destruct (findBucket_wellNamed _ _ _ Hw F) as [R' _]. congruence.
Qed.

(** X16. An exact match is final.  When the segment [x] names a child [c]
    of the bucket reached by the names [pre], resolution goes into [c] and
    never comes back: if [c] has no child named by the last segment [y], the
    path is NotFound, whatever other children the bucket holds, one named
    ["x/y"] included. *)
Theorem findBucket_exact_match_shadows
        (tx : Tx) (pre : list string) (x y : string) (a c : Bucket) :
  Forall (fun n => segment n = true) (pre ++ [x; y]) ->
  reach tx pre = Some a ->
  Bucket_Bucket a x = Some c ->
  Bucket_Bucket c y = None ->
  findBucket tx (strings.Join (pre ++ [x; y]) "/") = None.
Proof.
  intros Hseg Hr Hx Hy.
  destruct (reach_cons_inv _ _ _ Hr) as (top & pre' & t & -> & T & D).
  rewrite (findBucket_Join _ _ Hseg).
  change ((top :: pre') ++ [x; y])%list with (top :: (pre' ++ [x; y]))%list.
  rewrite (findParts_findFrom _ _ _ _ T).
  set (parts := (top :: pre' ++ [x; y])%list).
  assert (Hlen : length parts = length pre' + 3).
  { unfold parts. simpl. rewrite length_app. simpl. lia. }
  assert (Hskip : skipn (1 + length pre') parts = [x; y]).
  { unfold parts. cbn [Nat.add skipn].
    now rewrite skipn_app, skipn_all, Nat.sub_diag. }
  rewrite (findFrom_descend pre' parts t 1 a).
  - assert (Hx' : nth (1 + length pre') parts EmptyString = x).
    { pose proof (skipn_nth_cons parts (1 + length pre') EmptyString ltac:(lia)) as E.
      rewrite Hskip in E. now inversion E. }
    assert (Hy' : nth (1 + length pre' + 1) parts EmptyString = y).
    { pose proof (skipn_nth_cons parts (1 + length pre' + 1) EmptyString ltac:(lia))
        as E.
      replace (1 + length pre' + 1) with (1 + (1 + length pre')) in E at 1 by lia.
      rewrite <- skipn_skipn, Hskip in E. now inversion E. }
    rewrite (findFrom_exact parts a (1 + length pre') c) by (lia || now rewrite Hx').
    rewrite findFrom_last_none; [reflexivity | lia | now rewrite Hy'].
  - unfold parts. rewrite slice_tail.
    rewrite firstn_app, Nat.sub_diag, firstn_all. simpl. now rewrite app_nil_r.
  - lia.
  - exact D.
Qed.

Lemma findBucket_exact_match_shadows_witness :
  reach [("A", MkBucket [("x", Sub emptyBucket);
                         ("x/y", Sub (MkBucket [("k", Val "v")]))])] ["A"; "x/y"]
  = Some (MkBucket [("k", Val "v")])
  /\ findBucket [("A", MkBucket [("x", Sub emptyBucket);
                                 ("x/y", Sub (MkBucket [("k", Val "v")]))])] "A/x/y"
     = None.
Proof.
  split; [reflexivity|].
  apply (findBucket_exact_match_shadows
           [("A", MkBucket [("x", Sub emptyBucket);
                            ("x/y", Sub (MkBucket [("k", Val "v")]))])]
           ["A"] "x" "y"
           (MkBucket [("x", Sub emptyBucket); ("x/y", Sub (MkBucket [("k", Val "v")]))])
           emptyBucket).
  - repeat constructor.
  - reflexivity.
  - reflexivity.
  - reflexivity.
Defined.

Lemma findBucket_is_plain_resolution_witness :
  findBucket tx_ABC "/A//B/" = reach tx_ABC ["A"; "B"].
Proof.
  apply (findBucket_is_plain_resolution tx_ABC "/A//B/").
  split.
  - repeat constructor. intros [].
  - repeat constructor; simpl; auto; intros [].
Defined.

(** ** The hex dump of any value *)

Lemma hexLoop_all (data : string) (m : nat) (preview : string) :
  hexLoop data m 0 preview
  = preview ++ records (fullRecords data (m / 16)) ++ lastRecord data m.
Proof.
  pose proof (Nat.div_mod_eq m 16) as Hm.
  pose proof (Nat.mod_upper_bound m 16 ltac:(lia)) as Hr.
  rewrite (hexLoop_full_records data m (m / 16) 0 preview) by lia.
  cbn [Nat.add]. unfold lastRecord, fullRecords.
  destruct (Nat.eqb_spec (m mod 16) 0) as [E|E].
  - rewrite hexLoop_done by lia. now rewrite append_nil_r.
  - rewrite hexLoop_step by lia. rewrite Nat.min_r by lia.
    rewrite hexLoop_done by lia. now rewrite append_assoc.
Qed.

(** X17. The shape of the hex dump of any value.  The unbounded dump of
    getFullKeyData is the header, one record for each full run of 16 bytes
    and a last record for the bytes left over.  The bounded dump of
    formatBinaryPreview of a non-empty value is the same over the first 256
    bytes, followed, exactly when the value is longer, by the marker that
    states how many bytes were left out; for a value of at most 256 bytes
    the two dumps are the same text. *)
Theorem hex_dump_shape (data : string) :
  fullHexPreview data
  = hexHeader ++ records (fullRecords data (String.length data / 16))
      ++ lastRecord data (String.length data)
  /\ (data <> EmptyString ->
      formatBinaryPreview data
      = hexHeader
          ++ records (fullRecords data (Nat.min (String.length data) 256 / 16))
          ++ lastRecord data (Nat.min (String.length data) 256)
          ++ (if 256 <? String.length data
              then "... " ++ fmt.d (String.length data - 256) ++ " more bytes"
              else EmptyString))
  /\ (data <> EmptyString -> String.length data <= 256 ->
      formatBinaryPreview data = fullHexPreview data).
Proof.
  assert (Hfull : fullHexPreview data
                  = hexHeader ++ records (fullRecords data (String.length data / 16))
                      ++ lastRecord data (String.length data))
    by apply hexLoop_all.
  assert (Hlen : data <> EmptyString -> (String.length data =? 0) = false).
  { intros Hne. destruct data; [congruence | reflexivity]. }
  split; [exact Hfull|]. split.
  - intros Hne. unfold formatBinaryPreview. rewrite (Hlen Hne).
    destruct (Nat.ltb_spec (String.length data) 256) as [Hlt|Hge].
    + rewrite Nat.min_l by lia. rewrite Nat.ltb_irrefl.
      destruct (Nat.ltb_spec 256 (String.length data)); [lia|].
      rewrite hexLoop_all.
      now rewrite (append_nil_r (lastRecord data (String.length data))).
    + rewrite Nat.min_r by lia. rewrite hexLoop_all.
      destruct (Nat.ltb_spec 256 (String.length data)).
      * now rewrite !append_assoc.
      * rewrite (append_nil_r (lastRecord data 256)). reflexivity.
  - intros Hne Hle. unfold formatBinaryPreview. rewrite (Hlen Hne).
    destruct (Nat.ltb_spec (String.length data) 256) as [Hlt|Hge].
    + now rewrite Nat.ltb_irrefl.
    + assert (E : String.length data = 256) by lia. rewrite E.
      unfold fullHexPreview. rewrite E. reflexivity.
Qed.

Lemma substring_0_r (j : nat) (data : string) : substring j 0 data = EmptyString.
Proof.
  revert data. induction j as [|j IH]; intros [|a data]; simpl; auto.
Qed.

Lemma substring_get (j c : nat) (data : string) (b : ascii) :
  get j data = Some b ->
  substring j (S c) data = String b (substring (S j) c data).
Proof.
  revert data. induction j as [|j IH]; intros [|a data] H; simpl in H;
    try discriminate.
  - inversion H; subst. reflexivity.
  - exact (IH data H).
Qed.

Lemma hexBytes_cells (data : string) (count : nat) :
  forall j hex ascii,
    j + count <= String.length data ->
    hexBytes data j count hex ascii
    = (hex ++ cells hexCell (substring j count data),
       ascii ++ cells asciiCell (substring j count data)).
Proof.
  induction count as [|count IH]; intros j hex ascii H.
  - rewrite substring_0_r. simpl. now rewrite !append_nil_r.
  - cbn [hexBytes].
    destruct (get_in_range data j ltac:(lia)) as [b Hb]. rewrite Hb.
    rewrite IH by lia. rewrite (substring_get _ _ _ _ Hb).
    replace (j + 1) with (S j) by lia. cbn [cells].
    unfold hexCell. now rewrite !append_assoc.
Qed.

Lemma cells_printable (s : string) :
  Forall (fun c => printable c = true) (list_ascii_of_string (cells asciiCell s)).
Proof.
  induction s as [|b s IH]; [constructor|].
  cbn [cells]. unfold asciiCell. destruct (printable b) eqn:P; simpl.
  - constructor; assumption.
  - constructor; [reflexivity | assumption].
Qed.

Lemma length_spaces (n : nat) : String.length (spaces n) = n.
Proof. induction n; simpl; [reflexivity | now rewrite IHn]. Qed.

(** X18. What a record of the dump shows.  For a run of at most 16 bytes
    inside the data, the hex column is the two hex digits and a space of
    each byte in order, padded with spaces to 48 characters; the ASCII
    column has one character for each byte, the byte itself when it is
    printable ASCII (32 to 126) and a dot otherwise, so the column holds
    printable characters only. *)
Theorem hex_record_columns (data : string) (i e : nat) :
  i <= e -> e <= String.length data -> e - i <= 16 ->
  hexColumn data i e = cells hexCell (substring i (e - i) data)
  /\ asciiColumn data i e = cells asciiCell (substring i (e - i) data)
  /\ String.length (padHex (hexColumn data i e)) = 48
  /\ String.length (asciiColumn data i e) = e - i
  /\ Forall (fun c => printable c = true)
            (list_ascii_of_string (asciiColumn data i e)).
Proof.
  intros Hie He H16.
  destruct (columns_lengths data i e Hie He) as [Hh Ha].
  unfold hexColumn, asciiColumn in *.
  rewrite (hexBytes_cells data (e - i) i EmptyString EmptyString) in * by lia.
  cbn [fst snd String.append] in *.
  split; [reflexivity|]. split; [reflexivity|]. split; [|split].
  - unfold padHex. rewrite length_append, length_spaces, Hh. lia.
  - exact Ha.
  - apply cells_printable.
Qed.

Lemma hex_record_columns_witness :
  hexColumn "AB" 0 2 = "41 42 " /\ asciiColumn "AB" 0 2 = "AB".
Proof.
  destruct (hex_record_columns "AB" 0 2 ltac:(lia) ltac:(simpl; lia) ltac:(lia))
    as (H1 & H2 & _).
  split; [exact H1 | exact H2].
Defined.

(** ** The text check on plain text and on large values *)

Lemma plainASCII_valid (s : string) :
  plainASCII s = true -> hasNul s = false /\ utf8.ValidString s = true.
Proof.
  unfold plainASCII. induction s as [|c s IH]; [split; reflexivity|].
  cbn [list_ascii_of_string forallb]. intros H.
  apply andb_prop in H. destruct H as [Hc Hs].
  apply andb_prop in Hc. destruct Hc as [H1 H128].
  destruct (IH Hs) as [IH1 IH2]. cbn [hasNul utf8.ValidString].
  rewrite H128. apply Nat.leb_le in H1.
  destruct (Nat.eqb_spec (byteval c) 0); [lia|]. split; assumption.
Qed.

Section TextCheck.

Variable Doc : Type.
Variable json_decode : string -> Doc.
Variable json_MarshalIndent : Doc -> option string.

Local Abbreviation parse := (parseKeyValue json_decode json_MarshalIndent).

(** X19. The two ends of the text check.  A non-empty value of plain
    ASCII text (bytes 1 to 127) of at most 1 MiB passes isUTF8: it is never
    flagged binary and its kind is JSON or String, never Binary.  A value
    longer than 1 MiB fails isUTF8 whatever it holds: it is flagged binary,
    and unless it is a JSON document its kind is Binary, text included. *)
Theorem text_check_limits (key value : string) :
  (value <> EmptyString ->
   String.length value <= 1024 * 1024 ->
   plainASCII value = true ->
   isUTF8 value = true
   /\ IsBinary (parse key value) = false
   /\ (ValueType (parse key value) = "JSON" \/ ValueType (parse key value) = "String"))
  /\ (1024 * 1024 < String.length value ->
      isUTF8 value = false
      /\ IsBinary (parse key value) = true
      /\ (json_accepts value = false -> ValueType (parse key value) = "Binary")).
Proof.
  split.
  - intros Hne Hlen Hascii.
    assert (HU : isUTF8 value = true).
    { unfold isUTF8. destruct (plainASCII_valid _ Hascii) as [Hn Hv].
      destruct (Nat.eqb_spec (String.length value) 0) as [E|E].
      - destruct value; [congruence | discriminate].
      - destruct (Nat.ltb_spec (1024 * 1024) (String.length value)); [lia|].
        cbn [orb]. now rewrite Hn. }
    split; [exact HU|].
    unfold parseKeyValue. destruct (json_Unmarshal json_decode value).
    + cbn [IsBinary ValueType]. rewrite HU. split; [reflexivity | now left].
    + rewrite HU. cbn. split; [reflexivity | now right].
  - intros Hlen.
    assert (HU : isUTF8 value = false).
    { unfold isUTF8.
      destruct (Nat.ltb_spec (1024 * 1024) (String.length value)); [|lia].
      now rewrite orb_true_r. }
    split; [exact HU|].
    unfold parseKeyValue, json_Unmarshal. destruct (json_accepts value).
    + cbn [IsBinary ValueType]. rewrite HU. split; [reflexivity | discriminate].
    + rewrite HU. cbn. split; reflexivity.
Qed.

End TextCheck.

(** ** What decodes as a time, and to which instant *)








Section DecodeTimeOutcomes.

Variable localOffset : Z -> Z.
Variable Time_Format : time.Time -> string -> string.

Local Abbreviation decode := (decodeTime localOffset Time_Format).
Local Abbreviation handle := (handleDecodeTime localOffset Time_Format).

Lemma UnmarshalBinary_shaped (value : string) :
  (exists t, time.UnmarshalBinary localOffset value = inr t)
  <-> timeShaped value = true.
Proof.
  unfold time.UnmarshalBinary, timeShaped.
  destruct value as [|version rest]; cbn [list_ascii_of_string].
  - split; [intros [t H]; discriminate | discriminate].
  - change time.timeBinaryVersionV1 with 1. change time.timeBinaryVersionV2 with 2.
    destruct ((byteval version =? 1) || (byteval version =? 2)); cbn [negb andb].
    + destruct (String.length (String version rest) =? time.wantLen (byteval version));
        cbn [negb].
      * split; [reflexivity|]. intros _.
        repeat match goal with
               | |- context [if ?c then _ else _] => destruct c
               end; eexists; reflexivity.
      * split; [intros [t H]; discriminate | discriminate].
    + split; [intros [t H]; discriminate | discriminate].
Qed.

(** X20. Which values decode as a time.  decodeTime succeeds exactly on
    the values that have the shape of a binary time: a first byte 1 or 2
    and the length that it fixes, 15 or 16 bytes; the other bytes are not
    checked.  handleDecodeTime answers "Failed to get key" exactly when the
    path resolves to no bucket or the bucket holds no value under the key,
    "Failed to decode timestamp" exactly when the value found has not that
    shape, and succeeds otherwise. *)
Theorem handleDecodeTime_outcomes (tx : Tx) (decodedPath decodedKey : string) :
  (forall value,
     (exists r, decode value = inr r) <-> timeShaped value = true)
  /\ (forall value, timeShaped value = false -> decode value = inl DecodeError)
  /\ (handle tx decodedPath decodedKey = inl GetKeyError
      <-> forall b, findBucket tx decodedPath = Some b ->
                    Bucket_Get b decodedKey = None)
  /\ (handle tx decodedPath decodedKey = inl DecodeError
      <-> exists b value,
            findBucket tx decodedPath = Some b
            /\ Bucket_Get b decodedKey = Some value
            /\ timeShaped value = false)
  /\ (forall r,
        handle tx decodedPath decodedKey = inr r
        <-> exists b value,
              findBucket tx decodedPath = Some b
              /\ Bucket_Get b decodedKey = Some value
              /\ timeShaped value = true
              /\ decode value = inr r).
Proof.
  assert (D1 : forall value,
             (exists r, decode value = inr r) <-> timeShaped value = true).
  { intros value. rewrite <- UnmarshalBinary_shaped. unfold decodeTime.
    destruct (time.UnmarshalBinary localOffset value) as [e|t].
    - split; intros [x H]; discriminate.
    - split; intros _; eexists; reflexivity. }
  assert (D2 : forall value, timeShaped value = false -> decode value = inl DecodeError).
  { intros value H. destruct (decode value) as [e|r] eqn:E.
    - unfold decodeTime in E.
      destruct (time.UnmarshalBinary localOffset value); [|discriminate].
      symmetry. exact E.
    - assert (S : timeShaped value = true) by (apply D1; now exists r).
      congruence. }
  split; [exact D1|]. split; [exact D2|].
  unfold handleDecodeTime.
  destruct (findBucket tx decodedPath) as [b|] eqn:F.
  - destruct (Bucket_Get b decodedKey) as [value|] eqn:G.
    + split; [|split].
      * split.
        -- intros H. destruct (timeShaped value) eqn:S.
           ++ apply D1 in S. destruct S as [r Hr]. congruence.
           ++ rewrite (D2 _ S) in H. discriminate.
        -- intros H. specialize (H b eq_refl). congruence.
      * split.
        -- intros H. exists b, value. split; [reflexivity|]. split; [exact G|].
           destruct (timeShaped value) eqn:S; [|reflexivity].
           apply D1 in S. destruct S as [r Hr]. congruence.
        -- intros (b' & v' & Hb & Hv & S). inversion Hb; subst b'.
           rewrite G in Hv. inversion Hv; subst v'. now apply D2.
      * intros r. split.
        -- intros H. exists b, value. split; [reflexivity|]. split; [exact G|].
           split; [|exact H]. apply D1. now exists r.
        -- intros (b' & v' & Hb & Hv & _ & H). inversion Hb; subst b'.
           rewrite G in Hv. inversion Hv; subst v'. exact H.
    + split; [|split].
      * split; [|reflexivity]. intros _ b' Hb. inversion Hb; subst b'. exact G.
      * split; [discriminate|]. intros (b' & v' & Hb & Hv & _).
        inversion Hb; subst b'. congruence.
      * intros r. split; [discriminate|]. intros (b' & v' & Hb & Hv & _).
        inversion Hb; subst b'. congruence.
  - split; [|split].
    + split; [intros _ b' Hb; discriminate | reflexivity].
    + split; [discriminate|]. intros (b' & v' & Hb & _). discriminate.
    + intros r. split; [discriminate|]. intros (b' & v' & Hb & _). discriminate.
Qed.


End DecodeTimeOutcomes.


(** ** Escaped route variables *)

Lemma escapeByte_ishex (c : ascii) :
  url.ishex (upperhexDigit (byteval c / 16)) = true
  /\ url.ishex (upperhexDigit (byteval c mod 16)) = true.
Proof. destruct c as [[] [] [] [] [] [] [] []]; split; reflexivity. Qed.

Lemma escapeByte_decodes (c : ascii) :
  ascii_of_nat (Nat.lor (Nat.shiftl (url.unhex (upperhexDigit (byteval c / 16))) 4
                         mod 256)
                        (url.unhex (upperhexDigit (byteval c mod 16))))
  = c.
Proof. destruct c as [[] [] [] [] [] [] [] []]; reflexivity. Qed.

Lemma scan_escapeWith (p : ascii -> bool) (mode : url.encoding) :
  p "%"%char = true ->
  (url.isQuery mode = true -> p "+"%char = true) ->
  forall s n, exists n', url.scan (escapeWith p s) n false mode = inr (n', false).
Proof.
  intros Hp Hplus. induction s as [|c s IH]; intros n.
  - exists n. reflexivity.
  - cbn [escapeWith]. destruct (p c) eqn:Pc.
    + unfold escapeByte. cbn [String.append url.scan Ascii.eqb Bool.eqb].
      destruct (escapeByte_ishex c) as [H1 H2]. rewrite H1, H2. cbn [andb].
      apply IH.
    + cbn [String.append url.scan].
      destruct (Ascii.eqb_spec c "%"%char) as [->|Hc]; [congruence|].
      destruct (Ascii.eqb_spec c "+"%char) as [->|Hc'].
      * destruct (url.isQuery mode) eqn:Q; [rewrite (Hplus eq_refl) in Pc; discriminate|].
        apply IH.
      * apply IH.
Qed.

Lemma build_escapeWith (p : ascii -> bool) (mode : url.encoding) :
  p "%"%char = true ->
  (url.isQuery mode = true -> p "+"%char = true) ->
  forall s, url.build (escapeWith p s) mode = s.
Proof.
  intros Hp Hplus. induction s as [|c s IH]; [reflexivity|].
  cbn [escapeWith]. destruct (p c) eqn:Pc.
  - unfold escapeByte. cbn [String.append url.build Ascii.eqb Bool.eqb].
    now rewrite escapeByte_decodes, IH.
  - cbn [String.append url.build].
    destruct (Ascii.eqb_spec c "%"%char) as [->|Hc]; [congruence|].
    destruct (Ascii.eqb_spec c "+"%char) as [->|Hc'].
    + destruct (url.isQuery mode) eqn:Q; [rewrite (Hplus eq_refl) in Pc; discriminate|].
      now rewrite IH.
    + now rewrite IH.
Qed.

(** The first loop never lowers its count, and in the mode of a query
    component its flag, once set, stays set. *)
Lemma scan_count (k : nat) :
  forall s n hp mode n' hp',
    String.length s <= k ->
    url.scan s n hp mode = inr (n', hp') ->
    n <= n' /\ (url.isQuery mode = true -> hp = true -> hp' = true).
Proof.
  induction k as [|k IH]; intros s n hp mode n' hp' Hk H.
  - destruct s; [|simpl in Hk; lia]. simpl in H. inversion H; subst. split; auto.
  - destruct s as [|c s]; [simpl in H; inversion H; subst; split; auto|].
    simpl in Hk. cbn [url.scan] in H.
    destruct (Ascii.eqb c "%").
    + destruct s as [|h1 [|h2 s']]; try discriminate.
      destruct (url.ishex h1 && url.ishex h2); [|discriminate].
      simpl in Hk. apply IH in H; [|lia]. destruct H as [H1 H2]. split; [lia | exact H2].
    + destruct (Ascii.eqb c "+").
      * apply IH in H; [|lia]. destruct H as [H1 H2]. split; [exact H1|].
        intros Q _. apply H2; assumption.
      * apply IH in H; [|lia]. exact H.
Qed.

(** The shortcut of [unescape] agrees with its second loop: when the first
    loop counts no percent sign and leaves the flag unset, the second loop
    would copy the string. *)
Lemma scan_nothing_to_do (mode : url.encoding) :
  forall s n hp hp',
    url.scan s n hp mode = inr (n, hp') ->
    (url.isQuery mode = true -> hp' = false) ->
    url.build s mode = s /\ noPercent s = true
    /\ (url.isQuery mode = true -> plusToSpace s = s).
Proof.
  induction s as [|c s IH]; intros n hp hp' H Hq; [repeat split|].
  cbn [url.scan] in H. cbn [url.build noPercent plusToSpace].
  destruct (Ascii.eqb c "%") eqn:E.
  - exfalso. destruct s as [|h1 [|h2 s']]; try discriminate.
    destruct (url.ishex h1 && url.ishex h2); [|discriminate].
    apply (scan_count (String.length s')) in H; [lia | lia].
  - destruct (Ascii.eqb c "+") eqn:E'.
    + destruct (url.isQuery mode) eqn:Q.
      * exfalso.
        destruct (scan_count (String.length s) s n true mode n hp' (le_n _) H)
          as [_ S].
        specialize (S Q eq_refl). specialize (Hq eq_refl). congruence.
      * destruct (IH _ _ _ H Hq) as (B & P & _).
        apply Ascii.eqb_eq in E'. subst c. rewrite B, P.
        repeat split. discriminate.
    + destruct (IH _ _ _ H Hq) as (B & P & S). rewrite B, P. cbn [negb andb].
      split; [reflexivity|]. split; [reflexivity|]. intros Q. now rewrite (S Q).
Qed.

Lemma unescape_escapeWith (p : ascii -> bool) (mode : url.encoding) (s : string) :
  p "%"%char = true ->
  (url.isQuery mode = true -> p "+"%char = true) ->
  url.unescape (escapeWith p s) mode = inr s.
Proof.
  intros Hp Hplus. unfold url.unescape.
  destruct (scan_escapeWith p mode Hp Hplus s 0) as [n' H]. rewrite H.
  pose proof (build_escapeWith p mode Hp Hplus s) as B.
  destruct (Nat.eqb_spec n' 0) as [->|Hn]; cbn [negb andb]; [|now rewrite B].
  destruct (scan_nothing_to_do mode _ _ _ _ H ltac:(reflexivity)) as (B' & _).
  f_equal. congruence.
Qed.

Lemma scan_noPercent (mode : url.encoding) :
  forall s n hp,
    noPercent s = true ->
    exists hp', url.scan s n hp mode = inr (n, hp').
Proof.
  induction s as [|c s IH]; intros n hp H; [now exists hp|].
  cbn [noPercent] in H. apply andb_prop in H. destruct H as [Hc Hs].
  apply negb_true_iff in Hc. cbn [url.scan]. rewrite Hc.
  destruct (Ascii.eqb c "+"); now apply IH.
Qed.

Lemma build_noPercent (s : string) :
  noPercent s = true ->
  url.build s url.encodePathSegment = s
  /\ url.build s url.encodeQueryComponent = plusToSpace s.
Proof.
  induction s as [|c s IH]; intros H; [split; reflexivity|].
  cbn [noPercent] in H. apply andb_prop in H. destruct H as [Hc Hs].
  apply negb_true_iff in Hc. destruct (IH Hs) as [IH1 IH2].
  cbn [url.build plusToSpace url.isQuery]. rewrite Hc, IH1, IH2.
  destruct (Ascii.eqb_spec c "+"%char) as [->|Hne]; split; reflexivity.
Qed.

Lemma unescape_noPercent (s : string) :
  noPercent s = true ->
  url.PathUnescape s = inr s /\ url.QueryUnescape s = inr (plusToSpace s).
Proof.
  intros H. destruct (build_noPercent s H) as [B1 B2].
  unfold url.PathUnescape, url.QueryUnescape, url.unescape.
  destruct (scan_noPercent url.encodePathSegment s 0 false H) as [hp1 S1].
  destruct (scan_noPercent url.encodeQueryComponent s 0 false H) as [hp2 S2].
  rewrite S1, S2. cbn [Nat.eqb andb]. split.
  - destruct hp1; cbn [negb]; [now rewrite B1 | reflexivity].
  - destruct hp2; cbn [negb]; [now rewrite B2|].
    destruct (scan_nothing_to_do url.encodeQueryComponent _ _ _ _ S2
                ltac:(reflexivity)) as (_ & _ & P).
    now rewrite (P eq_refl).
Qed.

(** X22. Unescaping inverts escaping.  However the sender chooses the
    bytes to percent-encode, as long as the percent sign is among them,
    PathUnescape gives back the original string, slashes, colons and plus
    signs included; QueryUnescape does when the plus sign is encoded too.
    On a string with no percent sign PathUnescape changes nothing, while
    QueryUnescape turns each plus sign into a space. *)
Theorem unescape_inverts_escaping (p : ascii -> bool) (s : string) :
  (p "%"%char = true -> url.PathUnescape (escapeWith p s) = inr s)
  /\ (p "%"%char = true -> p "+"%char = true ->
      url.QueryUnescape (escapeWith p s) = inr s)
  /\ (noPercent s = true ->
      url.PathUnescape s = inr s /\ url.QueryUnescape s = inr (plusToSpace s)).
Proof.
  split; [|split].
  - intros Hp. apply unescape_escapeWith; [exact Hp | discriminate].
  - intros Hp Hplus. apply unescape_escapeWith; [exact Hp | intros _; exact Hplus].
  - apply unescape_noPercent.
Qed.

(** A malformed escape is an error in every mode, the same one. *)
Lemma scan_error_any_mode (k : nat) :
  forall s n1 n2 h1 h2 m1 m2 e,
    String.length s <= k ->
    url.scan s n1 h1 m1 = inl e -> url.scan s n2 h2 m2 = inl e.
Proof.
  induction k as [|k IH]; intros s n1 n2 h1 h2 m1 m2 e Hk S.
  - destruct s; [discriminate | simpl in Hk; lia].
  - destruct s as [|c s]; [discriminate|]. simpl in Hk.
    cbn [url.scan] in *. destruct (Ascii.eqb c "%").
    + destruct s as [|x [|y s']]; try exact S.
      destruct (url.ishex x && url.ishex y); [|exact S].
      simpl in Hk. eapply (IH s'); [lia | exact S].
    + destruct (Ascii.eqb c "+"); eapply (IH s); (lia || exact S).
Qed.

Lemma unescape_error_any_mode (s : string) (m1 m2 : url.encoding) (e : string) :
  url.unescape s m1 = inl e -> url.unescape s m2 = inl e.
Proof.
  unfold url.unescape.
  destruct (url.scan s 0 false m1) as [e1|[n hp]] eqn:S;
    [|destruct ((n =? 0) && negb hp); discriminate].
  intros H. inversion H; subst.
  now rewrite (scan_error_any_mode _ s 0 0 false false m1 m2 e (le_n _) S).
Qed.

Lemma findBucket_Trim (tx : Tx) (path : string) :
  findBucket tx (strings.Trim path slash) = findBucket tx path.
Proof. now rewrite !findBucket_parts, pathParts_Trim. Qed.

Section RequestProperties.

Variable Doc : Type.
Variable json_decode : string -> Doc.
Variable json_MarshalIndent : Doc -> option string.
Variable Bucket_Stats : Bucket -> BucketStats.
Variable localOffset : Z -> Z.
Variable Time_Format : time.Time -> string -> string.
Variable strconv_Quote : string -> string.

Local Abbreviation parse := (parseKeyValue json_decode json_MarshalIndent).
Local Abbreviation getBucket :=
  (handleGetBucket json_decode json_MarshalIndent Bucket_Stats).
Local Abbreviation getKey := (handleGetKey json_decode json_MarshalIndent).
Local Abbreviation decodeRequest :=
  (handleDecodeTimeRequest localOffset Time_Format strconv_Quote).

Lemma getFullKeyData_classifies (tx : Tx) (bucketPath : string) (b : Bucket)
      (k v : string) :
  findBucket tx bucketPath = Some b -> Bucket_Get b k = Some v ->
  exists kv,
    getFullKeyData json_decode json_MarshalIndent tx bucketPath k = inr kv
    /\ sameClassification kv (parse k v).
Proof.
  intros F G. unfold getFullKeyData, parseKeyValue. rewrite F, G.
  destruct (json_Unmarshal json_decode v) as [doc|].
  - eexists. split; [reflexivity|]. repeat split.
  - destruct (isUTF8 v); cbn; eexists; (split; [reflexivity|]); repeat split.
Qed.

(** X23. Browsing by escaped names.  Let the path of a bucket and a key be
    percent-encoded in any way that encodes the percent sign.  handleGetBucket
    and handleGetKey decode them and answer as getBucketDetails,
    getKeyDetails and getFullKeyData do on the names themselves, the path
    trimmed of its outer slashes: with status 500 and the message of the
    missing bucket or key when findBucket or Get finds nothing, and
    otherwise with status 200, the details of the bucket in both fields
    [data] and [bucket], and the key classified as parseKeyValue does. *)
Theorem browse_by_escaped_names
        (p : ascii -> bool) (tx : Tx) (path key fullParam : string) :
  p "%"%char = true ->
  match findBucket tx path with
  | None =>
      getBucket tx (escapeWith p path)
      = sendError "Failed to get bucket details"
                  (Some ("bucket not found: " ++ strings.Trim path slash))
      /\ getKey tx (escapeWith p path) (escapeWith p key) fullParam
         = sendError (if String.eqb fullParam "1"
                      then "Failed to get full key data"
                      else "Failed to get key details")
                     (Some ("bucket not found: " ++ strings.Trim path slash))
  | Some b =>
      (exists info,
          getBucket tx (escapeWith p path)
          = mkReply 200 (mkAPIResponse true (Some info) None (Some info)
                                       EmptyString EmptyString)
          /\ Path info = strings.Trim path slash
          /\ Keys info = map (fun kv => parse (fst kv) (snd kv)) (values b)
          /\ map Name (SubBuckets info) = map fst (subBuckets b))
      /\ match Bucket_Get b key with
         | None =>
             getKey tx (escapeWith p path) (escapeWith p key) fullParam
             = sendError (if String.eqb fullParam "1"
                          then "Failed to get full key data"
                          else "Failed to get key details")
                         (Some ("key not found: " ++ key))
         | Some v =>
             exists kv,
               getKey tx (escapeWith p path) (escapeWith p key) fullParam
               = sendSuccess kv
               /\ sameClassification kv (parse key v)
         end
  end.
Proof.
  intros Hp.
  assert (U : forall s, url.PathUnescape (escapeWith p s) = inr s)
    by (intros s; apply unescape_escapeWith; [exact Hp | discriminate]).
  unfold handleGetBucket, handleGetKey. rewrite !U.
  pose proof (findBucket_Trim tx path) as FT.
  destruct (findBucket tx path) as [b|] eqn:F.
  - split.
    + rewrite (getBucketDetails_eq Doc json_decode json_MarshalIndent Bucket_Stats),
        FT.
      eexists. split; [reflexivity|]. cbn [Path Keys SubBuckets].
      split; [reflexivity|]. split; [reflexivity|].
      rewrite map_map. apply map_ext. intros [k c]. cbn [fst snd].
      now rewrite buildBucketInfo_eq.
    + destruct (Bucket_Get b key) as [v|] eqn:G.
      * destruct (String.eqb fullParam "1").
        -- destruct (getFullKeyData_classifies _ _ _ _ _ FT G) as (kv & E & C).
           rewrite E. now exists kv.
        -- destruct (getKeyDetails_classifies Doc json_decode json_MarshalIndent
                       _ _ _ _ _ FT G) as (kv & E & C).
           rewrite E. now exists kv.
      * unfold getFullKeyData, getKeyDetails. rewrite FT, G.
        destruct (String.eqb fullParam "1"); reflexivity.
  - split.
    + now rewrite (getBucketDetails_eq Doc json_decode json_MarshalIndent Bucket_Stats),
        FT.
    + unfold getFullKeyData, getKeyDetails. rewrite FT.
      destruct (String.eqb fullParam "1"); reflexivity.
Qed.

(** X24. The list of buckets is always served: handleGetBuckets answers
    with status 200, the tree of getAllBuckets in both fields [data] and
    [buckets], one root for each top-level bucket, and never with the error
    ["Failed to get bucket list"]. *)
Theorem handleGetBuckets_replies (tx : Tx) :
  exists buckets,
    handleGetBuckets Bucket_Stats tx
    = mkReply 200 (mkAPIResponse true (Some buckets) (Some buckets) None
                                 EmptyString EmptyString)
    /\ buckets = fst (getAllBuckets (Doc := Doc) Bucket_Stats tx)
    /\ map Name buckets = map fst tx.
Proof.
  unfold handleGetBuckets.
  rewrite (getAllBuckets_eq Doc Bucket_Stats). eexists.
  split; [reflexivity|]. split; [reflexivity|].
  cbn [fst]. rewrite map_map. apply map_ext. intros [k b].
  now rewrite buildBucketInfo_eq.
Qed.

(** X25. The two routes to a key read a plus sign differently.  On route
    variables with no percent sign, handleGetKey looks the names up as they
    are, while handleDecodeTime looks them up with every plus sign turned
    into a space: it decodes the value stored under that other key, and
    answers "key not found" when the bucket holds none, whatever is stored
    under the key as written.  A malformed escape makes handleDecodeTime
    fail with "Invalid bucket path"; handleGetKey takes the name as
    written. *)
Theorem routes_read_plus_differently (tx : Tx) (path key : string) :
  (noPercent path = true -> noPercent key = true ->
   (forall kv,
       getKeyDetails json_decode json_MarshalIndent tx
                     (strings.Trim path slash) key = inr kv ->
       getKey tx path key EmptyString = sendSuccess kv)
   /\ (forall r,
         handleDecodeTime localOffset Time_Format tx
                          (plusToSpace path) (plusToSpace key) = inr r ->
         decodeRequest tx path key = sendSuccess r)
   /\ (forall b,
         findBucket tx (plusToSpace path) = Some b ->
         Bucket_Get b (plusToSpace key) = None ->
         decodeRequest tx path key
         = sendError "Failed to get key"
                     (Some ("key not found: " ++ plusToSpace key))))
  /\ (forall e,
        url.QueryUnescape path = inl e ->
        decodeRequest tx path key
        = sendError "Invalid bucket path"
                    (Some ("invalid URL escape " ++ strconv_Quote e))
        /\ getKey tx path key EmptyString
           = match getKeyDetails json_decode json_MarshalIndent tx
                                 (strings.Trim path slash)
                                 (match url.PathUnescape key with
                                  | inl _ => key
                                  | inr k => k
                                  end) with
             | inl err => sendError "Failed to get key details" (Some err)
             | inr kv => sendSuccess kv
             end).
Proof.
  split.
  - intros Hpath Hkey.
    destruct (unescape_noPercent path Hpath) as [Pp Qp].
    destruct (unescape_noPercent key Hkey) as [Pk Qk].
    unfold handleGetKey, handleDecodeTimeRequest, handleDecodeTime, decodeTime.
    rewrite Pp, Pk, Qp, Qk. cbn [String.eqb].
    split; [|split].
    + intros kv H. now rewrite H.
    + intros r H.
      destruct (findBucket tx (plusToSpace path)) as [b|]; [|discriminate].
      destruct (Bucket_Get b (plusToSpace key)) as [v|]; [|discriminate].
      destruct (time.UnmarshalBinary localOffset v) as [err|t]; [discriminate|].
      inversion H; subst. reflexivity.
    + intros b F G. now rewrite F, G.
  - intros e H. unfold handleDecodeTimeRequest, handleGetKey. rewrite H.
    split; [reflexivity|].
    pose proof (unescape_error_any_mode path _ url.encodePathSegment e H) as P.
    change (url.unescape path url.encodePathSegment) with (url.PathUnescape path) in P.
    rewrite P. reflexivity.
Qed.

End RequestProperties.

(** ** The theorems at concrete stores *)

Lemma getBucketDetails_children_open_witness :
  findBucket tx_ABC "/A//B" = Some (MkBucket [("C", Sub (MkBucket [("k", Val "v")]))]).
Proof.
  assert (W : wellNamedTx tx_ABC).
  { split.
    - repeat constructor. intros [].
    - repeat constructor; simpl; auto; intros []. }
  destruct (getBucketDetails_children_open string (fun s => s) (fun d => Some d)
              (fun _ => mkBucketStats 0 0 0 0 0 0 0 0) tx_ABC "/A/"
              (mkBucketInfo "A" "/A/" 0 0
                 [buildBucketInfo (fun _ => mkBucketStats 0 0 0 0 0 0 0 0)
                    (MkBucket [("C", Sub (MkBucket [("k", Val "v")]))])
                    "B" "/A//B" 1]
                 [] (mkBucketStats 0 0 0 0 0 0 0 0) true)
              W eq_refl
              (buildBucketInfo (fun _ => mkBucketStats 0 0 0 0 0 0 0 0)
                 (MkBucket [("C", Sub (MkBucket [("k", Val "v")]))])
                 "B" "/A//B" 1)
              (or_introl eq_refl))
    as (b & c & info' & F & HB & Fc & _).
  inversion F; subst b. inversion HB; subst c. exact Fc.
Defined.

Lemma key_views_agree_witness :
  exists kv,
    getKeyDetails (fun s => s) (fun d => Some d)
                  [("A", MkBucket [("k", Val "null")])] "A" "k" = inr kv
    /\ ValueType kv = "JSON".
Proof.
  destruct (proj1 (key_views_agree string (fun s => s) (fun d => Some d)
                     (fun _ => mkBucketStats 0 0 0 0 0 0 0 0)
                     [("A", MkBucket [("k", Val "null")])] "A"
                     (MkBucket [("k", Val "null")]) eq_refl)
                  "k" "null" eq_refl)
    as (kv' & kv'' & E & _ & (_ & _ & T & _) & _).
  exists kv'. split; [exact E | exact T].
Defined.

Lemma search_results_open_witness :
  exists b v,
    findBucket tx_ABC "A/B/C" = Some b /\ Bucket_Get b "k" = Some v.
Proof.
  assert (W : wellNamedTx tx_ABC).
  { split.
    - repeat constructor. intros [].
    - repeat constructor; simpl; auto; intros []. }
  destruct (search_results_open string (fun s => s) (fun d => Some d) (fun s => s)
              tx_ABC "K"
              (resultOf (fun s => s) (fun d => Some d) "A/B/C" "k" "v")
              W (or_introl eq_refl))
    as (b & v & kv & F & G & _).
  exists b, v. split; [exact F | exact G].
Defined.

Lemma searchKeys_finds_every_match_witness :
  In (resultOf (fun s => s) (fun d => Some d) "A/B/C" "k" "v")
     (fst (searchKeys (fun s => s) (fun d => Some d) (fun s => s) tx_ABC "K")).
Proof.
  apply (searchKeys_finds_every_match string (fun s => s) (fun d => Some d)
           (fun s => s) tx_ABC "K" "A"
           (MkBucket [("B", Sub (MkBucket [("C", Sub (MkBucket [("k", Val "v")]))]))])
           ["B"; "C"] (MkBucket [("k", Val "v")]) "k" "v").
  - vm_compute. lia.
  - discriminate.
  - left. reflexivity.
  - eapply nested_sub; [left; reflexivity|].
    eapply nested_sub; [left; reflexivity|]. apply nested_here.
  - left. reflexivity.
  - reflexivity.
Defined.

Lemma browse_by_escaped_names_witness :
  exists kv,
    handleGetKey (fun s => s) (fun d => Some d) tx_A_xy "A%2Fx%2Fy" "k" EmptyString
    = sendSuccess kv
    /\ ValueType kv = "String".
Proof.
  destruct (browse_by_escaped_names string (fun s => s) (fun d => Some d)
              (fun _ => mkBucketStats 0 0 0 0 0 0 0 0)
              (fun c => Ascii.eqb c "%" || Ascii.eqb c "/")
              tx_A_xy "A/x/y" "k" EmptyString eq_refl)
    as (_ & kv & E & (_ & _ & T & _)).
  exists kv. split; [exact E | exact T].
Defined.

Lemma routes_read_plus_differently_witness :
  (exists kv,
      handleGetKey (fun s => s) (fun d => Some d)
                   [("A", MkBucket [("a+b", Val epochZeroUTC)])] "A" "a+b" EmptyString
      = sendSuccess kv)
  /\ handleDecodeTimeRequest (fun _ => 0%Z) (fun _ layout => layout) (fun s => s)
                             [("A", MkBucket [("a+b", Val epochZeroUTC)])] "A" "a+b"
     = sendError "Failed to get key" (Some "key not found: a b").
Proof.
  destruct (routes_read_plus_differently string (fun s => s) (fun d => Some d)
              (fun _ => 0%Z) (fun _ layout => layout) (fun s => s)
              [("A", MkBucket [("a+b", Val epochZeroUTC)])] "A" "a+b")
    as [H _].
  destruct (H eq_refl eq_refl) as (H1 & _ & H3).
  split.
  - eexists. apply H1. reflexivity.
  - exact (H3 (MkBucket [("a+b", Val epochZeroUTC)]) eq_refl eq_refl).
Defined.

Lemma getAllBuckets_lists_every_bucket_witness :
  exists root,
    In root (fst (getAllBuckets (Doc := string)
                                (fun _ => mkBucketStats 0 0 0 0 0 0 0 0) tx_ABC))
    /\ Name root = "A"
    /\ In (buildBucketInfo (fun _ => mkBucketStats 0 0 0 0 0 0 0 0)
             (MkBucket [("k", Val "v")]) "C" "A/B/C" 2)
          (nodes root).
Proof.
  destruct (getAllBuckets_lists_every_bucket string
              (fun _ => mkBucketStats 0 0 0 0 0 0 0 0) tx_ABC) as (_ & _ & H).
  apply (H "A"
           (MkBucket [("B", Sub (MkBucket [("C", Sub (MkBucket [("k", Val "v")]))]))])
           ["B"; "C"] (MkBucket [("k", Val "v")])).
  - left. reflexivity.
  - eapply nested_sub; [left; reflexivity|].
    eapply nested_sub; [left; reflexivity|]. apply nested_here.
Defined.

Lemma searchKeys_exact_below_cap_witness :
  fst (searchKeys (fun s => s) (fun d => Some d) (fun s => s) tx_ABC "K")
  = allMatches (fun s => s) (fun d => Some d) (fun s => s) tx_ABC "K".
Proof.
  destruct (searchKeys_exact_below_cap string (fun s => s) (fun d => Some d)
              (fun s => s) tx_ABC "K") as (_ & _ & _ & H & _).
  apply H. vm_compute. lia.
Defined.

Lemma hex_dump_shape_witness :
  formatBinaryPreview "AB" = fullHexPreview "AB".
Proof.
  destruct (hex_dump_shape "AB") as (_ & _ & H).
  apply H; [discriminate | cbn [String.length]; lia].
Defined.

Lemma text_check_limits_witness :
  isUTF8 "hello" = true
  /\ IsBinary (parseKeyValue (fun s => s) (fun d => Some d) "k" "hello") = false.
Proof.
  destruct (text_check_limits string (fun s => s) (fun d => Some d) "k" "hello")
    as [H _].
  destruct H as (H1 & H2 & _);
    [discriminate | cbn [String.length]; lia | reflexivity |].
  split; [exact H1 | exact H2].
Defined.

Lemma handleDecodeTime_outcomes_witness :
  exists r, decodeTime (fun _ => 0%Z) (fun _ layout => layout) epochZeroUTC = inr r.
Proof.
  destruct (handleDecodeTime_outcomes (fun _ => 0%Z) (fun _ layout => layout)
              [] EmptyString EmptyString) as (H & _).
  apply H. reflexivity.
Defined.

Lemma unescape_inverts_escaping_witness :
  url.PathUnescape "a%2Fb%25" = inr "a/b%".
Proof.
  destruct (unescape_inverts_escaping
              (fun c => Ascii.eqb c "%" || Ascii.eqb c "/") "a/b%") as (H & _).
  apply H. reflexivity.
Defined.
